(** * Trashly: a versioned state container with undo / redo

    A verification development for the [trashly-core] store ([Trashly.ts]),
    its patch applier ([applyPatch.ts]) and the [LiquorStore] variant of the
    example application.

    The development has two layers.

    - A tree layer: a snapshot is a JSON-like tree ([Node]).  The [Trashly]
      class only ever writes into deep clones that nothing else can reach, so
      every method is a function from store to store.  (A value taken from
      a history entry becomes part of such a clone; a patch of the differ
      never writes below a value it has put in place, so these shared
      values are not written to either.)
    - A heap layer (module [Heap]): objects live at locations, property
      values are scalars or references.  It is used for the code that
      updates objects in place and for statements about reference identity
      ([applyPatch], [LiquorStore.mutate]). *)

From Stdlib Require Import DecimalString DecimalNat.
From stdpp Require Import base option list strings numbers gmap.

Local Open Scope string_scope.
Local Open Scope list_scope.
Local Open Scope Z_scope.

(** ** Scalars, keys and property lists *)

(** JavaScript primitives.  Numbers are restricted to integers; a string is
    the sequence of its code units, one [ascii] each; [SUndefined] is
    needed because [cloneDeep] fills array holes with [undefined]. *)
Inductive scalar :=
| SUndefined
| SNull
| SBool (b : bool)
| SNum (n : Z)
| SStr (s : string).

#[global] Instance scalar_eq_dec : EqDecision scalar.
Proof. solve_decision. Defined.

(** One step of a path: [string | number] in the source. *)
Inductive Key :=
| KStr (s : string)
| KNum (n : nat).

#[global] Instance Key_eq_dec : EqDecision Key.
Proof. solve_decision. Defined.

Definition Path := list Key.

(** The decimal numeral of an array index, as JavaScript's [ToString]. *)
Definition string_of_index (n : nat) : string :=
  NilEmpty.string_of_uint (Nat.to_uint n).

(** A string is an array index when it is the canonical numeral of a natural
    number ("0", "7", "42", but not "07" or "x"). *)
Definition index_of_string (s : string) : option nat :=
  match NilEmpty.uint_of_string s with
  | Some u =>
      let n := Nat.of_uint u in
      if decide (string_of_index n = s) then Some n else None
  | None => None
  end.

(** Property name denoted by a key (lodash [toKey], JavaScript [ToPropertyKey]). *)
Definition toKey (k : Key) : string :=
  match k with
  | KStr s => s
  | KNum n => string_of_index n
  end.

(** The array index denoted by a key, if any (lodash [isIndex]). *)
Definition asIndex (k : Key) : option nat :=
  match k with
  | KStr s => index_of_string s
  | KNum n => Some n
  end.

Definition isIndex (k : Key) : bool := bool_decide (is_Some (asIndex k)).

(** Own enumerable properties of a plain object, in enumeration order. *)
Section props.
Context {A : Type}.

Definition props := list (string * A).

Fixpoint prop_get (k : string) (ps : props) : option A :=
  match ps with
  | [] => None
  | (k', v) :: tl => if decide (k = k') then Some v else prop_get k tl
  end.

(** [o[k] = v]: overwrite in place, or append a new property. *)
Fixpoint prop_set (k : string) (v : A) (ps : props) : props :=
  match ps with
  | [] => [(k, v)]
  | (k', v') :: tl =>
      if decide (k = k') then (k, v) :: tl else (k', v') :: prop_set k v tl
  end.

(** [delete o[k]] *)
Fixpoint prop_delete (k : string) (ps : props) : props :=
  match ps with
  | [] => []
  | (k', v') :: tl =>
      if decide (k = k') then prop_delete k tl else (k', v') :: prop_delete k tl
  end.

Definition prop_keys (ps : props) : list string := ps.*1.

(** [a[i] = v] on an array with holes: overwrite a slot, or extend the
    array, leaving holes between the old end and [i]. *)
Definition slot_set (i : nat) (v : A) (xs : list (option A)) : list (option A) :=
  if decide (i < length xs)%nat then <[i := Some v]> xs
  else xs ++ replicate (i - length xs) None ++ [Some v].

(** [delete a[i]]: the slot becomes a hole, the length is unchanged. *)
Definition slot_delete (i : nat) (xs : list (option A)) : list (option A) :=
  <[i := None]> xs.

Definition slot_get (i : nat) (xs : list (option A)) : option A :=
  mjoin (xs !! i).
End props.
Arguments props : clear implicits.

(** ** Snapshots *)

(** A node of the state tree.  An array is a list of slots, [None] being a
    hole (what [delete a[i]] leaves behind), together with the non-index
    properties that JavaScript allows on arrays. *)
#[warnings="-register-all"]
Inductive Node :=
| Scalar (v : scalar)
| Arr (xs : list (option Node)) (named : list (string * Node))
| Obj (fs : list (string * Node)).

Definition isObject (n : Node) : bool :=
  match n with
  | Scalar _ => false
  | _ => true
  end.

(** [n[k]], [None] standing for a missing property. *)
Definition get (n : Node) (k : Key) : option Node :=
  match n with
  | Scalar _ => None
  | Arr xs named =>
      match asIndex k with
      | Some i => slot_get i xs
      | None => prop_get (toKey k) named
      end
  | Obj fs => prop_get (toKey k) fs
  end.

(** [n[k] = v] *)
Definition assign (n : Node) (k : Key) (v : Node) : Node :=
  match n with
  | Scalar _ => n
  | Arr xs named =>
      match asIndex k with
      | Some i => Arr (slot_set i v xs) named
      | None => Arr xs (prop_set (toKey k) v named)
      end
  | Obj fs => Obj (prop_set (toKey k) v fs)
  end.

(** [delete n[k]] *)
Definition deleteProp (n : Node) (k : Key) : Node :=
  match n with
  | Scalar _ => n
  | Arr xs named =>
      match asIndex k with
      | Some i => Arr (slot_delete i xs) named
      | None => Arr xs (prop_delete (toKey k) named)
      end
  | Obj fs => Obj (prop_delete (toKey k) fs)
  end.

(** [{ ...n }]: the own enumerable properties of a node. *)
Fixpoint indexed {A} (i : nat) (xs : list (option A)) : list (string * A) :=
  match xs with
  | [] => []
  | None :: tl => indexed (S i) tl
  | Some x :: tl => (string_of_index i, x) :: indexed (S i) tl
  end.

Definition spread (n : Node) : list (string * Node) :=
  match n with
  | Scalar _ => []
  | Arr xs named => indexed 0 xs ++ named
  | Obj fs => fs
  end.

(** [{ ...a, ...b }] *)
Definition merge (a b : Node) : Node :=
  Obj (fold_left (fun fs kv => prop_set kv.1 kv.2 fs) (spread b) (spread a)).

(** ** The lodash functions used by the store *)

Module Lodash.

(** [cloneDeep(value)].  Objects are copied property by property; arrays are
    copied slot by slot over [0 .. length-1], which turns a hole into an
    explicit [undefined] and drops non-index properties. *)
Fixpoint cloneDeep (value : Node) : Node :=
  match value with
  | Scalar v => Scalar v
  | Arr xs _ =>
      Arr (map (fun slot =>
                  match slot with
                  | Some x => Some (cloneDeep x)
                  | None => Some (Scalar SUndefined)
                  end) xs) []
  | Obj fs => Obj (map (fun kv => (kv.1, cloneDeep kv.2)) fs)
  end.

(** The container lodash creates for a missing step: an array when the next
    key is an index, a plain object otherwise. *)
Definition fresh_for (next : Key) : Node :=
  if isIndex next then Arr [] [] else Obj [].

(** [set(object, path, value)] ([baseSet]): walk [path], creating missing
    or non-object intermediate containers, and assign at the last key.  A
    non-object [object] and an empty [path] leave [object] as it is. *)
Fixpoint set (object : Node) (path : Path) (value : Node) : Node :=
  match path with
  | [] => object
  | key :: rest =>
      match rest with
      | [] => assign object key value
      | next :: _ =>
          let nested :=
            match get object key with
            | Some objValue => if isObject objValue then objValue else fresh_for next
            | None => fresh_for next
            end in
          assign object key (set nested rest value)
      end
  end.

(** [unset(object, path)] ([baseUnset] of the [lodash.unset] package): find
    the parent of the last key with [baseGet] and [delete] the key there;
    nothing happens when the parent is missing.  With an empty path
    [baseGet] finds no parent, and [object] stays as it is. *)
Fixpoint unset (object : Node) (path : Path) : Node :=
  match path with
  | [] => object
  | key :: rest =>
      match rest with
      | [] => deleteProp object key
      | _ :: _ =>
          match get object key with
          | Some child => assign object key (unset child rest)
          | None => object
          end
      end
  end.

End Lodash.

(** ** Differences *)

(** Modelled from the spec: the type [Difference] of [types.ts], which is
    not among the sources (the Delta of section 3 of the specification): a
    union tagged by [type], with the fields [path], [value] and [oldValue]
    that [Trashly.ts] reads.  The type of the values is a parameter: trees
    here, heap values in module [Heap]. *)
Inductive Difference (V : Type) :=
| CREATE (path : Path) (value : V)
| CHANGE (path : Path) (value : V) (oldValue : V)
| REMOVE (path : Path) (oldValue : V).
Arguments CREATE {V} path value.
Arguments CHANGE {V} path value oldValue.
Arguments REMOVE {V} path oldValue.

Definition path_of {V} (d : Difference V) : Path :=
  match d with
  | CREATE p _ | CHANGE p _ _ | REMOVE p _ => p
  end.

(** [difference.path.unshift(key)] *)
Definition unshift {V} (k : Key) (d : Difference V) : Difference V :=
  match d with
  | CREATE p v => CREATE (k :: p) v
  | CHANGE p v o => CHANGE (k :: p) v o
  | REMOVE p o => REMOVE (k :: p) o
  end.

Abbreviation Patch := (list (Difference Node)).

(** ** The tree differ *)

(** Own enumerable properties of a node with the keys [for .. in] yields:
    numbers for the slots of an array, strings otherwise. *)
Fixpoint slot_entries (i : nat) (xs : list (option Node)) : list (Key * Node) :=
  match xs with
  | [] => []
  | None :: tl => slot_entries (S i) tl
  | Some x :: tl => (KNum i, x) :: slot_entries (S i) tl
  end.

Definition entries (n : Node) : list (Key * Node) :=
  match n with
  | Scalar _ => []
  | Arr xs named => slot_entries 0 xs ++ map (fun kv => (KStr kv.1, kv.2)) named
  | Obj fs => map (fun kv => (KStr kv.1, kv.2)) fs
  end.

(** [a === b] when at least one side is a primitive. *)
Definition same_value (a b : Node) : bool :=
  match a, b with
  | Scalar x, Scalar y => bool_decide (x = y)
  | _, _ => false
  end.

(** Modelled from the spec: the parts of the Tree Differ, leaves first. *)
Module Differ.

(** What the differ emits for key [k], which holds [a] in the before-tree. *)
Definition compare (k : Key) (a : Node) (after : Node)
    (recurse : Node -> Patch) : Patch :=
  match get after k with
  | None => [REMOVE [k] a]
  | Some b =>
      if isObject a && isObject b then map (unshift k) (recurse b)
      else if same_value a b then []
      else [CHANGE [k] b a]
  end.

(** The keys that only the after-tree has. *)
Definition created (before after : Node) : Patch :=
  flat_map (fun kv =>
              match get before kv.1 with
              | None => [CREATE [kv.1] kv.2]
              | Some _ => []
              end) (entries after).

(** The differences below the string keys [fs] of the before-tree, [rec]
    comparing two composite values. *)
Definition over_fields (rec : Node -> Node -> Patch) (after : Node)
    (fs : list (string * Node)) : Patch :=
  flat_map (fun kv => compare (KStr kv.1) kv.2 after (rec kv.2)) fs.

(** The differences below the slots [xs] of a before-array, the first slot
    having index [i]; a hole is not a key. *)
Fixpoint over_slots (rec : Node -> Node -> Patch) (after : Node) (i : nat)
    (xs : list (option Node)) : Patch :=
  match xs with
  | [] => []
  | None :: tl => over_slots rec after (S i) tl
  | Some a :: tl => compare (KNum i) a after (rec a) ++ over_slots rec after (S i) tl
  end.

(** Modelled from the spec: the Tree Differ, [diff(before, after)] of
    [diff.ts], which is not among the sources (section 4.1 of the
    specification).  Both trees are traversed in lock-step.  A key only in
    [before] gives a REMOVE with the old value, a key only in [after] a
    CREATE with the new value; for a key in both, two composite values are
    compared recursively and anything else gives a CHANGE unless the values
    are equal.  Array slots are keys like any other, compared by position.
    The result is depth first: the keys of [before] in enumeration order,
    then the keys that only [after] has.

    The reference-equality short cut of the specification is not visible in
    a tree: two references to one object denote the same tree, for which the
    recursion emits nothing. *)
Fixpoint diff (before after : Node) {struct before} : Patch :=
  match before with
  | Scalar _ => []
  | Arr xs named =>
      over_slots diff after 0 xs ++ over_fields diff after named
      ++ created before after
  | Obj fs => over_fields diff after fs ++ created before after
  end.

End Differ.

(** ** The store *)

(** Forward application of one [Difference], as in the loop of
    [Trashly.applyPatch]. *)
Definition applyItem (next : Node) (item : Difference Node) : Node :=
  match item with
  | CREATE path value => Lodash.set next path value
  | CHANGE path value _ => Lodash.set next path value
  | REMOVE path _ => Lodash.unset next path
  end.

(** Inverse application of one [Difference], as in the loop of
    [Trashly.undo]. *)
Definition undoItem (next : Node) (item : Difference Node) : Node :=
  match item with
  | CREATE path _ => Lodash.unset next path
  | CHANGE path _ oldValue => Lodash.set next path oldValue
  | REMOVE path oldValue => Lodash.set next path oldValue
  end.

(** [history[i]]; [None] is JavaScript's [undefined]. *)
Definition entry_at (history : list Patch) (i : Z) : option Patch :=
  if decide (i < 0) then None else history !! Z.to_nat i.

(** The fields of [class Trashly<T>].  A listener is known by a number;
    [calls] records, for every listener invocation, the listener and the
    state [getState()] returns at that moment. *)
Record Trashly := mkTrashly {
  prev : Node;
  current : Node;
  pointer : Z;
  history : list Patch;
  isPaused : bool;
  didChangeWhilePaused : bool;
  listeners : list nat;
  calls : list (nat * Node);
}.

Definition with_prev (v : Node) (s : Trashly) : Trashly :=
  mkTrashly v (current s) (pointer s) (history s) (isPaused s)
    (didChangeWhilePaused s) (listeners s) (calls s).
Definition with_current (v : Node) (s : Trashly) : Trashly :=
  mkTrashly (prev s) v (pointer s) (history s) (isPaused s)
    (didChangeWhilePaused s) (listeners s) (calls s).
Definition with_pointer (v : Z) (s : Trashly) : Trashly :=
  mkTrashly (prev s) (current s) v (history s) (isPaused s)
    (didChangeWhilePaused s) (listeners s) (calls s).
Definition with_history (v : list Patch) (s : Trashly) : Trashly :=
  mkTrashly (prev s) (current s) (pointer s) v (isPaused s)
    (didChangeWhilePaused s) (listeners s) (calls s).
Definition with_isPaused (v : bool) (s : Trashly) : Trashly :=
  mkTrashly (prev s) (current s) (pointer s) (history s) v
    (didChangeWhilePaused s) (listeners s) (calls s).
Definition with_didChangeWhilePaused (v : bool) (s : Trashly) : Trashly :=
  mkTrashly (prev s) (current s) (pointer s) (history s) (isPaused s)
    v (listeners s) (calls s).
Definition with_listeners (v : list nat) (s : Trashly) : Trashly :=
  mkTrashly (prev s) (current s) (pointer s) (history s) (isPaused s)
    (didChangeWhilePaused s) v (calls s).
Definition with_calls (v : list (nat * Node)) (s : Trashly) : Trashly :=
  mkTrashly (prev s) (current s) (pointer s) (history s) (isPaused s)
    (didChangeWhilePaused s) (listeners s) v.

(** [new Trashly(initial)] *)
Definition new (initial : Node) : Trashly :=
  mkTrashly initial initial (-1) [] false false [] [].

(** [this.history = this.history.splice(0, this.pointer + 1)]: [splice]
    returns the removed prefix, so this keeps the first [pointer + 1]
    entries. *)
Definition splice_history (s : Trashly) : list Patch :=
  take (Z.to_nat (pointer s + 1)) (history s).

Definition processStateBeforeMerging (state : Node) : Node := state.

Definition notifySubscribers (s : Trashly) : Trashly :=
  with_calls (calls s ++ map (fun l => (l, current s)) (listeners s)) s.

Definition subscribe (listener : nat) (s : Trashly) : Trashly :=
  if decide (listener ∈ listeners s) then s
  else with_listeners (listeners s ++ [listener]) s.

Definition unsubscribe (listener : nat) (s : Trashly) : Trashly :=
  with_listeners (filter (fun l => l ≠ listener) (listeners s)) s.

Definition canUndo (s : Trashly) : bool :=
  bool_decide (pointer s >= 0)
  || (bool_decide (pointer s = 0) && isPaused s && didChangeWhilePaused s).

Definition canRedo (s : Trashly) : bool :=
  bool_decide (pointer s < Z.of_nat (length (history s)) - 1).

Definition getState (s : Trashly) : Node := current s.
Definition getIsPaused (s : Trashly) : bool := isPaused s.
Definition getCanUndo (s : Trashly) : bool := canUndo s.
Definition getCanRedo (s : Trashly) : bool := canRedo s.

Definition willChange (s : Trashly) : Trashly :=
  if isPaused s then
    if negb (didChangeWhilePaused s)
    then with_didChangeWhilePaused true (with_prev (current s) s)
    else s
  else with_prev (current s) s.

Definition pause (s : Trashly) : Trashly :=
  notifySubscribers (with_isPaused true s).

Section store.
(** [import { diff } from "./diff"] *)
Variable diff : Node -> Node -> Patch.

(** The commit of [didChange] and [resume]: truncate, push, advance. *)
Definition commit (change : Patch) (s : Trashly) : Trashly :=
  let s := with_history (splice_history s) s in
  let s := with_history (history s ++ [change]) s in
  with_pointer (pointer s + 1) s.

Definition didChange (s : Trashly) : Trashly :=
  notifySubscribers
    (if negb (isPaused s) then commit (diff (prev s) (current s)) s else s).

Definition applyPatch (patch : Patch) (s : Trashly) : Trashly :=
  let next := fold_left applyItem patch (Lodash.cloneDeep (current s)) in
  let s := with_prev (current s) s in
  let s := with_current (processStateBeforeMerging next) s in
  notifySubscribers s.

Definition patch (p : Patch) (s : Trashly) : Trashly :=
  applyPatch p (willChange s).

Definition replaceState (state : Node) (s : Trashly) : Trashly :=
  let s := willChange s in
  let s := with_prev (current s) s in
  let s := with_current (processStateBeforeMerging state) s in
  didChange s.

(** [setState(state)] with a partial object. *)
Definition setState (state : Node) (s : Trashly) : Trashly :=
  let s := willChange s in
  let s := with_current (processStateBeforeMerging (merge (current s) state)) s in
  didChange s.

(** [setState(fn)] with a function that returns the partial. *)
Definition setStateWith (state : Node -> Node) (s : Trashly) : Trashly :=
  let s := willChange s in
  let s :=
    with_current
      (processStateBeforeMerging (merge (current s) (state (current s)))) s in
  didChange s.

(** [mutate(mutator)]: the mutator works on a private deep clone, so its
    effect is a function on trees. *)
Definition mutate (mutator : Node -> Node) (s : Trashly) : Trashly :=
  let next := mutator (Lodash.cloneDeep (current s)) in
  let s := willChange s in
  let s := with_current (processStateBeforeMerging next) s in
  didChange s.

Definition resume (s : Trashly) : Trashly :=
  let s :=
    if didChangeWhilePaused s then
      let change := diff (prev s) (current s) in
      let s := with_prev (current s) s in
      with_didChangeWhilePaused false (commit change s)
    else s in
  notifySubscribers (with_isPaused false s).

(** The block shared by [undo] and [redo] when paused with a pending
    change: the pending change becomes the last history entry. *)
Definition fold_pending (s : Trashly) : Trashly :=
  let s := with_history (splice_history s) s in
  let s := with_history (history s ++ [diff (prev s) (current s)]) s in
  let s := with_pointer (Z.of_nat (length (history s)) - 1) s in
  with_didChangeWhilePaused false s.

(** The state [undo] works on after it has dealt with a pause. *)
Definition unpaused (s : Trashly) : Trashly :=
  if isPaused s then
    with_isPaused false (if didChangeWhilePaused s then fold_pending s else s)
  else s.

(** [undo()].  [None] is the [TypeError] JavaScript raises on
    [patch.length] when [history[pointer]] is [undefined]. *)
Definition undo (s : Trashly) : option Trashly :=
  let s :=
    if isPaused s then
      with_isPaused false (if didChangeWhilePaused s then fold_pending s else s)
    else s in
  if negb (canUndo s) then Some s
  else
    match entry_at (history s) (pointer s) with
    | None => None
    | Some patch =>
        let next := fold_left undoItem patch (Lodash.cloneDeep (current s)) in
        let s := with_pointer (pointer s - 1) s in
        let s := with_prev (current s) s in
        let s := with_current next s in
        Some (notifySubscribers s)
    end.

(** [redo()], with the same reading of [None]. *)
Definition redo (s : Trashly) : option Trashly :=
  if isPaused s && didChangeWhilePaused s then Some (fold_pending s)
  else
    let s := if isPaused s then with_isPaused false s else s in
    if negb (canRedo s) then Some s
    else
      let s := with_pointer (pointer s + 1) s in
      match entry_at (history s) (pointer s) with
      | None => None
      | Some patch => Some (applyPatch patch s)
      end.

(** The public operations of the store, as data. *)
Inductive Op :=
| Mutate (mutator : Node -> Node)
| SetState (state : Node)
| SetStateWith (state : Node -> Node)
| ReplaceState (state : Node)
| ApplyPatch (p : Patch)
| Pause
| Resume
| Undo
| Redo.

Definition step (o : Op) (s : Trashly) : option Trashly :=
  match o with
  | Mutate m => Some (mutate m s)
  | SetState p => Some (setState p s)
  | SetStateWith f => Some (setStateWith f s)
  | ReplaceState n => Some (replaceState n s)
  | ApplyPatch p => Some (patch p s)
  | Pause => Some (pause s)
  | Resume => Some (resume s)
  | Undo => undo s
  | Redo => redo s
  end.

(** A sequence of calls, first call first. *)
Fixpoint run (ops : list Op) (s : Trashly) : option Trashly :=
  match ops with
  | [] => Some s
  | o :: ops => match step o s with Some s' => run ops s' | None => None end
  end.

(** The states a store can be in: those a sequence of public calls reaches
    from [new initial]. *)
Definition reachable (s : Trashly) : Prop :=
  exists initial ops, run ops (new initial) = Some s.
End store.

(** ** The heap layer *)

(** Objects at locations.  This layer follows the code that writes into
    objects in place ([applyPatch], [LiquorStore.mutate]) and makes
    reference identity observable: two values are the same reference when
    they are the same [Ref l]. *)
Module Heap.

Abbreviation loc := nat.

(** A JavaScript value: a primitive, a reference to an object, or the unique
    symbol [REMOVE_SYMBOL = Symbol("remove")] of [applyPatch.ts]. *)
Inductive val :=
| Prim (v : scalar)
| Ref (l : loc)
| RemoveSymbol.

#[global] Instance val_eq_dec : EqDecision val.
Proof. solve_decision. Defined.

Definition undefined : val := Prim SUndefined.

(** An object: an array (slots with holes, plus non-index properties) or a
    plain object. *)
Inductive object :=
| OArr (xs : list (option val)) (named : props val)
| OObj (fs : props val).

Abbreviation heap := (list object).

Definition obj_get (o : object) (k : Key) : option val :=
  match o with
  | OArr xs named =>
      match asIndex k with
      | Some i => slot_get i xs
      | None => prop_get (toKey k) named
      end
  | OObj fs => prop_get (toKey k) fs
  end.

Definition obj_set (o : object) (k : Key) (v : val) : object :=
  match o with
  | OArr xs named =>
      match asIndex k with
      | Some i => OArr (slot_set i v xs) named
      | None => OArr xs (prop_set (toKey k) v named)
      end
  | OObj fs => OObj (prop_set (toKey k) v fs)
  end.

Definition obj_delete (o : object) (k : Key) : object :=
  match o with
  | OArr xs named =>
      match asIndex k with
      | Some i => OArr (slot_delete i xs) named
      | None => OArr xs (prop_delete (toKey k) named)
      end
  | OObj fs => OObj (prop_delete (toKey k) fs)
  end.

(** Own enumerable properties, as [{ ...o }] and [Object.assign] see them. *)
Definition own (o : object) : props val :=
  match o with
  | OArr xs named => indexed 0 xs ++ named
  | OObj fs => fs
  end.

(** Own enumerable properties with the keys [for .. in] yields. *)
Fixpoint slot_entries (i : nat) (xs : list (option val)) : list (Key * val) :=
  match xs with
  | [] => []
  | None :: tl => slot_entries (S i) tl
  | Some x :: tl => (KNum i, x) :: slot_entries (S i) tl
  end.

Definition entries (o : object) : list (Key * val) :=
  match o with
  | OArr xs named => slot_entries 0 xs ++ map (fun kv => (KStr kv.1, kv.2)) named
  | OObj fs => map (fun kv => (KStr kv.1, kv.2)) fs
  end.

Definition alloc (h : heap) (o : object) : val * heap :=
  (Ref (length h), h ++ [o]).

(** A string primitive has a property for each of its code units, named by
    the index and holding the one-unit string, and its [length]. *)
Definition unit_string (c : Ascii.ascii) : val := Prim (SStr (String c EmptyString)).

Fixpoint units (i : nat) (s : string) : props val :=
  match s with
  | EmptyString => []
  | String c tl => (string_of_index i, unit_string c) :: units (S i) tl
  end.

Definition str_get (s : string) (k : Key) : option val :=
  match asIndex k with
  | Some i => unit_string <$> String.get i s
  | None =>
      if decide (toKey k = "length") then Some (Prim (SNum (Z.of_nat (String.length s))))
      else None
  end.

(** The operations below return [None] where JavaScript raises a
    [TypeError].  The code is an ES module, hence strict: writing a property
    of a primitive raises, and so does deleting a code unit or the [length]
    of a string. *)

(** [t[k]] *)
Definition read (h : heap) (t : val) (k : Key) : option val :=
  match t with
  | Ref l => o ← h !! l; Some (default undefined (obj_get o k))
  | Prim SUndefined | Prim SNull => None
  | Prim (SStr s) => Some (default undefined (str_get s k))
  | Prim _ | RemoveSymbol => Some undefined
  end.

(** [t[k] = v] *)
Definition write (h : heap) (t : val) (k : Key) (v : val) : option heap :=
  match t with
  | Ref l => o ← h !! l; Some (<[l := obj_set o k v]> h)
  | _ => None
  end.

(** [delete t[k]] *)
Definition delete (h : heap) (t : val) (k : Key) : option heap :=
  match t with
  | Ref l => o ← h !! l; Some (<[l := obj_delete o k]> h)
  | Prim SUndefined | Prim SNull => None
  | Prim (SStr s) => match str_get s k with Some _ => None | None => Some h end
  | Prim _ | RemoveSymbol => Some h
  end.

(** [Array.isArray(t)] *)
Definition isArray (h : heap) (t : val) : bool :=
  match t with
  | Ref l => match h !! l with Some (OArr _ _) => true | _ => false end
  | _ => false
  end.

Definition isObjectVal (t : val) : bool :=
  match t with
  | Ref _ => true
  | _ => false
  end.

(** The own enumerable properties [{ ...t }] copies: the code units of a
    string, none for another primitive. *)
Definition own_of (h : heap) (t : val) : props val :=
  match t with
  | Ref l => match h !! l with Some o => own o | None => [] end
  | Prim (SStr s) => units 0 s
  | _ => []
  end.

(** [Object.assign({}, source)]: a new plain object, also when [source] is
    an array. *)
Definition assign_to_empty (h : heap) (source : val) : val * heap :=
  alloc h (OObj (own_of h source)).

(** [{ ...a, ...b }] *)
Definition spread_merge (h : heap) (a b : val) : val * heap :=
  alloc h (OObj (fold_left (fun fs kv => prop_set kv.1 kv.2 fs) (own_of h b) (own_of h a))).

(** [xs.filter(x => x !== REMOVE_SYMBOL)]: holes are skipped, so the result
    has none. *)
Definition without_tombstones (xs : list (option val)) : list (option val) :=
  map Some (filter (fun x => x ≠ RemoveSymbol) (omap id xs)).

(** What [path[path.length - 1]] denotes as a property key; on an empty path
    it is [undefined], the property named "undefined". *)
Definition lastKey (path : Path) : Key := default (KStr "undefined") (last path).

(** The [for] loop of [applyPatch] over all steps but the last: an object on
    the way is replaced by a copy unless its step is already in [refs]. *)
Fixpoint walk (h : heap) (refs : list Key) (t : val) (steps : list Key)
    : option (heap * list Key * val) :=
  match steps with
  | [] => Some (h, refs, t)
  | step :: rest =>
      '(h, refs) ←
        (if decide (step ∈ refs) then Some (h, refs)
         else
           old ← read h t step;
           let '(copy, h) := assign_to_empty h old in
           h ← write h t step copy;
           Some (h, step :: refs));
      t ← read h t step;
      walk h refs t rest
  end.

(** The state of the [forEach] over a patch: the heap, the set [refs] and
    [delQueue], each queued closure being its captured [t] and
    [secondToLastKey] ([None] when that variable is [undefined]). *)
Definition applier : Type := heap * list Key * list (val * option Key).

Definition applyItem (next : val) (st : applier) (item : Difference val)
    : option applier :=
  let '(h, refs, delQueue) := st in
  let path := path_of item in
  '(h, refs, t) ← walk h refs next (removelast path);
  match item with
  | CREATE _ value | CHANGE _ value _ =>
      h ← write h t (lastKey path) value; Some (h, refs, delQueue)
  | REMOVE _ _ =>
      if isArray h t then
        h ← write h t (lastKey path) RemoveSymbol;
        Some (h, refs, delQueue ++ [(t, last path)])
      else
        h ← delete h t (lastKey path); Some (h, refs, delQueue)
  end.

(** One closure of [delQueue].  [t[key].filter] is a function only when
    [t[key]] is an array. *)
Definition runDeletion (h : heap) (d : val * option Key) : option heap :=
  match d.2 with
  | Some key =>
      v ← read h d.1 key;
      match v with
      | Ref l =>
          match h !! l with
          | Some (OArr xs _) =>
              let '(filtered, h) := alloc h (OArr (without_tombstones xs) []) in
              write h d.1 key filtered
          | _ => None
          end
      | _ => None
      end
  | None =>
      match d.1 with
      | Ref l =>
          match h !! l with
          | Some (OArr xs _) => Some (alloc h (OArr (without_tombstones xs) [])).2
          | _ => None
          end
      | _ => None
      end
  end.

Fixpoint foldM {A B} (f : A -> B -> option A) (a : A) (bs : list B) : option A :=
  match bs with
  | [] => Some a
  | b :: bs => a ← f a b; foldM f a bs
  end.

(** [applyPatch(target, patch)] of [applyPatch.ts]. *)
Definition applyPatch (h : heap) (target : val) (patch : list (Difference val))
    : option (val * heap) :=
  let '(next, h) :=
    if isArray h target then
      alloc h (match target with
               | Ref l => match h !! l with
                          | Some (OArr xs _) => OArr xs []
                          | _ => OArr [] []
                          end
               | _ => OArr [] []
               end)
    else assign_to_empty h target in
  '(h, _, delQueue) ← foldM (applyItem next) (h, [], []) patch;
  h ← foldM runDeletion h delQueue;
  Some (next, h).

(** [cloneDeep(value)] of lodash on the heap.  [seen] maps the objects
    cloned so far to their clones, so shared and cyclic structure is
    preserved; each recursive call that consumes fuel clones an object not
    yet in [seen]. *)
Fixpoint cloneDeep_go (fuel : nat) (seen : list (loc * loc)) (h : heap) (v : val)
    : option (val * heap * list (loc * loc)) :=
  match v with
  | Ref l =>
      match list_find (fun p => p.1 = l) seen with
      | Some (_, (_, l')) => Some (Ref l', h, seen)
      | None =>
          match fuel with
          | O => None
          | S fuel =>
              o ← h !! l;
              let seen := (l, length h) :: seen in
              let '(result, h) :=
                alloc h (match o with
                         | OArr xs _ => OArr (replicate (length xs) None) []
                         | OObj _ => OObj []
                         end) in
              let props :=
                match o with
                | OArr xs _ =>
                    imap (fun i slot => (KNum i, default undefined slot)) xs
                | OObj fs => map (fun kv => (KStr kv.1, kv.2)) fs
                end in
              '(h, seen) ←
                foldM (fun st kv =>
                         '(c, h, seen) ← cloneDeep_go fuel st.2 st.1 kv.2;
                         h ← write h result kv.1 c;
                         Some (h, seen)) (h, seen) props;
              Some (result, h, seen)
          end
      end
  | _ => Some (v, h, seen)
  end.

Definition cloneDeep (h : heap) (v : val) : option (val * heap) :=
  '(c, h, _) ← cloneDeep_go (length h) [] h v; Some (c, h).

(** Modelled from the spec: the Tree Differ [diff(before, after)] of
    [diff.ts], not among the sources, on heap values (section 4.1 of the
    specification).  As [Differ.diff], with the reference-equality short
    cut: values that are the same primitive or the same reference emit
    nothing and are not entered.  [None] when the fuel does not cover the
    depth of the trees. *)
Fixpoint diff (fuel : nat) (h : heap) (before after : val)
    : option (list (Difference val)) :=
  match fuel with
  | O => None
  | S fuel =>
      let props_of t :=
        match t with
        | Ref l => match h !! l with Some o => Some o | None => None end
        | _ => None
        end in
      match props_of before with
      | None => Some []
      | Some ob =>
          let has_after k := oa ← props_of after; obj_get oa k in
          removed ←
            foldM (fun acc kv =>
                     match has_after kv.1 with
                     | None => Some (acc ++ [REMOVE [kv.1] kv.2])
                     | Some b =>
                         if decide (kv.2 = b) then Some acc
                         else if isObjectVal kv.2 && isObjectVal b then
                           ds ← diff fuel h kv.2 b;
                           Some (acc ++ map (unshift kv.1) ds)
                         else Some (acc ++ [CHANGE [kv.1] b kv.2])
                     end) [] (entries ob);
          let created :=
            flat_map (fun kv =>
                        match obj_get ob kv.1 with
                        | None => [CREATE [kv.1] kv.2]
                        | Some _ => []
                        end)
              (match props_of after with Some oa => entries oa | None => [] end) in
          Some (removed ++ created)
      end
  end.

(** Reading a path: [t[k1][k2]...]. *)
Fixpoint readPath (h : heap) (t : val) (path : Path) : option val :=
  match path with
  | [] => Some t
  | k :: rest => v ← read h t k; readPath h v rest
  end.

(** A mutator that assigns one property: [s => { s[k1]...[kn] = v }]. *)
Definition assignAt (path : Path) (v : val) (draft : val) (h : heap) : option heap :=
  t ← readPath h draft (removelast path);
  write h t (lastKey path) v.

(** Storing a tree in the heap, children first. *)
Fixpoint store (n : Node) (h : heap) : val * heap :=
  match n with
  | Scalar v => (Prim v, h)
  | Arr xs named =>
      let '(slots, h) :=
        (fix go (xs : list (option Node)) (h : heap) : list (option val) * heap :=
           match xs with
           | [] => ([], h)
           | None :: tl => let '(r, h) := go tl h in (None :: r, h)
           | Some x :: tl =>
               let '(v, h) := store x h in
               let '(r, h) := go tl h in (Some v :: r, h)
           end) xs h in
      let '(ps, h) :=
        (fix go (fs : list (string * Node)) (h : heap) : props val * heap :=
           match fs with
           | [] => ([], h)
           | (k, x) :: tl =>
               let '(v, h) := store x h in
               let '(r, h) := go tl h in ((k, v) :: r, h)
           end) named h in
      alloc h (OArr slots ps)
  | Obj fs =>
      let '(ps, h) :=
        (fix go (fs : list (string * Node)) (h : heap) : props val * heap :=
           match fs with
           | [] => ([], h)
           | (k, x) :: tl =>
               let '(v, h) := store x h in
               let '(r, h) := go tl h in ((k, v) :: r, h)
           end) fs h in
      alloc h (OObj ps)
  end.

(** The tree a value denotes, if it is one: [None] on a dangling reference,
    on [REMOVE_SYMBOL], or when the fuel does not cover the depth. *)
Fixpoint reify (fuel : nat) (h : heap) (v : val) : option Node :=
  match v with
  | Prim s => Some (Scalar s)
  | RemoveSymbol => None
  | Ref l =>
      match fuel with
      | O => None
      | S fuel =>
          o ← h !! l;
          let fields (fs : props val) :=
            mapM (fun kv => n ← reify fuel h kv.2; Some (kv.1, n)) fs in
          match o with
          | OArr xs named =>
              slots ← mapM (fun slot =>
                              match slot with
                              | None => Some None
                              | Some x => n ← reify fuel h x; Some (Some n)
                              end) xs;
              ps ← fields named;
              Some (Arr slots ps)
          | OObj fs => ps ← fields fs; Some (Obj ps)
          end
      end
  end.

(** The values an object holds. *)
Definition values (o : object) : list val :=
  match o with
  | OArr xs named => omap id xs ++ named.*2
  | OObj fs => fs.*2
  end.

Definition ref_below (bound : nat) (v : val) : bool :=
  match v with
  | Ref l => bool_decide (l < bound)%nat
  | _ => true
  end.

(** A heap without dangling references. *)
Definition closed (h : heap) : bool :=
  forallb (fun o => forallb (ref_below (length h)) (values o)) h.

Definition values_of {V} (d : Difference V) : list V :=
  match d with
  | CREATE _ v => [v]
  | CHANGE _ v o => [v; o]
  | REMOVE _ o => [o]
  end.

(** A patch whose values live in [h]. *)
Definition patch_closed (h : heap) (patch : list (Difference val)) : bool :=
  forallb (fun d => forallb (ref_below (length h)) (values_of d)) patch.

(** A patch that touches only what lies at or below [path]. *)
Definition below (path : Path) (patch : list (Difference val)) : Prop :=
  Forall (fun d => exists rest, path_of d = path ++ rest) patch.

(** [v] is not a reference to [n0] or [n1]. *)
Definition off_spine (n0 n1 : loc) (v : val) : Prop := v ≠ Ref n0 /\ v ≠ Ref n1.

(** While [applyPatch] works on paths below [a]: [n0] is the copy of the
    root, its property [a] is the copy [n1] of the old [a], which still
    holds [vd] under [d]; no object refers to [n0], and only [n0] refers to
    [n1]. *)
Definition spine (n0 n1 : loc) (a d : Key) (vd : val) (h : heap) : Prop :=
  n0 ≠ n1
  /\ (exists f0, h !! n0 = Some (OObj f0) /\ prop_get (toKey a) f0 = Some (Ref n1))
  /\ (exists f1, h !! n1 = Some (OObj f1) /\ prop_get (toKey d) f1 = Some vd)
  /\ (forall l o x, h !! l = Some o -> Ref x ∈ values o ->
                    x ≠ n0 /\ (x = n1 -> l = n0)).

(** *** The stores on the heap *)

(** The fields of [LiquorStore] (and of [Trashly]), holding references.  As
    in the tree layer, [calls] records the listener invocations. *)
Record Store := mkStore {
  prev : val;
  current : val;
  pointer : Z;
  history : list (list (Difference val));
  isPaused : bool;
  didChangeWhilePaused : bool;
  listeners : list nat;
  calls : list (nat * val);
}.

Definition new (initial : val) : Store :=
  mkStore initial initial (-1) [] false false [] [].

Definition notifySubscribers (s : Store) : Store :=
  mkStore (prev s) (current s) (pointer s) (history s) (isPaused s)
    (didChangeWhilePaused s) (listeners s)
    (calls s ++ map (fun l => (l, current s)) (listeners s)).

(** A mutator receives the draft and may write to the heap. *)
Definition Mutator : Type := val -> heap -> option heap.

Module LiquorStore.

(** [LiquorStore.mutate(mutator)]: clone, mutate the clone, diff against
    [current], and build the next state from [current] with [applyPatch].
    [None] when any step raises. *)
Definition mutate (mutator : Mutator) (h : heap) (s : Store)
    : option (heap * Store) :=
  '(draft, h) ← cloneDeep h (current s);
  h ← mutator draft h;
  patch ← diff (length h) h (current s) draft;
  '(next, h) ← applyPatch h (current s) patch;
  let s :=
    if isPaused s && negb (didChangeWhilePaused s)
    then mkStore (prev s) (current s) (pointer s) (history s) (isPaused s)
           true (listeners s) (calls s)
    else s in
  let s := mkStore (current s) next (pointer s) (history s) (isPaused s)
             (didChangeWhilePaused s) (listeners s) (calls s) in
  let s :=
    if negb (isPaused s)
    then mkStore (prev s) (current s) (pointer s + 1)
           (take (Z.to_nat (pointer s + 1)) (history s) ++ [patch])
           (isPaused s) (didChangeWhilePaused s) (listeners s) (calls s)
    else s in
  Some (h, notifySubscribers s).

End LiquorStore.

Module TrashlyCore.

(** [willChange], [didChange] and [mutate] of [Trashly.ts] on the heap.  The
    mutated deep clone itself becomes [current]. *)
Definition willChange (s : Store) : Store :=
  if isPaused s then
    if negb (didChangeWhilePaused s)
    then mkStore (current s) (current s) (pointer s) (history s) (isPaused s)
           true (listeners s) (calls s)
    else s
  else mkStore (current s) (current s) (pointer s) (history s) (isPaused s)
         (didChangeWhilePaused s) (listeners s) (calls s).

Definition didChange (h : heap) (s : Store) : option Store :=
  if negb (isPaused s) then
    change ← diff (length h) h (prev s) (current s);
    Some (notifySubscribers
            (mkStore (prev s) (current s) (pointer s + 1)
               (take (Z.to_nat (pointer s + 1)) (history s) ++ [change])
               (isPaused s) (didChangeWhilePaused s) (listeners s) (calls s)))
  else Some (notifySubscribers s).

Definition mutate (mutator : Mutator) (h : heap) (s : Store)
    : option (heap * Store) :=
  '(next, h) ← cloneDeep h (current s);
  h ← mutator next h;
  let s := willChange s in
  let s := mkStore (prev s) next (pointer s) (history s) (isPaused s)
             (didChangeWhilePaused s) (listeners s) (calls s) in
  s ← didChange h s;
  Some (h, s).

End TrashlyCore.

End Heap.

(** ** Shapes of snapshots *)

(** The number of nodes of a tree. *)
Fixpoint size (n : Node) : nat :=
  match n with
  | Scalar _ => 1
  | Arr xs named =>
      S (sum_list (map (fun slot => match slot with
                                    | Some x => size x
                                    | None => O
                                    end) xs)
         + sum_list (map (fun kv => size kv.2) named))
  | Obj fs => S (sum_list (map (fun kv => size kv.2) fs))
  end.

(** A snapshot in the sense of the specification: objects with distinct
    keys, arrays without holes and without properties of their own. *)
Fixpoint plain (n : Node) : bool :=
  match n with
  | Scalar _ => true
  | Arr xs named =>
      match named with [] => true | _ => false end
      && forallb (fun slot => match slot with
                              | Some x => plain x
                              | None => false
                              end) xs
  | Obj fs => bool_decide (NoDup fs.*1) && forallb (fun kv => plain kv.2) fs
  end.

(** [keeps_shape before after]: wherever both trees hold a composite value
    at the same path, the two are of the same kind, and an array of [after]
    is not longer than the array of [before]. *)
Fixpoint keeps_shape (before after : Node) {struct before} : bool :=
  match before, after with
  | Obj fs, Obj gs =>
      forallb (fun kv =>
                 match prop_get kv.1 gs with
                 | Some b => if isObject kv.2 && isObject b
                             then keeps_shape kv.2 b else true
                 | None => true
                 end) fs
  | Arr xs _, Arr ys _ =>
      bool_decide (length ys <= length xs)%nat
      && (fix slots (i : nat) (xs : list (option Node)) : bool :=
            match xs with
            | [] => true
            | slot :: tl =>
                match slot, ys !! i with
                | Some a, Some (Some b) =>
                    if isObject a && isObject b then keeps_shape a b else true
                | _, _ => true
                end && slots (S i) tl
            end) O xs
  | _, _ => false
  end.

(** Structural equality of snapshots: the same scalar, arrays equal slot by
    slot, objects equal as maps from keys to values (the order of the keys
    does not matter). *)
#[warnings="-register-all"]
Inductive Node_equiv : Node -> Node -> Prop :=
| equiv_scalar v : Node_equiv (Scalar v) (Scalar v)
| equiv_arr xs ys ns ms :
    Forall2 (option_Forall2 Node_equiv) xs ys ->
    (forall k, option_Forall2 Node_equiv (prop_get k ns) (prop_get k ms)) ->
    Node_equiv (Arr xs ns) (Arr ys ms)
| equiv_obj fs gs :
    (forall k, option_Forall2 Node_equiv (prop_get k fs) (prop_get k gs)) ->
    Node_equiv (Obj fs) (Obj gs).

(** ** Notions used in the statements *)

(** The invariant of the ledger: the pointer is [-1] or indexes [history]. *)
Definition pointer_ok (s : Trashly) : Prop :=
  -1 <= pointer s <= Z.of_nat (length (history s)) - 1.

(** Every listener subscribed to [s] has been called once more in [s'], and
    each call saw the state that [s'] publishes. *)
Definition notified (s s' : Trashly) : Prop :=
  calls s' = calls s ++ map (fun l => (l, current s')) (listeners s).

(** Paused with a change that is not yet in the history. *)
Definition pending (s : Trashly) : bool := isPaused s && didChangeWhilePaused s.

(** ** Stores and mutators of the examples *)

Definition num (n : Z) : Node := Scalar (SNum n).
Definition str (s : string) : Node := Scalar (SStr s).

(** [new Trashly({ v: 0 })] and the mutator [x => { x.v = n }]. *)
Definition counter : Node := Obj [("v", num 0)].
Definition set_v (n : Z) (x : Node) : Node := Lodash.set x [KStr "v"] (num n).

(** [new Trashly({ a: [1] })] and the mutator [x => { x.a.push(2) }]. *)
Definition one_item : Node := Obj [("a", Arr [Some (num 1)] [])].
Definition push_2 (x : Node) : Node :=
  match get x (KStr "a") with
  | Some (Arr xs named) =>
      Lodash.set x [KStr "a"; KNum (length xs)] (num 2)
  | _ => x
  end.

(** [new Trashly({ name: "Steve", age: 36 })], the store of the test suite. *)
Definition steve : Node := Obj [("name", str "Steve"); ("age", num 36)].

(** The five-element array of the array-removal scenario and the patch
    that removes its second and fourth element. *)
Definition five : Node :=
  Arr [Some (str "a"); Some (str "b"); Some (str "c"); Some (str "d");
       Some (str "e")] [].
Definition remove_b_d : Patch :=
  [REMOVE [KStr "arr"; KNum 1] (str "b"); REMOVE [KStr "arr"; KNum 3] (str "d")].
Definition remove_b_d_refs : list (Difference Heap.val) :=
  [REMOVE [KStr "arr"; KNum 1] (Heap.Prim (SStr "b"));
   REMOVE [KStr "arr"; KNum 3] (Heap.Prim (SStr "d"))].
Definition remove_b_d_root : list (Difference Heap.val) :=
  [REMOVE [KNum 1] (Heap.Prim (SStr "b")); REMOVE [KNum 3] (Heap.Prim (SStr "d"))].

(** [{ a: { b: { c: 1 }, d: { e: 2 } } }] on the empty heap, and the
    mutator [s => { s.a.b.c = 5 }]. *)
Definition nested : Heap.val * Heap.heap :=
  Heap.store
    (Obj [("a", Obj [("b", Obj [("c", num 1)]); ("d", Obj [("e", num 2)])])]) [].
Definition set_abc : Heap.Mutator :=
  Heap.assignAt [KStr "a"; KStr "b"; KStr "c"] (Heap.Prim (SNum 5)).

(** [store.setState({ name, age })] of the test suite. *)
Definition set_name_age (name : string) (age : Z) : Op :=
  SetState (Obj [("name", str name); ("age", num age)]).
Definition set_age (age : Z) : Op := SetState (Obj [("age", num age)]).
Definition person (name : string) (age : Z) : Node :=
  Obj [("name", str name); ("age", num age)].

(** ** Further notions used in the statements *)

(** As in the layers above, a property name is an ordinary key: the names
    to which JavaScript gives a meaning of their own ([length] on an array,
    [__proto__]) are outside the model. *)

(** The states a listener has been called with, oldest call first. *)
Definition calls_of (l : nat) (s : Trashly) : list Node :=
  (filter (fun c => c.1 = l) (calls s)).*2.

(** [didChangeWhilePaused] is set only during a pause. *)
Definition flags_ok (s : Trashly) : Prop :=
  didChangeWhilePaused s = true -> isPaused s = true.

(** The value at a path, [n[k1][k2]...]; [None] when a step is missing. *)
Fixpoint getPath (n : Node) (path : Path) : option Node :=
  match path with
  | [] => Some n
  | k :: rest =>
      match get n k with
      | Some child => getPath child rest
      | None => None
      end
  end.

(** A difference that describes the tree [n]: a CHANGE or REMOVE names a
    path that holds its [oldValue]; a CREATE names a key that a plain object
    of [n] lacks. *)
Definition describes (n : Node) (d : Difference Node) : Prop :=
  match d with
  | CHANGE path _ oldValue | REMOVE path oldValue =>
      path ≠ [] /\ getPath n path = Some oldValue
  | CREATE path _ =>
      exists parent key fs,
        path = parent ++ [key]
        /\ getPath n parent = Some (Obj fs)
        /\ prop_get (toKey key) fs = None
  end.

(** ** The store of the example application *)

(** [class CustomStore extends Trashly<IStore>] of the example that drives
    the store through [mutate]: a pointer gesture pauses the history when it
    starts and resumes it when it ends. *)
Module CustomStore.

(** Whether a property value is truthy; [None] is [undefined]. *)
Definition truthy (v : option Node) : bool :=
  match v with
  | None => false
  | Some (Scalar SUndefined) | Some (Scalar SNull) => false
  | Some (Scalar (SBool b)) => b
  | Some (Scalar (SNum n)) => negb (bool_decide (n = 0))
  | Some (Scalar (SStr s)) => negb (bool_decide (s = EmptyString))
  | Some _ => true
  end.

(** [v === "pointing"] *)
Definition isPointing (v : option Node) : bool :=
  match v with
  | Some (Scalar (SStr status)) => bool_decide (status = "pointing")
  | _ => false
  end.

(** [s => { s.selectedId = id; s.status = "pointing" }] *)
Definition select (id : string) (s : Node) : Node :=
  assign (assign s (KStr "selectedId") (str id)) (KStr "status") (str "pointing").

(** [s => { s.status = "idle"; s.selectedId = null }] *)
Definition deselect (s : Node) : Node :=
  assign (assign s (KStr "status") (str "idle")) (KStr "selectedId") (Scalar SNull).






Section events.
Variable diff : Node -> Node -> Patch.

Definition startPointingNode (id : string) (s : Trashly) : Trashly :=
  mutate diff (select id) (pause s).

(** [movePointingNode(dx, dy, shiftKey)].  The two mutators, which add [dx]
    and [dy] to the coordinates of all nodes or of the selected one, are
    parameters: [moveAll] and [moveOne]. *)
Definition movePointingNode (moveAll moveOne : Node -> Node) (shiftKey : bool)
    (s : Trashly) : Trashly :=
  if isPointing (get (current s) (KStr "status"))
     && truthy (get (current s) (KStr "selectedId"))
  then if shiftKey then mutate diff moveAll s else mutate diff moveOne s
  else s.

Definition stopPointingNode (s : Trashly) : Trashly :=
  resume diff (mutate diff deselect s).

Definition stopPointingCanvas (s : Trashly) : Trashly :=
  resume diff (mutate diff deselect s).


(** The [movePointingNode] calls of a drag, each with its arguments. *)
Definition drag (moves : list ((Node -> Node) * (Node -> Node) * bool))
    (s : Trashly) : Trashly :=
  fold_left (fun s mv => movePointingNode mv.1.1 mv.1.2 mv.2 s) moves s.
End events.

End CustomStore.

(** A mutator works inside the draft it is given: the draft stays an object. *)
Definition keeps_object (m : Node -> Node) : Prop :=
  forall n, isObject n = true -> isObject (m n) = true.

(** ** Notions for [applyPatch] on the heap *)

Module Copies.
Import Heap.

(** What a difference does, at its last key, to the properties of a plain
    object. *)
Definition apply_last (fs : props val) (d : Difference val) : props val :=
  match d with
  | CREATE path value | CHANGE path value _ =>
      prop_set (toKey (lastKey path)) value fs
  | REMOVE path _ => prop_delete (toKey (lastKey path)) fs
  end.

(** What the inverse of a difference does, at its last key, to the
    properties of a plain object. *)
Definition undo_last (fs : props val) (d : Difference val) : props val :=
  match d with
  | CREATE path _ => prop_delete (toKey (lastKey path)) fs
  | CHANGE path _ oldValue | REMOVE path oldValue =>
      prop_set (toKey (lastKey path)) oldValue fs
  end.

(** The value [Object.assign({}, v)[k]]: the property [k] of [v], or
    [undefined]. *)
Definition child (h : heap) (v : val) (k : Key) : val :=
  default undefined (prop_get (toKey k) (own_of h v)).

(** The value of [h] that the steps [ks] lead to from [v]. *)
Fixpoint deep (h : heap) (v : val) (ks : list Key) : val :=
  match ks with
  | [] => v
  | k :: ks => deep h (child h v k) ks
  end.

(** The copies made along the steps [ks] from [v], the first of them at
    location [base]: each is a plain object with the properties of the
    original, except that the next step leads to the next copy. *)
Fixpoint chain (h : heap) (v : val) (ks : list Key) (base : nat) : list object :=
  match ks with
  | [] => []
  | k :: ks =>
      OObj (prop_set (toKey k) (Ref (S base)) (own_of h v))
      :: chain h (child h v k) ks (S base)
  end.

End Copies.

(** ** [LiquorStore.runCommand] *)

Module Liquor.
Import Heap.

Section commands.
(** [import { diff } from "./diff"], on the heap as it is at the call. *)
Variable diff : heap -> val -> val -> list (Difference val).

Definition willChange (s : Store) : Store :=
  if isPaused s then
    if negb (didChangeWhilePaused s)
    then mkStore (current s) (current s) (pointer s) (history s) (isPaused s)
           true (listeners s) (calls s)
    else s
  else mkStore (current s) (current s) (pointer s) (history s) (isPaused s)
         (didChangeWhilePaused s) (listeners s) (calls s).

Definition didChange (h : heap) (s : Store) : Store :=
  notifySubscribers
    (if negb (isPaused s) then
       let change := diff h (prev s) (current s) in
       mkStore (prev s) (current s) (pointer s + 1)
         (take (Z.to_nat (pointer s + 1)) (history s) ++ [change])
         (isPaused s) (didChangeWhilePaused s) (listeners s) (calls s)
     else s).

(** [runCommand(fn)]: [fn] receives a shallow copy of the current state and
    writes into it.  [None] when [fn] raises. *)
Definition runCommand (fn : Mutator) (h : heap) (s : Store)
    : option (heap * Store) :=
  let s := willChange s in
  let '(tNext, h) := assign_to_empty h (current s) in
  h ← fn tNext h;
  let s := mkStore (prev s) tNext (pointer s) (history s) (isPaused s)
             (didChangeWhilePaused s) (listeners s) (calls s) in
  Some (h, didChange h s).
End commands.

(** The command [state => { state[a][x] = v }], which writes through the
    reference it finds under [a]. *)
Definition writeThrough (a x : Key) (v : val) : Mutator :=
  fun state h => t ← read h state a; write h t x v.

(** The command [state => { state[a] = { ...state[a] }; state[a][x] = v }],
    which makes a new reference for the object it changes. *)
Definition writeFresh (a x : Key) (v : val) : Mutator :=
  fun state h =>
    old ← read h state a;
    let '(copy, h) := assign_to_empty h old in
    h ← write h state a copy;
    t ← read h state a;
    write h t x v.

End Liquor.

(** ** [CustomStore.applyPatch] and [CustomStore.undo], in place *)

(** The [applyPatch] and [undo] of the example store that override the
    ones of [Trashly]: they work on a shallow copy of the current state and
    copy the objects on the way, as [applyPatch.ts] does. *)
Module InPlace.
Import Heap.

Definition canUndo (s : Store) : bool :=
  bool_decide (pointer s >= 0)
  || (bool_decide (pointer s = 0) && isPaused s && didChangeWhilePaused s).

(** The body of [patch.forEach]: nothing happens on an empty path. *)
Definition undoItem (next : val) (st : heap * list Key) (item : Difference val)
    : option (heap * list Key) :=
  let '(h, newRefs) := st in
  match path_of item with
  | [] => Some (h, newRefs)
  | _ :: _ =>
      '(h, newRefs, t) ← walk h newRefs next (removelast (path_of item));
      h ← match item with
          | CREATE _ _ => delete h t (lastKey (path_of item))
          | CHANGE _ _ oldValue | REMOVE _ oldValue =>
              write h t (lastKey (path_of item)) oldValue
          end;
      Some (h, newRefs)
  end.

(** The body of [patch.forEach] in [applyPatch], the method that [redo]
    calls. *)
Definition applyItem (next : val) (st : heap * list Key) (item : Difference val)
    : option (heap * list Key) :=
  let '(h, newRefs) := st in
  '(h, newRefs, t) ← walk h newRefs next (removelast (path_of item));
  h ← match item with
      | CREATE _ value | CHANGE _ value _ =>
          write h t (lastKey (path_of item)) value
      | REMOVE _ _ => delete h t (lastKey (path_of item))
      end;
  Some (h, newRefs).

(** [applyPatch(patch)]: the patch is applied to a shallow copy of the
    current state, which becomes the current state. *)
Definition applyPatch (patch : list (Difference val)) (h : heap) (s : Store)
    : option (heap * Store) :=
  let '(next, h) := assign_to_empty h (current s) in
  '(h, _) ← foldM (applyItem next) (h, []) patch;
  Some (h, notifySubscribers
             (mkStore (current s) next (pointer s) (history s) (isPaused s)
                (didChangeWhilePaused s) (listeners s) (calls s))).

Section methods.
Variable diff : heap -> val -> val -> list (Difference val).

(** [undo()]; [None] when the call raises. *)
Definition undo (h : heap) (s : Store) : option (heap * Store) :=
  let s :=
    if isPaused s && didChangeWhilePaused s then
      let entries :=
        take (Z.to_nat (pointer s + 1)) (history s)
          ++ [diff h (prev s) (current s)] in
      mkStore (prev s) (current s) (Z.of_nat (length entries) - 1) entries
        false false (listeners s) (calls s)
    else s in
  if negb (canUndo s) then Some (h, s)
  else
    match (if decide (pointer s < 0) then None
           else history s !! Z.to_nat (pointer s)) with
    | None => None
    | Some patch =>
        let '(next, h) := assign_to_empty h (current s) in
        '(h, _) ← foldM (undoItem next) (h, []) patch;
        Some (h, notifySubscribers
                   (mkStore (current s) next (pointer s - 1) (history s)
                      (isPaused s) (didChangeWhilePaused s) (listeners s)
                      (calls s)))
    end.
End methods.

End InPlace.

(** The calls that change the state by merging or mutating: [mutate] and
    the two forms of [setState]. *)
Definition is_change (o : Op) : bool :=
  match o with
  | Mutate _ | SetState _ | SetStateWith _ => true
  | _ => false
  end.

(** ** Stores of the examples *)

(** [INITIAL_STATE] of the example application, before any node is added. *)
Definition INITIAL_STATE : Node :=
  Obj [("status", str "idle"); ("selectedId", Scalar SNull); ("nodes", Obj [])].

(** [{ k: { k: { j: 0 } } }] on the empty heap: the innermost object is at
    location 0, the root at location 2. *)
Definition twice : Heap.val * Heap.heap :=
  Heap.store (Obj [("k", Obj [("k", Obj [("j", num 0)])])]) [].

(** * Properties of the store *)

(** ** Property lists *)

Section props_facts.
Context {A : Type}.
Implicit Types (ps : props A) (k : string) (v : A).

Lemma prop_get_set_eq k v ps : prop_get k (prop_set k v ps) = Some v.
Proof.
  induction ps as [|[k' v'] tl IH]; simpl.
  - by rewrite decide_True.
  - destruct (decide (k = k')) as [->|Hne]; simpl.
    + by rewrite decide_True.
    + by rewrite decide_False.
Qed.

Lemma prop_get_set_ne k k' v ps :
  k ≠ k' -> prop_get k (prop_set k' v ps) = prop_get k ps.
Proof.
  intros Hne. induction ps as [|[k0 v0] tl IH]; simpl.
  - by rewrite decide_False.
  - destruct (decide (k' = k0)) as [->|Hne0]; simpl.
    + by rewrite !decide_False.
    + destruct (decide (k = k0)); [done|apply IH].
Qed.

Lemma prop_get_set k k' v ps :
  prop_get k (prop_set k' v ps)
  = if decide (k = k') then Some v else prop_get k ps.
Proof.
  destruct (decide (k = k')) as [->|Hne].
  - apply prop_get_set_eq.
  - by apply prop_get_set_ne.
Qed.

Lemma prop_get_delete_eq k ps : prop_get k (prop_delete k ps) = None.
Proof.
  induction ps as [|[k' v'] tl IH]; simpl; [done|].
  destruct (decide (k = k')) as [->|Hne]; simpl; [done|].
  by rewrite decide_False.
Qed.

Lemma prop_get_delete_ne k k' ps :
  k ≠ k' -> prop_get k (prop_delete k' ps) = prop_get k ps.
Proof.
  intros Hne. induction ps as [|[k0 v0] tl IH]; simpl; [done|].
  destruct (decide (k' = k0)) as [->|Hne0]; simpl.
  - by rewrite decide_False.
  - destruct (decide (k = k0)); [done|apply IH].
Qed.

Lemma prop_get_None k ps : prop_get k ps = None <-> k ∉ ps.*1.
Proof.
  induction ps as [|[k' v'] tl IH]; simpl.
  - split; [intros _; apply not_elem_of_nil|done].
  - rewrite not_elem_of_cons. destruct (decide (k = k')) as [->|Hne].
    + split; [done|]. intros [Hk _]. done.
    + rewrite IH. tauto.
Qed.

Lemma prop_get_Some_In k v ps : prop_get k ps = Some v -> (k, v) ∈ ps.
Proof.
  induction ps as [|[k' v'] tl IH]; simpl; [done|].
  destruct (decide (k = k')) as [->|Hne].
  - intros [= ->]. apply list_elem_of_here.
  - intros H. apply list_elem_of_further. by apply IH.
Qed.

Lemma prop_get_In k v ps : NoDup ps.*1 -> (k, v) ∈ ps -> prop_get k ps = Some v.
Proof.
  induction ps as [|[k' v'] tl IH]; simpl.
  - intros _ H. by apply elem_of_nil in H.
  - rewrite NoDup_cons. intros [Hk Hnd] Hin.
    apply elem_of_cons in Hin as [[= -> ->]|Hin].
    + by rewrite decide_True.
    + destruct (decide (k = k')) as [->|Hne]; [|by apply IH].
      exfalso. apply Hk. change k' with ((k', v).1).
      by apply list_elem_of_fmap_2.
Qed.

Lemma prop_set_keys_present k v ps :
  k ∈ ps.*1 -> (prop_set k v ps).*1 = ps.*1.
Proof.
  induction ps as [|[k' v'] tl IH]; simpl.
  - intros H. by apply elem_of_nil in H.
  - intros Hin. destruct (decide (k = k')) as [->|Hne]; simpl; [done|].
    f_equal. apply IH. apply elem_of_cons in Hin as [?|?]; done.
Qed.

Lemma prop_set_keys_absent k v ps :
  k ∉ ps.*1 -> (prop_set k v ps).*1 = ps.*1 ++ [k].
Proof.
  induction ps as [|[k' v'] tl IH]; simpl; [done|].
  rewrite not_elem_of_cons. intros [Hne Hin].
  rewrite decide_False by done. simpl. f_equal. by apply IH.
Qed.

Lemma prop_set_NoDup k v ps : NoDup ps.*1 -> NoDup (prop_set k v ps).*1.
Proof.
  intros Hnd. destruct (decide (k ∈ ps.*1)) as [Hin|Hin].
  - by rewrite prop_set_keys_present.
  - rewrite prop_set_keys_absent by done.
    apply NoDup_app. split_and!; [done| |apply NoDup_singleton].
    intros x Hx Hx'. apply list_elem_of_singleton in Hx' as ->. done.
Qed.

Lemma prop_delete_keys k ps :
  (prop_delete k ps).*1 = filter (fun k' => k' ≠ k) ps.*1.
Proof.
  induction ps as [|[k' v'] tl IH]; simpl; [done|].
  destruct (decide (k = k')) as [->|Hne].
  - rewrite filter_cons_False by (intros H; by apply H). done.
  - rewrite filter_cons_True by done. simpl. by f_equal.
Qed.

Lemma prop_delete_NoDup k ps : NoDup ps.*1 -> NoDup (prop_delete k ps).*1.
Proof. intros H. rewrite prop_delete_keys. by apply NoDup_filter. Qed.

Lemma prop_set_same k v ps : prop_get k ps = Some v -> prop_set k v ps = ps.
Proof.
  induction ps as [|[k' v'] tl IH]; simpl; [done|].
  destruct (decide (k = k')) as [->|Hne].
  - by intros [= ->].
  - intros H. f_equal. by apply IH.
Qed.

Lemma prop_set_set k v w ps : prop_set k v (prop_set k w ps) = prop_set k v ps.
Proof.
  induction ps as [|[k' v'] tl IH]; simpl.
  - by rewrite decide_True.
  - destruct (decide (k = k')) as [->|Hne]; simpl.
    + by rewrite decide_True.
    + rewrite decide_False by done. by f_equal.
Qed.

(** [{ ...a, ...b }] on property lists: the last binding of [b] wins. *)
Lemma prop_get_merge k (bs ps : props A) :
  NoDup bs.*1 ->
  prop_get k (fold_left (fun fs kv => prop_set kv.1 kv.2 fs) bs ps)
  = match prop_get k bs with Some v => Some v | None => prop_get k ps end.
Proof.
  revert ps. induction bs as [|[k' v'] tl IH]; intros ps; simpl; [done|].
  rewrite NoDup_cons. intros [Hk Hnd]. rewrite IH by done.
  destruct (decide (k = k')) as [->|Hne].
  - apply prop_get_None in Hk. rewrite Hk. apply prop_get_set_eq.
  - destruct (prop_get k tl); [done|]. by apply prop_get_set_ne.
Qed.
End props_facts.

(** ** The history ledger *)

Lemma entry_at_last (h : list Patch) (p : Patch) :
  entry_at (h ++ [p]) (Z.of_nat (length (h ++ [p])) - 1) = Some p.
Proof.
  unfold entry_at. rewrite length_app. simpl.
  rewrite decide_False by lia.
  replace (Z.to_nat (Z.of_nat (length h + 1) - 1)) with (length h + 0)%nat by lia.
  by rewrite lookup_app_r, Nat.add_0_r, Nat.sub_diag by lia.
Qed.

Lemma entry_at_Some (h : list Patch) (i : Z) :
  0 <= i <= Z.of_nat (length h) - 1 -> is_Some (entry_at h i).
Proof.
  intros Hi. unfold entry_at. rewrite decide_False by lia.
  apply lookup_lt_is_Some. lia.
Qed.

Section store_facts.
Variable diff : Node -> Node -> Patch.

Lemma splice_history_length s :
  pointer_ok s -> Z.of_nat (length (splice_history s)) = pointer s + 1.
Proof.
  unfold pointer_ok, splice_history. intros H. rewrite length_take. lia.
Qed.

Lemma commit_pointer_ok change s : pointer_ok s -> pointer_ok (commit change s).
Proof.
  intros H. pose proof (splice_history_length s H) as Hl.
  unfold pointer_ok, commit in *. simpl. rewrite length_app. simpl. lia.
Qed.

Lemma commit_entry change s :
  pointer_ok s ->
  entry_at (history (commit change s)) (pointer (commit change s)) = Some change.
Proof.
  intros H. pose proof (splice_history_length s H) as Hl.
  unfold commit. simpl.
  replace (pointer s + 1)
    with (Z.of_nat (length (splice_history s ++ [change])) - 1)
    by (rewrite length_app; simpl; lia).
  apply entry_at_last.
Qed.

Lemma fold_pending_pointer_ok s : pointer_ok (fold_pending diff s).
Proof. unfold pointer_ok, fold_pending. simpl. rewrite length_app. simpl. lia. Qed.

Lemma fold_pending_entry s :
  entry_at (history (fold_pending diff s)) (pointer (fold_pending diff s))
  = Some (diff (prev s) (current s)).
Proof. unfold fold_pending. simpl. apply entry_at_last. Qed.

Lemma willChange_ledger s :
  pointer (willChange s) = pointer s /\ history (willChange s) = history s
  /\ isPaused (willChange s) = isPaused s
  /\ current (willChange s) = current s
  /\ listeners (willChange s) = listeners s /\ calls (willChange s) = calls s.
Proof. unfold willChange. by repeat case_match. Qed.

Lemma didChange_pointer_ok s : pointer_ok s -> pointer_ok (didChange diff s).
Proof.
  intros H. unfold didChange. destruct (isPaused s); simpl; [done|].
  by apply commit_pointer_ok.
Qed.

Lemma willChange_pointer_ok s : pointer_ok s -> pointer_ok (willChange s).
Proof.
  unfold pointer_ok. by destruct (willChange_ledger s) as (-> & -> & _).
Qed.

Lemma mutate_pointer_ok m s : pointer_ok s -> pointer_ok (mutate diff m s).
Proof. intros H. apply didChange_pointer_ok. by apply willChange_pointer_ok in H. Qed.

Lemma setState_pointer_ok p s : pointer_ok s -> pointer_ok (setState diff p s).
Proof. intros H. apply didChange_pointer_ok. by apply willChange_pointer_ok in H. Qed.

Lemma setStateWith_pointer_ok f s :
  pointer_ok s -> pointer_ok (setStateWith diff f s).
Proof. intros H. apply didChange_pointer_ok. by apply willChange_pointer_ok in H. Qed.

Lemma replaceState_pointer_ok n s :
  pointer_ok s -> pointer_ok (replaceState diff n s).
Proof. intros H. apply didChange_pointer_ok. by apply willChange_pointer_ok in H. Qed.

Lemma patch_pointer_ok p s : pointer_ok s -> pointer_ok (patch p s).
Proof. intros H. by apply willChange_pointer_ok in H. Qed.

Lemma pause_pointer_ok s : pointer_ok s -> pointer_ok (pause s).
Proof. done. Qed.

Lemma resume_pointer_ok s : pointer_ok s -> pointer_ok (resume diff s).
Proof.
  intros H. unfold resume. destruct (didChangeWhilePaused s); [|done].
  by apply (commit_pointer_ok (diff (prev s) (current s)) (with_prev (current s) s)).
Qed.

Lemma unpaused_pointer_ok s : pointer_ok s -> pointer_ok (unpaused diff s).
Proof.
  intros H. unfold unpaused. destruct (isPaused s); [|done].
  destruct (didChangeWhilePaused s); [|done].
  apply (fold_pending_pointer_ok s).
Qed.

Lemma canUndo_pointer s : canUndo s = bool_decide (0 <= pointer s).
Proof.
  unfold canUndo. destruct (decide (0 <= pointer s)) as [H|H].
  - rewrite (bool_decide_eq_true_2 (pointer s >= 0)) by lia.
    rewrite (bool_decide_eq_true_2 (0 <= pointer s)) by lia. done.
  - rewrite (bool_decide_eq_false_2 (pointer s >= 0)) by lia.
    rewrite (bool_decide_eq_false_2 (pointer s = 0)) by lia.
    rewrite (bool_decide_eq_false_2 (0 <= pointer s)) by lia. done.
Qed.

Lemma undo_pointer_ok s :
  pointer_ok s -> exists s', undo diff s = Some s' /\ pointer_ok s'.
Proof.
  intros H. apply unpaused_pointer_ok in H.
  unfold undo. fold (unpaused diff s). set (u := unpaused diff s) in *.
  rewrite canUndo_pointer. case_bool_decide as Hp; simpl.
  - destruct (entry_at_Some (history u) (pointer u)) as [p Hp'];
      [unfold pointer_ok in H; lia|].
    rewrite Hp'. eexists; split; [done|].
    unfold pointer_ok in *. simpl. lia.
  - eexists; split; [done|]. apply H.
Qed.

Lemma redo_pointer_ok s :
  pointer_ok s -> exists s', redo diff s = Some s' /\ pointer_ok s'.
Proof.
  intros H. unfold redo.
  destruct (isPaused s && didChangeWhilePaused s).
  { eexists; split; [done|]. apply fold_pending_pointer_ok. }
  set (u := if isPaused s then with_isPaused false s else s).
  assert (pointer_ok u) as Hu by (unfold u; by destruct (isPaused s)).
  unfold canRedo. case_bool_decide as Hp; simpl.
  - destruct (entry_at_Some (history u) (pointer u + 1)) as [p Hp'];
      [unfold pointer_ok in Hu; lia|].
    rewrite Hp'. eexists; split; [done|].
    unfold pointer_ok in *. simpl. lia.
  - eexists; split; [done|]. apply Hu.
Qed.

Lemma step_pointer_ok o s :
  pointer_ok s -> exists s', step diff o s = Some s' /\ pointer_ok s'.
Proof.
  intros H. destruct o; simpl;
    eauto using mutate_pointer_ok, setState_pointer_ok, setStateWith_pointer_ok,
      replaceState_pointer_ok, patch_pointer_ok, pause_pointer_ok, resume_pointer_ok,
      undo_pointer_ok, redo_pointer_ok.
Qed.

Lemma run_pointer_ok ops s :
  pointer_ok s -> exists s', run diff ops s = Some s' /\ pointer_ok s'.
Proof.
  revert s. induction ops as [|o ops IH]; intros s H; simpl; [by eauto|].
  destruct (step_pointer_ok o s H) as (s' & -> & H'). by apply IH.
Qed.

Lemma new_pointer_ok initial : pointer_ok (new initial).
Proof. unfold pointer_ok. simpl. lia. Qed.

Lemma reachable_pointer_ok s : reachable diff s -> pointer_ok s.
Proof.
  intros (initial & ops & Hrun).
  destruct (run_pointer_ok ops (new initial) (new_pointer_ok initial))
    as (s' & Hs' & H).
  congruence.
Qed.
End store_facts.

(** * Undoing a difference *)

(** ** Induction on trees *)

Lemma size_slot (xs : list (option Node)) i x :
  xs !! i = Some (Some x) ->
  (size x <= sum_list (map (fun slot => match slot with
                                        | Some x => size x
                                        | None => O
                                        end) xs))%nat.
Proof.
  revert i. induction xs as [|slot tl IH]; intros [|i] H; simpl in *; try done.
  - injection H as ->. lia.
  - specialize (IH _ H). lia.
Qed.

Lemma size_field (fs : list (string * Node)) k x :
  (k, x) ∈ fs -> (size x <= sum_list (map (fun kv => size kv.2) fs))%nat.
Proof.
  induction fs as [|[k' y] tl IH]; intros H; simpl.
  - by apply elem_of_nil in H.
  - apply elem_of_cons in H as [[= -> ->]|H]; [lia|]. specialize (IH H). lia.
Qed.

(** Induction with the hypothesis for every child of an array or object. *)
Lemma Node_children_ind (P : Node -> Prop) :
  (forall v, P (Scalar v)) ->
  (forall xs named,
      (forall i x, xs !! i = Some (Some x) -> P x) ->
      (forall k x, (k, x) ∈ named -> P x) ->
      P (Arr xs named)) ->
  (forall fs, (forall k x, (k, x) ∈ fs -> P x) -> P (Obj fs)) ->
  forall n, P n.
Proof.
  intros Hs Ha Ho n. remember (size n) as sz eqn:Hsz. revert n Hsz.
  induction sz as [sz IH] using lt_wf_ind. intros n ->. destruct n as [v|xs named|fs].
  - apply Hs.
  - apply Ha.
    + intros i x Hx. eapply IH; [|reflexivity]. simpl.
      pose proof (size_slot _ _ _ Hx). lia.
    + intros k x Hx. eapply IH; [|reflexivity]. simpl.
      pose proof (size_field _ _ _ Hx). lia.
  - apply Ho. intros k x Hx. eapply IH; [|reflexivity]. simpl.
    pose proof (size_field _ _ _ Hx). lia.
Qed.

(** ** Plain snapshots *)

Lemma plain_obj fs :
  plain (Obj fs) = true <-> NoDup fs.*1 /\ forall k x, (k, x) ∈ fs -> plain x = true.
Proof.
  simpl. rewrite andb_true_iff, bool_decide_eq_true, forallb_forall.
  split; intros [Hnd H]; (split; [done|]).
  - intros k x Hx. apply (H (k, x)). by apply list_elem_of_In.
  - intros [k x] Hx. apply (H k x). by apply list_elem_of_In.
Qed.

Lemma plain_arr xs named :
  plain (Arr xs named) = true
  <-> named = [] /\ forall i, (i < length xs)%nat ->
                        exists x, xs !! i = Some (Some x) /\ plain x = true.
Proof.
  simpl. rewrite andb_true_iff, forallb_forall. split.
  - intros [Hn H]. split; [by destruct named|].
    intros i Hi. destruct (lookup_lt_is_Some_2 xs i Hi) as [slot Hslot].
    specialize (H slot). rewrite <- list_elem_of_In in H.
    specialize (H (list_elem_of_lookup_2 _ _ _ Hslot)).
    destruct slot as [x|]; [|done]. by exists x.
  - intros [-> H]. split; [done|]. intros slot Hslot.
    apply list_elem_of_In, list_elem_of_lookup in Hslot as [i Hi].
    destruct (H i) as (x & Hx & Hp); [by eapply lookup_lt_Some|].
    rewrite Hi in Hx. by injection Hx as ->.
Qed.

Lemma cloneDeep_plain n : plain n = true -> Lodash.cloneDeep n = n.
Proof.
  induction n as [v|xs named IHxs _|fs IH] using Node_children_ind; [done| |].
  - intros Hp. apply plain_arr in Hp as [-> Hp]. simpl. f_equal.
    apply list_eq. intros i. rewrite list_lookup_fmap.
    destruct (xs !! i) as [slot|] eqn:Hi; simpl; [|done].
    destruct (Hp i) as (x & Hx & Hpx); [by eapply lookup_lt_Some|].
    rewrite Hi in Hx. injection Hx as ->. f_equal. f_equal. by eapply IHxs.
  - intros Hp. apply plain_obj in Hp as [_ Hp]. simpl. f_equal.
    induction fs as [|[k x] tl IHtl]; simpl; [done|]. f_equal.
    + f_equal. apply (IH k); [apply list_elem_of_here|].
      apply (Hp k). apply list_elem_of_here.
    + apply IHtl.
      * intros k' x' Hx'. apply (IH k'). by apply list_elem_of_further.
      * intros k' x' Hx'. apply (Hp k'). by apply list_elem_of_further.
Qed.

(** ** Structural equality *)

Lemma Node_equiv_refl n : Node_equiv n n.
Proof.
  induction n as [v|xs named IHxs IHn|fs IH] using Node_children_ind.
  - constructor.
  - constructor.
    + apply Forall2_same_length_lookup_2; [done|]. intros i s1 s2 H1 H2.
      rewrite H1 in H2. injection H2 as <-. destruct s1 as [x|]; constructor.
      by eapply IHxs.
    + intros k. destruct (prop_get k named) as [x|] eqn:Hk; constructor.
      apply (IHn k). by apply prop_get_Some_In.
  - constructor. intros k. destruct (prop_get k fs) as [x|] eqn:Hk; constructor.
    apply (IH k). by apply prop_get_Some_In.
Qed.

(** ** Reading and writing properties *)

Lemma string_of_index_inj i j : string_of_index i = string_of_index j -> i = j.
Proof.
  unfold string_of_index. intros H.
  apply (f_equal NilEmpty.uint_of_string) in H.
  rewrite !NilEmpty.usu in H. injection H as H.
  apply (f_equal Nat.of_uint) in H. by rewrite !DecimalNat.Unsigned.of_to in H.
Qed.

Lemma index_of_string_index i : index_of_string (string_of_index i) = Some i.
Proof.
  unfold index_of_string, string_of_index at 1.
  rewrite NilEmpty.usu, DecimalNat.Unsigned.of_to. by rewrite decide_True.
Qed.

Lemma asIndex_toKey k i : asIndex k = Some i -> toKey k = string_of_index i.
Proof.
  destruct k as [s|n]; simpl; [|by intros [= ->]].
  unfold index_of_string. destruct (NilEmpty.uint_of_string s); [|done].
  case_decide; [|done]. by intros [= <-].
Qed.

Lemma asIndex_None_toKey k k' :
  asIndex k = None -> asIndex k' = None -> toKey k = toKey k' ->
  asIndex k = asIndex k'.
Proof. congruence. Qed.

Section slots.
Context {A : Type}.
Implicit Types (xs : list (option A)).

Lemma slot_get_set_eq i (v : A) xs : slot_get i (slot_set i v xs) = Some v.
Proof.
  unfold slot_get, slot_set. case_decide as Hi.
  - by rewrite list_lookup_insert_eq.
  - rewrite lookup_app_r by lia. rewrite lookup_app_r by (rewrite length_replicate; lia).
    rewrite length_replicate. by rewrite Nat.sub_diag.
Qed.

Lemma slot_get_set_ne i j (v : A) xs :
  i ≠ j -> slot_get j (slot_set i v xs) = slot_get j xs.
Proof.
  intros Hne. unfold slot_get, slot_set. case_decide as Hi.
  - by rewrite list_lookup_insert_ne.
  - destruct (decide (j < length xs)%nat) as [Hj|Hj].
    + by rewrite lookup_app_l.
    + rewrite (lookup_ge_None_2 xs j) by lia.
      rewrite lookup_app_r by lia.
      destruct (decide (j - length xs < i - length xs)%nat).
      * rewrite lookup_app_l by (by rewrite length_replicate).
        by rewrite lookup_replicate_2.
      * rewrite lookup_app_r by (rewrite length_replicate; lia).
        rewrite length_replicate.
        rewrite lookup_ge_None_2; [done|]. simpl. lia.
Qed.

Lemma slot_set_set i (v w : A) xs :
  slot_set i w (slot_set i v xs) = slot_set i w xs.
Proof.
  unfold slot_set. destruct (decide (i < length xs)%nat) as [Hi|Hi].
  - rewrite decide_True by (by rewrite length_insert).
    apply list_insert_insert_eq.
  - rewrite decide_True
      by (rewrite !length_app, length_replicate; simpl; lia).
    rewrite insert_app_r_alt by lia.
    rewrite insert_app_r_alt by (rewrite length_replicate; lia).
    rewrite length_replicate. by rewrite Nat.sub_diag.
Qed.

Lemma slot_set_same i (v : A) xs : slot_get i xs = Some v -> slot_set i v xs = xs.
Proof.
  unfold slot_get, slot_set. intros H.
  destruct (xs !! i) as [[x|]|] eqn:Hi; simpl in H; try done.
  injection H as ->. rewrite decide_True by (by eapply lookup_lt_Some).
  by apply list_insert_id.
Qed.

Lemma slot_get_delete_ne i j xs :
  i ≠ j -> slot_get j (slot_delete i xs) = slot_get j xs.
Proof. intros. unfold slot_get, slot_delete. by rewrite list_lookup_insert_ne. Qed.
End slots.

Lemma assign_isObject n k v : isObject (assign n k v) = isObject n.
Proof. destruct n; simpl; by repeat case_match. Qed.

Lemma deleteProp_isObject n k : isObject (deleteProp n k) = isObject n.
Proof. destruct n; simpl; by repeat case_match. Qed.

Lemma get_assign_eq n k v : isObject n = true -> get (assign n k v) k = Some v.
Proof.
  destruct n as [|xs named|fs]; simpl; [done| |].
  - intros _. destruct (asIndex k) as [i|] eqn:Hk; simpl; rewrite Hk.
    + apply slot_get_set_eq.
    + apply prop_get_set_eq.
  - intros _. apply prop_get_set_eq.
Qed.

Lemma get_assign_ne n k k' v :
  toKey k ≠ toKey k' -> get (assign n k v) k' = get n k'.
Proof.
  intros Hne. destruct n as [|xs named|fs]; simpl; [done| |].
  - destruct (asIndex k) as [i|] eqn:Hk, (asIndex k') as [j|] eqn:Hk';
      simpl; rewrite Hk'; try done.
    + apply slot_get_set_ne. intros ->.
      apply asIndex_toKey in Hk, Hk'. congruence.
    + apply prop_get_set_ne. congruence.
  - apply prop_get_set_ne. congruence.
Qed.

Lemma assign_assign n k v w : assign (assign n k v) k w = assign n k w.
Proof.
  destruct n as [|xs named|fs]; simpl; [done| |].
  - destruct (asIndex k) as [i|] eqn:Hk; simpl; rewrite Hk.
    + by rewrite slot_set_set.
    + by rewrite prop_set_set.
  - by rewrite prop_set_set.
Qed.

Lemma assign_same n k v : get n k = Some v -> assign n k v = n.
Proof.
  destruct n as [|xs named|fs]; simpl; [done| |].
  - destruct (asIndex k) as [i|] eqn:Hk; intros H.
    + by rewrite slot_set_same.
    + by rewrite prop_set_same.
  - intros H. by rewrite prop_set_same.
Qed.

(** ** Paths below a key *)

Lemma set_isObject n p v : isObject (Lodash.set n p v) = isObject n.
Proof. destruct p as [|k [|k' p]]; simpl; [done| |]; apply assign_isObject. Qed.

Lemma unset_isObject n p : isObject (Lodash.unset n p) = isObject n.
Proof.
  destruct p as [|k [|k' p]]; simpl; [done|apply deleteProp_isObject|].
  destruct (get n k); [apply assign_isObject|done].
Qed.

Lemma undoItem_isObject n d : isObject (undoItem n d) = isObject n.
Proof. destruct d; simpl; auto using set_isObject, unset_isObject. Qed.

Lemma undo_isObject ds n : isObject (fold_left undoItem ds n) = isObject n.
Proof.
  revert n. induction ds as [|d ds IH]; intros n; simpl; [done|].
  by rewrite IH, undoItem_isObject.
Qed.

(** Undoing a difference whose path starts with [key] rewrites the child
    at [key] and nothing else. *)
Lemma undoItem_unshift parent key b d :
  path_of d ≠ [] -> get parent key = Some b -> isObject b = true ->
  undoItem parent (unshift key d) = assign parent key (undoItem b d).
Proof.
  intros Hp Hget Hb.
  destruct d as [p v|p v o|p o]; simpl in *; destruct p as [|k' p]; try done;
    simpl; rewrite Hget; try done; by rewrite Hb.
Qed.

Lemma undo_unshift ds parent key b :
  Forall (fun d => path_of d ≠ []) ds ->
  get parent key = Some b -> isObject b = true ->
  fold_left undoItem (map (unshift key) ds) parent
  = assign parent key (fold_left undoItem ds b).
Proof.
  intros Hds. revert parent b.
  induction Hds as [|d ds Hd Hds IH]; intros parent b Hget Hb; simpl.
  - by rewrite assign_same.
  - rewrite (undoItem_unshift parent key b d) by done.
    assert (isObject parent = true) as Hpar by (destruct parent; done).
    rewrite (IH _ (undoItem b d)).
    + apply assign_assign.
    + by apply get_assign_eq.
    + by rewrite undoItem_isObject.
Qed.

(** The differ never emits an empty path. *)
Lemma compare_paths k a after rec :
  Forall (fun d : Difference Node => path_of d ≠ []) (Differ.compare k a after rec).
Proof.
  unfold Differ.compare. repeat case_match; repeat constructor; try done.
  apply Forall_fmap, Forall_forall. intros d _. by destruct d.
Qed.

Lemma over_slots_paths rec after i xs :
  Forall (fun d => path_of d ≠ []) (Differ.over_slots rec after i xs).
Proof.
  revert i. induction xs as [|[a|] tl IH]; intros i; simpl; [done| |done].
  apply Forall_app_2; [apply compare_paths|apply IH].
Qed.

Lemma over_fields_paths rec after fs :
  Forall (fun d => path_of d ≠ []) (Differ.over_fields rec after fs).
Proof. apply Forall_flat_map, Forall_forall. intros kv _. apply compare_paths. Qed.

Lemma created_paths before after :
  Forall (fun d => path_of d ≠ []) (Differ.created before after).
Proof.
  apply Forall_flat_map, Forall_forall. intros kv _.
  case_match; repeat constructor. done.
Qed.

Lemma diff_paths before after :
  Forall (fun d => path_of d ≠ []) (Differ.diff before after).
Proof.
  destruct before as [v|xs named|fs]; simpl; [done| |].
  - repeat apply Forall_app_2;
      auto using over_slots_paths, over_fields_paths, created_paths.
  - apply Forall_app_2; auto using over_fields_paths, created_paths.
Qed.

(** ** Undoing what the differ emits for one key *)

Lemma same_value_eq a b : same_value a b = true -> a = b.
Proof.
  destruct a as [x| |], b as [y| |]; simpl; try done.
  intros H. apply bool_decide_eq_true_1 in H. by subst.
Qed.

(** The differences recorded for a key of the before-tree put a value
    equal to the old one back under that key. *)
Lemma undo_compare key a after cur :
  isObject cur = true ->
  get cur key = get after key ->
  (forall b, get after key = Some b -> isObject a && isObject b = true ->
             Node_equiv (fold_left undoItem (Differ.diff a b) b) a) ->
  exists r,
    fold_left undoItem (Differ.compare key a after (Differ.diff a)) cur
    = assign cur key r
    /\ Node_equiv r a.
Proof.
  intros Hcur Hget IH. unfold Differ.compare.
  destruct (get after key) as [b|] eqn:Hb.
  - destruct (isObject a && isObject b) eqn:Hobj.
    + exists (fold_left undoItem (Differ.diff a b) b). split; [|by apply IH].
      apply undo_unshift; [apply diff_paths|done|].
      by apply andb_true_iff in Hobj as [_ ?].
    + destruct (same_value a b) eqn:Hsame.
      * apply same_value_eq in Hsame as ->. exists b. simpl.
        split; [by rewrite assign_same|apply Node_equiv_refl].
      * exists a. split; [done|apply Node_equiv_refl].
  - exists a. split; [done|apply Node_equiv_refl].
Qed.

(** ** Objects *)

Lemma keeps_shape_obj fs gs :
  keeps_shape (Obj fs) (Obj gs) = true ->
  forall k a b, (k, a) ∈ fs -> prop_get k gs = Some b ->
                isObject a && isObject b = true -> keeps_shape a b = true.
Proof.
  simpl. rewrite forallb_forall. intros H k a b Hin Hb Hobj.
  specialize (H (k, a)). simpl in H. rewrite Hb, Hobj in H.
  apply H. by apply list_elem_of_In.
Qed.

Lemma over_fields_undo after fs cur :
  isObject cur = true ->
  NoDup fs.*1 ->
  (forall k a, (k, a) ∈ fs -> get cur (KStr k) = get after (KStr k)) ->
  (forall k a b, (k, a) ∈ fs -> get after (KStr k) = Some b ->
                 isObject a && isObject b = true ->
                 Node_equiv (fold_left undoItem (Differ.diff a b) b) a) ->
  exists cur',
    fold_left undoItem (Differ.over_fields Differ.diff after fs) cur = cur'
    /\ isObject cur' = true
    /\ (forall k a, (k, a) ∈ fs ->
                    exists r, get cur' (KStr k) = Some r /\ Node_equiv r a)
    /\ (forall key, toKey key ∉ fs.*1 -> get cur' key = get cur key).
Proof.
  revert cur. induction fs as [|[k a] tl IH]; intros cur Hcur Hnd Hget Hrec.
  - exists cur. split_and!; try done. intros k a H. by apply elem_of_nil in H.
  - unfold Differ.over_fields. cbn [flat_map fst snd]. rewrite fold_left_app.
    fold (Differ.over_fields Differ.diff after tl).
    rewrite fmap_cons in Hnd. apply NoDup_cons in Hnd as [Hk Hnd]. cbn [fst] in Hk.
    destruct (undo_compare (KStr k) a after cur) as (r & -> & Hr); [done| |..].
    { apply (Hget k a). apply list_elem_of_here. }
    { intros b Hb Hobj. apply (Hrec k a b); [apply list_elem_of_here|done..]. }
    destruct (IH (assign cur (KStr k) r)) as (cur' & Hcur' & Hobj' & Hin & Hout).
    + by rewrite assign_isObject.
    + done.
    + intros k' a' Hin. rewrite get_assign_ne.
      * apply (Hget k' a'). by apply list_elem_of_further.
      * simpl. intros ->. apply Hk.
        by apply (list_elem_of_fmap_2 fst _ (k', a')).
    + intros k' a' b Hin. apply (Hrec k' a' b). by apply list_elem_of_further.
    + exists cur'. split; [done|]. split; [done|]. split.
      * intros k' a' Hin'. apply elem_of_cons in Hin' as [[= -> ->]|Hin'].
        -- exists r. split; [|done]. rewrite Hout by done.
           by apply get_assign_eq.
        -- by apply (Hin k' a').
      * intros key Hkey. rewrite fmap_cons in Hkey.
        apply not_elem_of_cons in Hkey as [Hne Hkey]. cbn [fst] in Hne.
        rewrite Hout by done. apply get_assign_ne. simpl. congruence.
Qed.

(** Undoing the CREATE entries deletes the keys that only the after-tree
    has. *)
Lemma created_undo_obj before gs hs :
  exists hs',
    fold_left undoItem
      (flat_map (fun kv : Key * Node =>
                   match get before kv.1 with
                   | None => [CREATE [kv.1] kv.2]
                   | Some _ => []
                   end) (map (fun kv => (KStr kv.1, kv.2)) gs)) (Obj hs)
    = Obj hs'
    /\ forall k, prop_get k hs'
                 = if decide (k ∈ gs.*1 /\ get before (KStr k) = None)
                   then None else prop_get k hs.
Proof.
  revert hs. induction gs as [|[k v] tl IH]; intros hs.
  - exists hs. split; [done|]. intros k. rewrite decide_False; [done|].
    intros [H _]. by apply elem_of_nil in H.
  - cbn [map flat_map fst snd]. rewrite fold_left_app.
    destruct (get before (KStr k)) eqn:Hk; cbn [fold_left].
    + destruct (IH hs) as (hs' & -> & H). exists hs'. split; [done|].
      intros k'. rewrite H. destruct (decide (k' = k)) as [->|Hne].
      * rewrite Hk. rewrite !decide_False by (intros [_ ?]; done). done.
      * apply decide_ext. rewrite fmap_cons, elem_of_cons. cbn [fst]. intuition congruence.
    + change (undoItem (Obj hs) (CREATE [KStr k] v)) with (Obj (prop_delete k hs)).
      destruct (IH (prop_delete k hs)) as (hs' & -> & H). exists hs'.
      split; [done|]. intros k'. rewrite H.
      destruct (decide (k' = k)) as [->|Hne].
      * rewrite prop_get_delete_eq.
        match goal with |- ?lhs = _ => assert (lhs = None) as -> by (by case_decide) end.
        rewrite decide_True; [done|].
        split; [rewrite fmap_cons; apply list_elem_of_here|done].
      * rewrite prop_get_delete_ne by done.
        apply decide_ext. rewrite fmap_cons, elem_of_cons. cbn [fst]. intuition congruence.
Qed.

(** ** Arrays *)

Lemma keeps_shape_arr xs ns ys ms :
  keeps_shape (Arr xs ns) (Arr ys ms) = true ->
  (length ys <= length xs)%nat
  /\ forall i a b, xs !! i = Some (Some a) -> ys !! i = Some (Some b) ->
                   isObject a && isObject b = true -> keeps_shape a b = true.
Proof.
  simpl. rewrite andb_true_iff, bool_decide_eq_true. intros [Hlen H].
  split; [done|]. revert H.
  change (forall i a b, xs !! i = Some (Some a) -> ys !! i = Some (Some b) ->
                        isObject a && isObject b = true -> keeps_shape a b = true)
    with (forall i a b, xs !! i = Some (Some a) -> ys !! (0 + i)%nat = Some (Some b) ->
                        isObject a && isObject b = true -> keeps_shape a b = true).
  clear Hlen. generalize 0%nat.
  induction xs as [|slot tl IH]; intros i0 H i a b Ha Hb Hobj; [done|].
  apply andb_true_iff in H as [Hhd Htl]. destruct i as [|i]; simpl in Ha.
  - injection Ha as ->. rewrite Nat.add_0_r in Hb. by rewrite Hb, Hobj in Hhd.
  - apply (IH (S i0) Htl i a b); [done| |done].
    by replace (S i0 + i)%nat with (i0 + S i)%nat by lia.
Qed.

Lemma slot_set_length {A} i (v : A) xs :
  length (slot_set i v xs) = (length xs `max` S i)%nat.
Proof.
  unfold slot_set. case_decide.
  - rewrite length_insert. lia.
  - rewrite !length_app, length_replicate. simpl. lia.
Qed.

Lemma over_slots_undo after xs i zs :
  (i <= length zs)%nat ->
  (forall j, (j < length xs)%nat -> exists a, xs !! j = Some (Some a)) ->
  (forall j a, xs !! j = Some (Some a) ->
               get (Arr zs []) (KNum (i + j)) = get after (KNum (i + j))) ->
  (forall j a b, xs !! j = Some (Some a) -> get after (KNum (i + j)) = Some b ->
                 isObject a && isObject b = true ->
                 Node_equiv (fold_left undoItem (Differ.diff a b) b) a) ->
  exists zs',
    fold_left undoItem (Differ.over_slots Differ.diff after i xs) (Arr zs [])
    = Arr zs' []
    /\ length zs' = (length zs `max` (i + length xs))%nat
    /\ (forall j a, xs !! j = Some (Some a) ->
                    exists r, slot_get (i + j) zs' = Some r /\ Node_equiv r a)
    /\ (forall j, (j < i)%nat -> slot_get j zs' = slot_get j zs).
Proof.
  revert i zs. induction xs as [|slot tl IH]; intros i zs Hi Hdense Hget Hrec.
  - exists zs. split_and!; [done|simpl; lia|done|done].
  - destruct (Hdense 0%nat) as (a & Ha); [simpl; lia|].
    injection Ha as ->. cbn [Differ.over_slots]. rewrite fold_left_app.
    destruct (undo_compare (KNum i) a after (Arr zs [])) as (r & -> & Hr); [done| |..].
    { specialize (Hget 0%nat a eq_refl). by rewrite Nat.add_0_r in Hget. }
    { intros b Hb Hobj. apply (Hrec 0%nat a b); [done| |done].
      by rewrite Nat.add_0_r. }
    change (assign (Arr zs []) (KNum i) r) with (Arr (slot_set i r zs) []).
    destruct (IH (S i) (slot_set i r zs)) as (zs' & -> & Hlen & Hin & Hout).
    + rewrite slot_set_length. lia.
    + intros j Hj. apply (Hdense (S j)). simpl. lia.
    + intros j a' Hj. specialize (Hget (S j) a' Hj).
      replace (i + S j)%nat with (S i + j)%nat in Hget by lia.
      rewrite <- Hget. simpl. apply slot_get_set_ne. lia.
    + intros j a' b Hj Hb. apply (Hrec (S j) a' b Hj).
      by replace (i + S j)%nat with (S i + j)%nat by lia.
    + exists zs'. split; [done|]. split_and!.
      * rewrite Hlen, slot_set_length. simpl. lia.
      * intros [|j] a' Hj; simpl in Hj.
        -- injection Hj as <-. exists r. split; [|done].
           rewrite Nat.add_0_r, Hout by lia. apply slot_get_set_eq.
        -- replace (i + S j)%nat with (S i + j)%nat by lia. by apply Hin.
      * intros j Hj. rewrite Hout by lia. apply slot_get_set_ne. lia.
Qed.

Lemma slot_entries_keys i (xs : list (option Node)) k v :
  (k, v) ∈ slot_entries i xs ->
  exists j, k = KNum (i + j) /\ (j < length xs)%nat.
Proof.
  revert i. induction xs as [|[x|] tl IH]; intros i H; simpl in H.
  - by apply elem_of_nil in H.
  - apply elem_of_cons in H as [[= -> ->]|H].
    + exists 0%nat. split; [by rewrite Nat.add_0_r|simpl; lia].
    + destruct (IH _ H) as (j & -> & Hj). exists (S j).
      split; [f_equal; lia|simpl; lia].
  - destruct (IH _ H) as (j & -> & Hj). exists (S j).
    split; [f_equal; lia|simpl; lia].
Qed.

Lemma flat_map_nil {A B} (f : A -> list B) (l : list A) :
  (forall x, x ∈ l -> f x = []) -> flat_map f l = [].
Proof.
  induction l as [|x l IH]; intros H; simpl; [done|].
  rewrite (H x) by apply list_elem_of_here. apply IH.
  intros y Hy. apply H. by apply list_elem_of_further.
Qed.

Lemma created_arr_nil xs ys :
  (length ys <= length xs)%nat ->
  (forall j, (j < length xs)%nat -> exists a, xs !! j = Some (Some a)) ->
  Differ.created (Arr xs []) (Arr ys []) = [].
Proof.
  intros Hlen Hdense. apply flat_map_nil. intros [k v] Hin. simpl in Hin.
  rewrite app_nil_r in Hin.
  apply slot_entries_keys in Hin as (j & -> & Hj). simpl.
  destruct (Hdense j) as (a & Ha); [lia|]. unfold slot_get. by rewrite Ha.
Qed.

(** ** A tree against itself *)

Lemma compare_same k a after :
  get after k = Some a -> Differ.diff a a = [] ->
  Differ.compare k a after (Differ.diff a) = [].
Proof.
  intros Hget Hrec. unfold Differ.compare. rewrite Hget, Hrec.
  destruct a as [v| |]; simpl; [|done..]. by rewrite bool_decide_eq_true_2.
Qed.

Lemma over_slots_same after xs i :
  (forall j a, xs !! j = Some (Some a) ->
               get after (KNum (i + j)) = Some a /\ Differ.diff a a = []) ->
  Differ.over_slots Differ.diff after i xs = [].
Proof.
  revert i. induction xs as [|[a|] tl IH]; intros i H; simpl; [done| |].
  - destruct (H 0%nat a eq_refl) as [Hget Hrec]. rewrite Nat.add_0_r in Hget.
    rewrite compare_same by done. apply IH. intros j a' Hj.
    replace (S i + j)%nat with (i + S j)%nat by lia. by apply H.
  - apply IH. intros j a' Hj.
    replace (S i + j)%nat with (i + S j)%nat by lia. by apply H.
Qed.

(** The differ emits nothing for a snapshot against itself.  This is what
    the reference-equality short cut of the specification returns without
    entering the subtree. *)
Lemma diff_same n : plain n = true -> Differ.diff n n = [].
Proof.
  induction n as [v|xs named IHxs _|fs IH] using Node_children_ind; intros Hp;
    [done| |].
  - apply plain_arr in Hp as [-> Hdense]. cbn [Differ.diff].
    rewrite created_arr_nil;
      [|done|intros j Hj; destruct (Hdense j Hj) as (a & Ha & _); by eauto].
    unfold Differ.over_fields. cbn [flat_map]. rewrite !app_nil_r.
    apply over_slots_same. intros j a Ha. simpl. unfold slot_get. rewrite Ha.
    split; [done|]. apply (IHxs j a Ha).
    destruct (Hdense j) as (a' & Ha' & Hpa); [by eapply lookup_lt_Some|].
    rewrite Ha in Ha'. by injection Ha' as <-.
  - apply plain_obj in Hp as [Hnd Hp]. cbn [Differ.diff].
    unfold Differ.over_fields, Differ.created.
    rewrite !flat_map_nil; [done| |].
    + intros [k v] Hin. simpl in Hin.
      apply list_elem_of_fmap in Hin as ([k' v'] & [= -> ->] & Hin). simpl.
      by rewrite (prop_get_In k' v' fs).
    + intros [k a] Hin. simpl. apply compare_same.
      * simpl. by apply prop_get_In.
      * apply (IH k a Hin). by apply (Hp k).
Qed.

(** ** The round trip *)

Lemma undo_Obj ds hs : exists hs', fold_left undoItem ds (Obj hs) = Obj hs'.
Proof.
  revert hs. induction ds as [|d ds IH]; intros hs; simpl; [by eauto|].
  assert (exists hs', undoItem (Obj hs) d = Obj hs') as [hs' ->]; [|apply IH].
  destruct d as [p v|p v o|p o]; simpl; destruct p as [|k [|k' p]]; simpl;
    try case_match; eauto.
Qed.

(** Undoing the difference between two snapshots gives the first one back,
    as long as the second keeps the shape of the first. *)
Theorem undo_diff_restores before after :
  plain before = true -> plain after = true -> keeps_shape before after = true ->
  Node_equiv (fold_left undoItem (Differ.diff before after) after) before.
Proof.
  revert after.
  induction before as [v|xs named IHxs _|fs IH] using Node_children_ind;
    intros after Hpb Hpa Hshape; [done| |].
  - destruct after as [|ys named'|]; try done.
    apply plain_arr in Hpb as [-> Hdx]. apply plain_arr in Hpa as [-> Hdy].
    apply keeps_shape_arr in Hshape as [Hlen Hshape].
    cbn [Differ.diff]. rewrite created_arr_nil;
      [|done|intros j Hj; destruct (Hdx j Hj) as (a & Ha & _); by eauto].
    unfold Differ.over_fields. cbn [flat_map]. rewrite !app_nil_r.
    destruct (over_slots_undo (Arr ys []) xs 0 ys) as (zs & -> & Hzlen & Hin & _).
    + lia.
    + intros j Hj. destruct (Hdx j Hj) as (a & Ha & _). by eauto.
    + done.
    + intros j a b Ha Hb Hobj. simpl in Hb. unfold slot_get in Hb.
      destruct (ys !! j) as [[b'|]|] eqn:Hj; simpl in Hb; try done.
      injection Hb as ->.
      destruct (Hdx j) as (a' & Ha' & Hpa'); [by eapply lookup_lt_Some|].
      destruct (Hdy j) as (b' & Hb' & Hpb'); [by eapply lookup_lt_Some|].
      rewrite Ha in Ha'. rewrite Hj in Hb'. injection Ha' as <-. injection Hb' as <-.
      apply (IHxs j a Ha b); [done|done|]. by apply (Hshape j).
    + constructor; [|intros k; constructor].
      apply Forall2_same_length_lookup_2; [lia|].
      intros j s1 s2 H1 H2.
      destruct (Hdx j) as (a & Ha & _); [by eapply lookup_lt_Some|].
      rewrite Ha in H2. injection H2 as <-.
      destruct (Hin j a Ha) as (r & Hr & Hequiv). simpl in Hr.
      unfold slot_get in Hr. rewrite H1 in Hr. simpl in Hr. subst s1.
      by constructor.
  - destruct after as [| |gs]; try done.
    apply plain_obj in Hpb as [Hndf Hpf]. apply plain_obj in Hpa as [Hndg Hpg].
    cbn [Differ.diff]. rewrite fold_left_app.
    destruct (over_fields_undo (Obj gs) fs (Obj gs)) as (cur & Hcur & _ & Hin & Hout);
      [done|done|done| |].
    { intros k a b Hk Hb Hobj. simpl in Hb.
      apply (IH k a Hk b); [by apply (Hpf k)| |].
      - apply (Hpg k). by apply prop_get_Some_In.
      - by apply (keeps_shape_obj fs gs Hshape k). }
    rewrite Hcur.
    destruct (undo_Obj (Differ.over_fields Differ.diff (Obj gs) fs) gs) as [hs Hhs].
    rewrite Hhs in Hcur. subst cur.
    destruct (created_undo_obj (Obj fs) gs hs) as (hs' & Hhs' & Hget).
    unfold Differ.created. cbn [entries]. rewrite Hhs'.
    constructor. intros k. rewrite Hget.
    destruct (prop_get k fs) as [a|] eqn:Hk.
    + rewrite decide_False by (simpl; rewrite Hk; intros [_ ?]; done).
      destruct (Hin k a) as (r & Hr & Hequiv); [by apply prop_get_Some_In|].
      simpl in Hr. rewrite Hr. by constructor.
    + assert (k ∉ fs.*1) as Hnotin by (by apply prop_get_None).
      case_decide as Hd; [constructor|].
      specialize (Hout (KStr k) Hnotin). simpl in Hout. rewrite Hout.
      destruct (prop_get k gs) as [b|] eqn:Hb; [|constructor].
      exfalso. apply Hd. split; [|done].
      apply prop_get_Some_In in Hb.
      by apply (list_elem_of_fmap_2 fst _ (k, b)).
Qed.

(** * Structural sharing in [applyPatch] *)

Module HeapFacts.
Import Heap.

(** ** The properties of a string are strings and numbers *)

Lemma str_get_prim s k : exists p, default undefined (str_get s k) = Prim p.
Proof.
  unfold str_get. destruct (asIndex k); [destruct (String.get _ s)|case_decide];
    simpl; eauto.
Qed.

Lemma units_prim i s w : w ∈ (units i s).*2 -> exists p, w = Prim p.
Proof.
  revert i. induction s as [|c tl IH]; intros i; simpl.
  - by intros ?%elem_of_nil.
  - rewrite elem_of_cons. intros [->|H]; [by eexists|by eapply IH].
Qed.

(** ** The values an object holds *)

Lemma prop_set_values {A} k (v v' : A) (ps : props A) :
  v' ∈ (prop_set k v ps).*2 -> v' = v \/ v' ∈ ps.*2.
Proof.
  induction ps as [|[k0 v0] tl IH]; simpl.
  - intros H. apply list_elem_of_singleton in H. by left.
  - case_decide; simpl; rewrite !elem_of_cons; intros [Hx|Hx]; auto.
    destruct (IH Hx); auto.
Qed.

Lemma prop_delete_values {A} k (v' : A) (ps : props A) :
  v' ∈ (prop_delete k ps).*2 -> v' ∈ ps.*2.
Proof.
  induction ps as [|[k0 v0] tl IH]; simpl; [done|].
  case_decide; simpl; rewrite !elem_of_cons; intros Hx; [auto|].
  destruct Hx; auto.
Qed.

Lemma prop_get_values {A} k (v : A) (ps : props A) :
  prop_get k ps = Some v -> v ∈ ps.*2.
Proof.
  intros H. apply prop_get_Some_In in H.
  by apply (list_elem_of_fmap_2 snd _ (k, v)).
Qed.

Lemma elem_of_insert_inv {A} (l : list A) i x y :
  y ∈ <[i := x]> l -> y = x \/ y ∈ l.
Proof.
  intros H. apply list_elem_of_lookup in H as [j Hj].
  apply list_lookup_insert_Some in Hj as [(_ & -> & _)|[_ Hj]]; [by left|].
  right. by eapply list_elem_of_lookup_2.
Qed.

Lemma slot_set_values {A} i (v v' : A) xs :
  v' ∈ omap id (slot_set i v xs) -> v' = v \/ v' ∈ omap id xs.
Proof.
  rewrite !list_elem_of_omap. intros (slot & Hin & Hslot). simpl in Hslot. subst slot.
  unfold slot_set in Hin. case_decide.
  - apply elem_of_insert_inv in Hin as [[= ->]|Hin]; [by left|].
    right. exists (Some v'). done.
  - rewrite !elem_of_app in Hin. destruct Hin as [Hin|[Hin|Hin]].
    + right. by exists (Some v').
    + by apply elem_of_replicate in Hin as [? _].
    + apply list_elem_of_singleton in Hin as [= ->]. by left.
Qed.

Lemma slot_delete_values {A} i (v' : A) xs :
  v' ∈ omap id (slot_delete i xs) -> v' ∈ omap id xs.
Proof.
  rewrite !list_elem_of_omap. intros (slot & Hin & Hslot). simpl in Hslot. subst slot.
  apply elem_of_insert_inv in Hin as [?|Hin]; [done|]. by exists (Some v').
Qed.

Lemma slot_get_values {A} i (v : A) xs : slot_get i xs = Some v -> v ∈ omap id xs.
Proof.
  unfold slot_get. destruct (xs !! i) as [[x|]|] eqn:Hi; simpl; try done.
  intros [= ->]. apply list_elem_of_omap. exists (Some v).
  split; [|done]. by eapply list_elem_of_lookup_2.
Qed.

Lemma indexed_values {A} i (xs : list (option A)) : (indexed i xs).*2 = omap id xs.
Proof.
  revert i. induction xs as [|[x|] tl IH]; intros i; simpl; [done| |apply IH].
  f_equal. apply IH.
Qed.

Lemma obj_set_values o k v v' :
  v' ∈ values (obj_set o k v) -> v' = v \/ v' ∈ values o.
Proof.
  destruct o as [xs named|fs]; simpl.
  - destruct (asIndex k); simpl; rewrite !elem_of_app; intros [H|H]; auto.
    + apply slot_set_values in H as [?|?]; auto.
    + apply prop_set_values in H as [?|?]; auto.
  - apply prop_set_values.
Qed.

Lemma obj_delete_values o k v' : v' ∈ values (obj_delete o k) -> v' ∈ values o.
Proof.
  destruct o as [xs named|fs]; simpl.
  - destruct (asIndex k); simpl; rewrite !elem_of_app; intros [H|H]; auto.
    + left. by eapply slot_delete_values.
    + right. by eapply prop_delete_values.
  - apply prop_delete_values.
Qed.

Lemma obj_get_values o k v : obj_get o k = Some v -> v ∈ values o.
Proof.
  destruct o as [xs named|fs]; simpl.
  - destruct (asIndex k); rewrite elem_of_app; intros H.
    + left. by eapply slot_get_values.
    + right. by eapply prop_get_values.
  - apply prop_get_values.
Qed.

Lemma own_values o v : v ∈ (own o).*2 -> v ∈ values o.
Proof.
  destruct o as [xs named|fs]; simpl; [|done].
  by rewrite fmap_app, indexed_values.
Qed.

Lemma without_tombstones_values xs v :
  v ∈ omap id (without_tombstones xs) -> v ∈ omap id xs.
Proof.
  unfold without_tombstones. rewrite list_elem_of_omap.
  intros (slot & Hin & Hslot). simpl in Hslot. subst slot.
  apply list_elem_of_fmap in Hin as (v0 & [= <-] & Hin).
  by apply list_elem_of_filter in Hin as [_ ?].
Qed.

Lemma closed_values h l o x :
  closed h = true -> h !! l = Some o -> Ref x ∈ values o -> (x < length h)%nat.
Proof.
  unfold closed. rewrite forallb_forall. intros Hc Hl Hx.
  specialize (Hc o). rewrite <- list_elem_of_In in Hc.
  specialize (Hc (list_elem_of_lookup_2 _ _ _ Hl)).
  rewrite forallb_forall in Hc. specialize (Hc (Ref x)).
  rewrite <- list_elem_of_In in Hc. specialize (Hc Hx). simpl in Hc.
  by apply bool_decide_eq_true_1 in Hc.
Qed.

Lemma patch_closed_values h patch d x :
  patch_closed h patch = true -> d ∈ patch -> Ref x ∈ values_of d ->
  (x < length h)%nat.
Proof.
  unfold patch_closed. rewrite forallb_forall. intros Hc Hd Hx.
  specialize (Hc d). rewrite <- list_elem_of_In in Hc. specialize (Hc Hd).
  rewrite forallb_forall in Hc. specialize (Hc (Ref x)).
  rewrite <- list_elem_of_In in Hc. specialize (Hc Hx). simpl in Hc.
  by apply bool_decide_eq_true_1 in Hc.
Qed.

(** ** The copies of the root and of its child stay apart *)

Section sharing.
Variables (n0 n1 : loc) (a d : Key) (vd : val).

Local Abbreviation good := (off_spine n0 n1).
Local Abbreviation Inv := (spine n0 n1 a d vd).

Lemma good_prim v : good (Prim v).
Proof. by split. Qed.

Lemma good_symbol : good RemoveSymbol.
Proof. by split. Qed.

Lemma spine_bounds h : Inv h -> (n0 < length h)%nat /\ (n1 < length h)%nat.
Proof.
  intros (_ & (f0 & H0 & _) & (f1 & H1 & _) & _).
  split; by eapply lookup_lt_Some.
Qed.

Lemma good_fresh h : Inv h -> good (Ref (length h)).
Proof.
  intros H. apply spine_bounds in H as [H0 H1].
  split; intros [= Heq]; lia.
Qed.

Lemma read_good h t k v : Inv h -> t ≠ Ref n0 -> read h t k = Some v -> good v.
Proof.
  intros (_ & _ & _ & Hvals) Ht Hread.
  destruct t as [p|l|]; simpl in Hread.
  - destruct p; try done; injection Hread as <-; try apply good_prim.
    destruct (str_get_prim s k) as [p ->]. apply good_prim.
  - destruct (h !! l) as [o|] eqn:Hl; simpl in Hread; [|done].
    injection Hread as <-. destruct (obj_get o k) as [v|] eqn:Hget; simpl.
    + apply obj_get_values in Hget. split; intros ->.
      * by destruct (Hvals l o n0 Hl Hget).
      * destruct (Hvals l o n1 Hl Hget) as [_ H]. apply Ht. f_equal. by apply H.
    + apply good_prim.
  - injection Hread as <-. apply good_prim.
Qed.

Lemma write_spine h t k v h' :
  Inv h -> good t -> good v -> write h t k v = Some h' -> Inv h'.
Proof.
  intros (Hne & (f0 & H0 & Ha) & (f1 & H1 & Hd) & Hvals) [Ht0 Ht1] [Hv0 Hv1] Hw.
  destruct t as [|l|]; simpl in Hw; try done.
  destruct (h !! l) as [o|] eqn:Hl; simpl in Hw; [|done]. injection Hw as <-.
  assert (l ≠ n0) by congruence. assert (l ≠ n1) by congruence.
  split; [done|]. split; [|split].
  - exists f0. by rewrite list_lookup_insert_ne.
  - exists f1. by rewrite list_lookup_insert_ne.
  - intros l' o' x Hl' Hx.
    apply list_lookup_insert_Some in Hl' as [(<- & <- & _)|[_ Hl']];
      [|by apply (Hvals l' o')].
    apply obj_set_values in Hx as [<-|Hx]; [|by apply (Hvals l o)].
    split; [congruence|]. intros ->. done.
Qed.

(** Writing into the copy [n1], at a key other than [d]. *)
Lemma write_child_spine h k v h' :
  Inv h -> good v -> toKey k ≠ toKey d -> write h (Ref n1) k v = Some h' -> Inv h'.
Proof.
  intros (Hne & (f0 & H0 & Ha) & (f1 & H1 & Hd) & Hvals) [Hv0 Hv1] Hk Hw.
  simpl in Hw. rewrite H1 in Hw. simpl in Hw. injection Hw as <-.
  split; [done|]. split; [|split].
  - exists f0. by rewrite list_lookup_insert_ne.
  - exists (prop_set (toKey k) v f1). split.
    + rewrite list_lookup_insert_eq; [done|]. by eapply lookup_lt_Some.
    + rewrite prop_get_set_ne; [done|congruence].
  - intros l' o' x Hl' Hx.
    apply list_lookup_insert_Some in Hl' as [(<- & <- & _)|[_ Hl']];
      [|by apply (Hvals l' o')].
    apply (obj_set_values (OObj f1)) in Hx as [<-|Hx];
      [|by apply (Hvals n1 (OObj f1))].
    split; [congruence|]. intros ->. done.
Qed.

Lemma delete_spine h t k h' : Inv h -> good t -> delete h t k = Some h' -> Inv h'.
Proof.
  intros (Hne & (f0 & H0 & Ha) & (f1 & H1 & Hd) & Hvals) [Ht0 Ht1] Hw.
  assert (Inv h) as Hinv by (split_and!; eauto).
  destruct t as [p|l|]; simpl in Hw.
  - destruct p; try done; try by injection Hw as <-.
    destruct (str_get s k); [done|by injection Hw as <-].
  - destruct (h !! l) as [o|] eqn:Hl; simpl in Hw; [|done]. injection Hw as <-.
    assert (l ≠ n0) by congruence. assert (l ≠ n1) by congruence.
    split; [done|]. split; [|split].
    + exists f0. by rewrite list_lookup_insert_ne.
    + exists f1. by rewrite list_lookup_insert_ne.
    + intros l' o' x Hl' Hx.
      apply list_lookup_insert_Some in Hl' as [(<- & <- & _)|[_ Hl']];
        [|by apply (Hvals l' o')].
      apply obj_delete_values in Hx. by apply (Hvals l o).
  - by injection Hw as <-.
Qed.

Lemma alloc_spine h o :
  Inv h -> (forall v, v ∈ values o -> good v) -> Inv (h ++ [o]).
Proof.
  intros Hinv Ho. pose proof (spine_bounds h Hinv) as [Hb0 Hb1].
  destruct Hinv as (Hne & (f0 & H0 & Ha) & (f1 & H1 & Hd) & Hvals).
  split; [done|]. split; [|split].
  - exists f0. by rewrite lookup_app_l.
  - exists f1. by rewrite lookup_app_l.
  - intros l' o' x Hl' Hx. apply lookup_snoc_Some in Hl' as [[_ Hl']|[-> <-]].
    + by apply (Hvals l' o').
    + destruct (Ho _ Hx) as [Hx0 Hx1]. split; [congruence|]. intros ->. done.
Qed.

(** [Object.assign({}, old)] of a value off the spine. *)
Lemma copy_spine h old :
  Inv h -> good old ->
  Inv (assign_to_empty h old).2 /\ good (assign_to_empty h old).1.
Proof.
  intros Hinv Hold. split; [|by apply good_fresh].
  apply alloc_spine; [done|]. intros v Hv. simpl in Hv.
  destruct old as [p|l|]; simpl in Hv; try by apply elem_of_nil in Hv.
  { destruct p; try by apply elem_of_nil in Hv.
    apply units_prim in Hv as [p ->]. apply good_prim. }
  destruct (h !! l) as [o|] eqn:Hl; [|by apply elem_of_nil in Hv].
  apply own_values in Hv. destruct Hinv as (_ & _ & _ & Hvals).
  destruct Hold as [Hl0 Hl1].
  split; intros ->.
  - by destruct (Hvals l o n0 Hl Hv).
  - destruct (Hvals l o n1 Hl Hv) as [_ H]. apply Hl0. f_equal. by apply H.
Qed.

Lemma walk_spine steps h refs t h' refs' t' :
  Inv h -> good t -> walk h refs t steps = Some (h', refs', t') ->
  Inv h' /\ good t' /\ (forall k, k ∈ refs -> k ∈ refs').
Proof.
  revert h refs t. induction steps as [|step rest IH]; intros h refs t Hinv Ht Hw.
  - simpl in Hw. injection Hw as <- <- <-. done.
  - cbn [walk] in Hw. destruct (decide (step ∈ refs)) as [Hin|Hin]; simpl in Hw.
    + destruct (read h t step) as [t1|] eqn:Hr; simpl in Hw; [|done].
      apply (IH h refs t1); [done| |done].
      eapply read_good; [done| |done]. apply Ht.
    + destruct (read h t step) as [old|] eqn:Hr; simpl in Hw; [|done].
      assert (good old) as Hold by (eapply read_good; [done|apply Ht|done]).
      destruct (copy_spine h old Hinv Hold) as [Hinv1 Hcopy].
      simpl in Hinv1, Hcopy.
      destruct (write _ t step _) as [h2|] eqn:Hwr; simpl in Hw; [|done].
      assert (Inv h2) as Hinv2
        by (eapply write_spine; [exact Hinv1|exact Ht|exact Hcopy|exact Hwr]).
      destruct (read h2 t step) as [t1|] eqn:Hr2; simpl in Hw; [|done].
      destruct (IH h2 (step :: refs) t1) as (H1 & H2 & H3); [done| |done|].
      * eapply read_good; [done|apply Ht|done].
      * split_and!; [done|done|]. intros k Hk. apply H3. by apply list_elem_of_further.
Qed.

(** The second step of a path, taken from the copy [n1]. *)
Lemma walk_child_spine b rest h refs h' refs' t' :
  Inv h -> toKey b ≠ toKey d ->
  walk h refs (Ref n1) (b :: rest) = Some (h', refs', t') ->
  Inv h' /\ good t' /\ (forall k, k ∈ refs -> k ∈ refs').
Proof.
  intros Hinv Hb Hw. assert (Ref n1 ≠ Ref n0) as Hne.
  { destruct Hinv as (Hne & _). congruence. }
  cbn [walk] in Hw. destruct (decide (b ∈ refs)) as [Hin|Hin].
  - cbn [mbind option_bind] in Hw.
    destruct (read h (Ref n1) b) as [t1|] eqn:Hr; [|done].
    eapply walk_spine; [done| |done]. by eapply read_good.
  - destruct (read h (Ref n1) b) as [old|] eqn:Hr; [|done].
    cbn [mbind option_bind] in Hw.
    assert (good old) as Hold by (by eapply read_good).
    destruct (copy_spine h old Hinv Hold) as [Hinv1 Hcopy].
    simpl in Hinv1, Hcopy.
    change (assign_to_empty h old)
      with (Ref (length h), h ++ [OObj (own_of h old)]) in Hw.
    cbn beta iota in Hw.
    destruct (write (h ++ [OObj (own_of h old)]) (Ref n1) b (Ref (length h)))
      as [h2|] eqn:Hwr; [|done].
    assert (Inv h2) as Hinv2
      by (eapply write_child_spine; [exact Hinv1|exact Hcopy|exact Hb|exact Hwr]).
    cbn [mbind option_bind] in Hw.
    destruct (read h2 (Ref n1) b) as [t1|] eqn:Hr2; [|done].
    destruct (walk_spine rest h2 (b :: refs) t1 h' refs' t') as (H1 & H2 & H3);
      [done| |done|].
    + by eapply read_good.
    + split_and!; [done|done|]. intros k Hk. apply H3. by apply list_elem_of_further.
Qed.

(** A path that starts with [a], once [a] has been copied. *)
Lemma walk_root_spine b rest h refs h' refs' t' :
  Inv h -> a ∈ refs -> toKey b ≠ toKey d ->
  walk h refs (Ref n0) (a :: b :: rest) = Some (h', refs', t') ->
  Inv h' /\ good t' /\ (forall k, k ∈ refs -> k ∈ refs').
Proof.
  intros Hinv Ha Hb Hw. cbn [walk] in Hw. rewrite decide_True in Hw by done.
  assert (read h (Ref n0) a = Some (Ref n1)) as Hr.
  { destruct Hinv as (_ & (f0 & H0 & Hf0) & _). simpl. rewrite H0. simpl.
    by rewrite Hf0. }
  simpl in Hw, Hr. rewrite Hr in Hw. simpl in Hw.
  by eapply walk_child_spine.
Qed.

Lemma applyItem_spine item b c h refs dq h' refs' dq' :
  Inv h -> a ∈ refs -> toKey b ≠ toKey d ->
  Forall (fun q : val * option Key => good q.1) dq ->
  (exists rest, path_of item = [a; b; c] ++ rest) ->
  (forall v, v ∈ values_of item -> good v) ->
  applyItem (Ref n0) (h, refs, dq) item = Some (h', refs', dq') ->
  Inv h' /\ a ∈ refs' /\ Forall (fun q : val * option Key => good q.1) dq'.
Proof.
  intros Hinv Ha Hb Hdq [rest Hpath] Hvals Hitem. unfold applyItem in Hitem.
  rewrite Hpath in Hitem.
  change (removelast ([a; b; c] ++ rest)) with (a :: b :: removelast (c :: rest))
    in Hitem.
  destruct (walk h refs (Ref n0) (a :: b :: removelast (c :: rest)))
    as [[[h1 refs1] t]|] eqn:Hw; simpl in Hitem; [|done].
  destruct (walk_root_spine _ _ _ _ _ _ _ Hinv Ha Hb Hw) as (Hinv1 & Ht & Hrefs).
  destruct item as [p v|p v o|p o]; simpl in Hitem.
  - destruct (write h1 t _ v) as [h2|] eqn:Hwr; simpl in Hitem; [|done].
    injection Hitem as <- <- <-. split_and!; [|by apply Hrefs|done].
    eapply write_spine; [done|done| |done]. apply Hvals. apply list_elem_of_here.
  - destruct (write h1 t _ v) as [h2|] eqn:Hwr; simpl in Hitem; [|done].
    injection Hitem as <- <- <-. split_and!; [|by apply Hrefs|done].
    eapply write_spine; [done|done| |done]. apply Hvals. apply list_elem_of_here.
  - destruct (isArray h1 t).
    + destruct (write h1 t _ RemoveSymbol) as [h2|] eqn:Hwr; simpl in Hitem; [|done].
      injection Hitem as <- <- <-. split_and!; [|by apply Hrefs|].
      * eapply write_spine; [done|done|apply good_symbol|done].
      * apply Forall_app_2; [done|]. by constructor.
    + destruct (delete h1 t _) as [h2|] eqn:Hdel; simpl in Hitem; [|done].
      injection Hitem as <- <- <-. split_and!; [|by apply Hrefs|done].
      by eapply delete_spine.
Qed.

Lemma fold_items_spine items b c h refs dq h' refs' dq' :
  Inv h -> a ∈ refs -> toKey b ≠ toKey d ->
  Forall (fun q : val * option Key => good q.1) dq ->
  below [a; b; c] items ->
  (forall item v, item ∈ items -> v ∈ values_of item -> good v) ->
  foldM (applyItem (Ref n0)) (h, refs, dq) items = Some (h', refs', dq') ->
  Inv h' /\ Forall (fun q : val * option Key => good q.1) dq'.
Proof.
  revert h refs dq.
  induction items as [|item items IH]; intros h refs dq Hinv Ha Hb Hdq Hbelow Hvals Hf.
  - simpl in Hf. by injection Hf as <- <- <-.
  - cbn [foldM] in Hf. apply Forall_cons in Hbelow as [Hitem Hbelow].
    destruct (applyItem (Ref n0) (h, refs, dq) item) as [[[h1 refs1] dq1]|] eqn:Hi;
      cbn [mbind option_bind] in Hf; [|done].
    destruct (applyItem_spine item b c h refs dq h1 refs1 dq1) as (Hinv1 & Ha1 & Hdq1);
      [done|done|done|done|done| |done|].
    { intros v Hv. apply (Hvals item); [apply list_elem_of_here|done]. }
    apply (IH h1 refs1 dq1); try done.
    intros item' v Hin Hv. apply (Hvals item'); [by apply list_elem_of_further|done].
Qed.

Lemma runDeletion_spine h q h' :
  Inv h -> good q.1 -> runDeletion h q = Some h' -> Inv h'.
Proof.
  intros Hinv Hq Hrun. destruct q as [t key]. unfold runDeletion in Hrun. simpl in *.
  assert (forall l xs named v, h !! l = Some (OArr xs named) ->
            v ∈ values (OArr (without_tombstones xs) []) -> good v) as Hfiltered.
  { intros l xs named v Hl Hv. simpl in Hv. rewrite app_nil_r in Hv.
    apply without_tombstones_values in Hv.
    destruct Hinv as (_ & (f0 & H0 & _) & _ & Hvals).
    assert (v ∈ values (OArr xs named)) as Hv' by (simpl; apply elem_of_app; auto).
    split; intros ->.
    - by destruct (Hvals l _ n0 Hl Hv').
    - destruct (Hvals l _ n1 Hl Hv') as [_ H]. specialize (H eq_refl).
      rewrite H, H0 in Hl. done. }
  destruct key as [key|].
  - destruct (read h t key) as [v|] eqn:Hr; simpl in Hrun; [|done].
    destruct v as [|l|]; try done.
    destruct (h !! l) as [[xs named|]|] eqn:Hl; try done.
    simpl in Hrun.
    eapply write_spine; [| | |exact Hrun]; [|done|by apply good_fresh].
    apply alloc_spine; [done|]. intros v Hv. by apply (Hfiltered l xs named).
  - destruct t as [|l|]; try done.
    destruct (h !! l) as [[xs named|]|] eqn:Hl; try done.
    injection Hrun as <-. simpl.
    apply alloc_spine; [done|]. intros v Hv. by apply (Hfiltered l xs named).
Qed.

Lemma fold_deletions_spine dq h h' :
  Inv h -> Forall (fun q : val * option Key => good q.1) dq ->
  foldM runDeletion h dq = Some h' -> Inv h'.
Proof.
  revert h. induction dq as [|q dq IH]; intros h Hinv Hdq Hf; cbn [foldM] in Hf.
  - by injection Hf as <-.
  - apply Forall_cons in Hdq as [Hq Hdq].
    destruct (runDeletion h q) as [h1|] eqn:Hr; cbn [mbind option_bind] in Hf; [|done].
    apply (IH h1); [|done|done]. by eapply runDeletion_spine.
Qed.

Lemma spine_read h : Inv h -> readPath h (Ref n0) [a; d] = Some vd.
Proof.
  intros (_ & (f0 & H0 & Hf0) & (f1 & H1 & Hf1) & _).
  simpl. rewrite H0. simpl. rewrite Hf0. simpl. rewrite H1. simpl.
  by rewrite Hf1.
Qed.

End sharing.

(** The heap after [applyPatch] has copied the root and, for the first
    path, the child under [a]. *)
Lemma spine_init h fs0 fsa a d vd :
  closed h = true ->
  (forall v, v ∈ fs0.*2 -> ref_below (length h) v = true) ->
  (forall v, v ∈ fsa.*2 -> ref_below (length h) v = true) ->
  prop_get (toKey d) fsa = Some vd ->
  spine (length h) (S (length h)) a d vd
    (<[length h := OObj (prop_set (toKey a) (Ref (S (length h))) fs0)]>
       ((h ++ [OObj fs0]) ++ [OObj fsa])).
Proof.
  intros Hclosed Hfs0 Hfsa Hd.
  assert (forall v x, ref_below (length h) v = true -> v = Ref x ->
                      x ≠ length h /\ x ≠ S (length h)) as Hbelow.
  { intros v x Hv ->. simpl in Hv. apply bool_decide_eq_true_1 in Hv. lia. }
  split; [lia|]. split; [|split].
  - eexists. split; [|apply prop_get_set_eq].
    apply list_lookup_insert_eq. rewrite !length_app. simpl. lia.
  - exists fsa. split; [|done].
    rewrite list_lookup_insert_ne by lia.
    replace (S (length h)) with (length (h ++ [OObj fs0]) + 0)%nat
      by (rewrite length_app; simpl; lia).
    by rewrite lookup_app_r, Nat.add_comm, Nat.add_sub by lia.
  - intros l o x Hl Hx.
    apply list_lookup_insert_Some in Hl as [(<- & <- & _)|[Hne Hl]].
    + apply (prop_set_values (toKey a) (Ref (S (length h)))) in Hx as [[= ->]|Hx].
      * split; [lia|done].
      * destruct (Hbelow _ x (Hfs0 _ Hx) eq_refl). split; [done|]. lia.
    + apply lookup_snoc_Some in Hl as [[_ Hl]|[_ <-]].
      * apply lookup_snoc_Some in Hl as [[_ Hl]|[Hl' _]].
        -- pose proof (closed_values h l o x Hclosed Hl Hx). split; lia.
        -- lia.
      * destruct (Hbelow _ x (Hfsa _ Hx) eq_refl). split; [done|]. lia.
Qed.

Lemma closed_object h l fs v :
  closed h = true -> h !! l = Some (OObj fs) -> v ∈ fs.*2 ->
  ref_below (length h) v = true.
Proof.
  intros Hc Hl Hv. destruct v as [|x|]; try done. simpl.
  apply bool_decide_eq_true_2. by apply (closed_values h l (OObj fs) x).
Qed.

(** The first path copies the child under [a]; from then on the heap is as
    if the copy had been there before. *)
Lemma first_copy h l0 fs0 la fsa a b c rest item dq :
  h !! l0 = Some (OObj fs0) -> prop_get (toKey a) fs0 = Some (Ref la) ->
  h !! la = Some (OObj fsa) ->
  path_of item = [a; b; c] ++ rest ->
  applyItem (Ref (length h)) (h ++ [OObj fs0], [], dq) item
  = applyItem (Ref (length h))
      (<[length h := OObj (prop_set (toKey a) (Ref (S (length h))) fs0)]>
         ((h ++ [OObj fs0]) ++ [OObj fsa]), [a], dq) item.
Proof.
  intros Hl0 Ha Hla Hpath. unfold applyItem. rewrite Hpath.
  change (removelast ([a; b; c] ++ rest)) with (a :: b :: removelast (c :: rest)).
  set (steps := b :: removelast (c :: rest)).
  set (h1 := <[length h := _]> _).
  assert (walk (h ++ [OObj fs0]) [] (Ref (length h)) (a :: steps)
          = walk h1 [a] (Ref (S (length h))) steps) as ->.
  { cbn [walk]. rewrite decide_False by apply not_elem_of_nil.
    assert (read (h ++ [OObj fs0]) (Ref (length h)) a = Some (Ref la)) as ->.
    { simpl. rewrite lookup_app_r, Nat.sub_diag by lia. simpl. by rewrite Ha. }
    cbn [mbind option_bind].
    assert (assign_to_empty (h ++ [OObj fs0]) (Ref la)
            = (Ref (S (length h)), (h ++ [OObj fs0]) ++ [OObj fsa])) as ->.
    { unfold assign_to_empty, alloc. simpl.
      rewrite lookup_app_l by (by eapply lookup_lt_Some). rewrite Hla. simpl.
      rewrite length_app. simpl. do 2 f_equal. lia. }
    assert (write ((h ++ [OObj fs0]) ++ [OObj fsa]) (Ref (length h)) a
              (Ref (S (length h))) = Some h1) as ->.
    { simpl. rewrite lookup_app_l by (rewrite length_app; simpl; lia).
      rewrite lookup_app_r, Nat.sub_diag by lia. done. }
    cbn [mbind option_bind].
    assert (read h1 (Ref (length h)) a = Some (Ref (S (length h)))) as ->.
    { simpl. unfold h1. rewrite list_lookup_insert_eq
        by (rewrite !length_app; simpl; lia).
      simpl. by rewrite prop_get_set_eq. }
    done. }
  assert (walk h1 [a] (Ref (length h)) (a :: steps)
          = walk h1 [a] (Ref (S (length h))) steps) as ->; [|done].
  cbn [walk]. rewrite decide_True by apply list_elem_of_here.
  cbn [mbind option_bind].
  assert (read h1 (Ref (length h)) a = Some (Ref (S (length h)))) as ->; [|done].
  simpl. unfold h1. rewrite list_lookup_insert_eq
    by (rewrite !length_app; simpl; lia).
  simpl. by rewrite prop_get_set_eq.
Qed.

(** [applyPatch] shares what it does not touch: for a patch below [a.b.c],
    the value under [a.d] in the result is the value, and so the same
    reference, that [target] has under [a.d]. *)
Theorem applyPatch_keeps_sibling h l0 fs0 la fsa a b c d vd patch next h' :
  closed h = true -> patch_closed h patch = true -> below [a; b; c] patch ->
  h !! l0 = Some (OObj fs0) -> prop_get (toKey a) fs0 = Some (Ref la) ->
  h !! la = Some (OObj fsa) -> prop_get (toKey d) fsa = Some vd ->
  toKey b ≠ toKey d ->
  applyPatch h (Ref l0) patch = Some (next, h') ->
  readPath h' next [a; d] = Some vd.
Proof.
  intros Hclosed Hpatch Hbelow Hl0 Ha Hla Hd Hbd Happly.
  unfold applyPatch in Happly. simpl isArray in Happly. rewrite Hl0 in Happly.
  assert (assign_to_empty h (Ref l0) = (Ref (length h), h ++ [OObj fs0])) as Hroot.
  { unfold assign_to_empty, alloc. simpl. by rewrite Hl0. }
  rewrite Hroot in Happly.
  destruct patch as [|item items].
  - simpl in Happly. injection Happly as <- <-. simpl.
    rewrite lookup_app_r, Nat.sub_diag by lia. simpl. rewrite Ha. simpl.
    rewrite lookup_app_l by (by eapply lookup_lt_Some). rewrite Hla. simpl.
    by rewrite Hd.
  - pose proof Hbelow as Hbelow'. apply Forall_cons in Hbelow' as [[rest Hpath] _].
    set (h1 := <[length h := OObj (prop_set (toKey a) (Ref (S (length h))) fs0)]>
                 ((h ++ [OObj fs0]) ++ [OObj fsa])).
    assert (foldM (applyItem (Ref (length h))) (h ++ [OObj fs0], [], [])
              (item :: items)
            = foldM (applyItem (Ref (length h))) (h1, [a], []) (item :: items))
      as Hfirst.
    { cbn [foldM]. by rewrite (first_copy h l0 fs0 la fsa a b c rest item []). }
    cbn beta iota zeta in Happly. rewrite Hfirst in Happly.
    destruct (foldM (applyItem (Ref (length h))) (h1, [a], []) (item :: items))
      as [[[h2 refs2] dq2]|] eqn:Hfold; cbn [mbind option_bind] in Happly; [|done].
    destruct (foldM runDeletion h2 dq2) as [h3|] eqn:Hdel;
      cbn [mbind option_bind] in Happly; [|done].
    injection Happly as <- <-.
    assert (spine (length h) (S (length h)) a d vd h1) as Hinv.
    { apply spine_init; [done| | |done]; intros v Hv.
      - by apply (closed_object h l0 fs0).
      - by apply (closed_object h la fsa). }
    destruct (fold_items_spine (length h) (S (length h)) a d vd (item :: items) b c
                h1 [a] [] h2 refs2 dq2) as [Hinv2 Hdq2];
      [done|apply list_elem_of_here|done|done|done| |done|].
    { intros item' v Hin Hv. destruct v as [|x|]; try done.
      pose proof (patch_closed_values h _ item' x Hpatch Hin Hv).
      split; intros [= ->]; lia. }
    apply (spine_read (length h) (S (length h)) a d vd).
    by apply (fold_deletions_spine _ _ _ _ _ dq2 h2).
Qed.

(** C8, as the code has it.  [LiquorStore.mutate] builds the next state
    from [current] with [applyPatch].  Take a call that does not raise, on a
    state whose root and whose child [a] are plain objects, and in which the
    differ reports differences at or below [a.b.c] only.  Then the value
    under [a.d] in the new [current] is the value, and so the same
    reference, that the old [current] has under [a.d], and the old
    [current] is kept as [prev]. *)
Theorem mutate_shares_sibling mutator h s l0 fs0 la fsa a b c d vd
    draft h1 h2 patch h' s' :
  current s = Ref l0 ->
  cloneDeep h (Ref l0) = Some (draft, h1) ->
  mutator draft h1 = Some h2 ->
  diff (length h2) h2 (Ref l0) draft = Some patch ->
  below [a; b; c] patch ->
  closed h2 = true -> patch_closed h2 patch = true ->
  h2 !! l0 = Some (OObj fs0) -> prop_get (toKey a) fs0 = Some (Ref la) ->
  h2 !! la = Some (OObj fsa) -> prop_get (toKey d) fsa = Some vd ->
  toKey b ≠ toKey d ->
  LiquorStore.mutate mutator h s = Some (h', s') ->
  readPath h2 (current s) [a; d] = Some vd
  /\ readPath h' (current s') [a; d] = Some vd
  /\ prev s' = current s.
Proof.
  intros Hcur Hclone Hmut Hdiff Hbelow Hclosed Hpatch Hl0 Ha Hla Hd Hbd Hrun.
  destruct s as [sprev scur sptr shist spaused sdirty slis scalls].
  cbn [current] in Hcur. subst scur.
  unfold LiquorStore.mutate in Hrun. cbn [current] in Hrun.
  rewrite Hclone in Hrun. cbn [mbind option_bind] in Hrun.
  rewrite Hmut in Hrun. cbn [mbind option_bind] in Hrun.
  rewrite Hdiff in Hrun. cbn [mbind option_bind] in Hrun.
  destruct (applyPatch h2 (Ref l0) patch) as [[next h3]|] eqn:Happly;
    cbn [mbind option_bind] in Hrun; [|done].
  injection Hrun as <- <-.
  assert (readPath h3 next [a; d] = Some vd) as Hnext
    by (by apply (applyPatch_keeps_sibling h2 l0 fs0 la fsa a b c d vd patch)).
  split_and!.
  - simpl. rewrite Hl0. simpl. rewrite Ha. simpl. rewrite Hla. simpl.
    by rewrite Hd.
  - by destruct spaused, sdirty.
  - by destruct spaused, sdirty.
Qed.

End HeapFacts.

(** * The claims about the store *)

Section store_claims.
Variable diff : Node -> Node -> Patch.

Lemma didChange_notified s : notified s (didChange diff s).
Proof. unfold notified, didChange. by destruct (isPaused s). Qed.

Lemma mutate_unpaused m s :
  isPaused s = false ->
  mutate diff m s
  = notifySubscribers
      (commit (diff (current s) (m (Lodash.cloneDeep (current s))))
         (with_current (m (Lodash.cloneDeep (current s)))
            (with_prev (current s) s))).
Proof. intros Hp. unfold mutate, didChange, willChange. rewrite Hp. simpl. by rewrite Hp. Qed.

Lemma redo_unpaused_noop s :
  isPaused s = false -> canRedo s = false -> redo diff s = Some s.
Proof. intros Hp Hr. unfold redo. rewrite Hp. simpl. by rewrite Hr. Qed.

Lemma undo_unpaused_noop s :
  isPaused s = false -> canUndo s = false -> undo diff s = Some s.
Proof. intros Hp Hr. unfold undo. rewrite Hp. by rewrite Hr. Qed.

Lemma undo_unpaused_step s p :
  isPaused s = false -> 0 <= pointer s ->
  entry_at (history s) (pointer s) = Some p ->
  undo diff s
  = Some (notifySubscribers
            (with_current (fold_left undoItem p (Lodash.cloneDeep (current s)))
               (with_prev (current s) (with_pointer (pointer s - 1) s)))).
Proof.
  intros Hp Hptr He. unfold undo. rewrite Hp, canUndo_pointer.
  rewrite bool_decide_eq_true_2 by done. simpl. by rewrite He.
Qed.

Lemma mutate_commits m s :
  isPaused s = false -> -1 <= pointer s ->
  let s' := mutate diff m s in
  history s'
  = take (Z.to_nat (pointer s + 1)) (history s)
      ++ [diff (current s) (current s')]
  /\ pointer s' = pointer s + 1
  /\ canRedo s' = false
  /\ redo diff s' = Some s'.
Proof.
  intros Hp Hptr s'. subst s'. rewrite (mutate_unpaused m s Hp).
  match goal with |- context [redo diff ?x] => set (s' := x) end.
  assert (canRedo s' = false) as Hredo.
  { unfold canRedo, s', commit, splice_history. simpl.
    apply bool_decide_eq_false_2. rewrite length_app, length_take. simpl. lia. }
  split_and!; [done|done|done|].
  by apply redo_unpaused_noop.
Qed.

(** C4.  A commit made while the pointer is before the end of the history
    drops every entry after the pointer; after three commits, two undos
    and one more commit the history holds the first entry and the new
    one, nothing can be redone, and [redo] leaves the store as it is. *)
Theorem commit_truncates_redo_future :
  (forall s m,
      isPaused s = false -> -1 <= pointer s ->
      let s' := mutate diff m s in
      history s'
      = take (Z.to_nat (pointer s + 1)) (history s)
          ++ [diff (current s) (current s')]
      /\ pointer s' = pointer s + 1
      /\ canRedo s' = false
      /\ redo diff s' = Some s')
  /\ (forall initial m1 m2 m3 m,
         let s3 := mutate diff m3 (mutate diff m2 (mutate diff m1 (new initial))) in
         exists s4 s5,
           undo diff s3 = Some s4 /\ undo diff s4 = Some s5
           /\ pointer s5 = 0 /\ length (history s5) = 3%nat
           /\ let s6 := mutate diff m s5 in
              history s6 = take 1 (history s3) ++ [diff (current s5) (current s6)]
              /\ canRedo s6 = false
              /\ redo diff s6 = Some s6).
Proof.
  split; [intros s m; apply mutate_commits|].
  intros initial m1 m2 m3 m s3.
  destruct (undo_pointer_ok diff s3) as (s4 & Hu4 & Hok4).
  { do 3 apply mutate_pointer_ok. apply new_pointer_ok. }
  destruct (undo_pointer_ok diff s4 Hok4) as (s5 & Hu5 & Hok5).
  exists s4, s5. split; [done|]. split; [done|].
  assert (exists p, entry_at (history s3) (pointer s3) = Some p) as [p3 Hp3].
  { apply entry_at_Some. subst s3. simpl. lia. }
  rewrite (undo_unpaused_step s3 p3) in Hu4 by done.
  injection Hu4 as <-.
  assert (exists p, entry_at (history s3) 1 = Some p) as [p2 Hp2].
  { apply entry_at_Some. subst s3. simpl. lia. }
  rewrite (undo_unpaused_step _ p2) in Hu5 by done.
  injection Hu5 as <-.
  split; [done|]. split; [done|].
  match goal with |- let s6 := mutate diff m ?s in _ => set (s5 := s) end.
  destruct (mutate_commits m s5) as (H1 & H2 & H3 & H4); [done|simpl; lia|].
  intros s6. split_and!; [|done|done].
  subst s6. rewrite H1. done.
Qed.

(** C5.  [getCanUndo] looks at the pointer only: a store paused on a fresh
    history with a pending change reports that nothing can be undone,
    although [undo] then reverts that change. *)
Theorem canUndo_false_with_pending_change initial m :
  let s := mutate diff m (pause (new initial)) in
  isPaused s = true /\ didChangeWhilePaused s = true /\ pointer s = -1
  /\ getCanUndo s = false
  /\ (forall s', getCanUndo s' = bool_decide (0 <= pointer s')).
Proof.
  intros s. split_and!; try done. intros s'. apply canUndo_pointer.
Qed.

(** C6.  [redo] on a store paused with a pending change commits the
    change as [resume] would and returns at once: the store is still
    paused and no listener has been called. *)
Theorem redo_with_pending_change_stays_paused initial m :
  let s := mutate diff m (pause (new initial)) in
  isPaused s = true /\ didChangeWhilePaused s = true
  /\ exists s', redo diff s = Some s'
       /\ isPaused s' = true
       /\ isPaused (resume diff s) = false
       /\ history s' = history (resume diff s)
       /\ pointer s' = pointer (resume diff s)
       /\ calls s' = calls s.
Proof. intros s. split_and!; try done. eexists. split; [done|]. done. Qed.

Lemma resume_notified s : notified s (resume diff s).
Proof. unfold notified, resume. by destruct (didChangeWhilePaused s). Qed.

Lemma undo_result s :
  pointer_ok s ->
  exists s', undo diff s = Some s'
    /\ if canUndo (unpaused diff s) then notified s s' /\ pointer s' = pointer (unpaused diff s) - 1
       else s' = unpaused diff s.
Proof.
  intros H. apply (unpaused_pointer_ok diff) in H.
  unfold undo. fold (unpaused diff s).
  assert (listeners (unpaused diff s) = listeners s
          /\ calls (unpaused diff s) = calls s) as [Hl Hc].
  { unfold unpaused. by repeat case_match. }
  destruct (canUndo (unpaused diff s)) eqn:Hcan; simpl; [|by eauto].
  rewrite canUndo_pointer in Hcan. apply bool_decide_eq_true_1 in Hcan.
  destruct (entry_at_Some (history (unpaused diff s)) (pointer (unpaused diff s)))
    as [p Hp]; [unfold pointer_ok in H; lia|].
  rewrite Hp. eexists. split; [done|]. split; [|done].
  unfold notified. simpl. by rewrite Hl, Hc.
Qed.

Lemma redo_result s :
  pointer_ok s ->
  exists s', redo diff s = Some s'
    /\ if pending s then s' = fold_pending diff s
       else if canRedo s then notified s s' /\ pointer s' = pointer s + 1
            else s' = with_isPaused false s.
Proof.
  intros H. unfold redo, pending.
  destruct (isPaused s && didChangeWhilePaused s); [by eauto|].
  set (u := if isPaused s then with_isPaused false s else s).
  assert (u = with_isPaused false s) as ->.
  { unfold u. destruct s as [? ? ? ? [] ? ? ?]; done. }
  change (canRedo (with_isPaused false s)) with (canRedo s).
  destruct (canRedo s) eqn:Hcan; simpl; [|by eauto].
  unfold canRedo in Hcan. apply bool_decide_eq_true_1 in Hcan.
  destruct (entry_at_Some (history s) (pointer s + 1)) as [p Hp];
    [unfold pointer_ok in H; lia|].
  rewrite Hp. eexists. split; [done|]. done.
Qed.

(** C7, as the code has it.  [mutate] (whatever the mutator does),
    [setState], [replaceState], [pause] and [resume] call every
    subscribed listener once, after the new state is in place.  [undo] and
    [redo] call the listeners when they move through the history; on a
    store that is not paused, an [undo] with nothing to undo and a [redo]
    with nothing to redo return without calling anyone.  ([redo] is stated
    for a store with no change pending from a pause.) *)
Theorem listeners_called_after_publish s :
  pointer_ok s ->
  (forall m, notified s (mutate diff m s))
  /\ (forall p, notified s (setState diff p s))
  /\ (forall n, notified s (replaceState diff n s))
  /\ notified s (pause s)
  /\ notified s (resume diff s)
  /\ (exists s', undo diff s = Some s'
        /\ if canUndo (unpaused diff s) then notified s s'
           else isPaused s = false -> calls s' = calls s)
  /\ (pending s = false ->
      exists s', redo diff s = Some s'
        /\ if canRedo s then notified s s'
           else isPaused s = false -> calls s' = calls s).
Proof.
  intros Hok.
  assert (forall t, listeners t = listeners s -> calls t = calls s ->
                    notified s (didChange diff t)) as Hdid.
  { intros t Hl Hc. pose proof (didChange_notified t) as H.
    unfold notified in *. by rewrite <- Hl, <- Hc. }
  split_and!.
  - intros m. apply Hdid; simpl; apply willChange_ledger.
  - intros p. apply Hdid; simpl; apply willChange_ledger.
  - intros n. apply Hdid; simpl; apply willChange_ledger.
  - done.
  - apply resume_notified.
  - destruct (undo_result s Hok) as (s' & Hs' & H). exists s'. split; [done|].
    destruct (canUndo (unpaused diff s)); [apply H|]. intros _.
    subst s'. unfold unpaused. by repeat case_match.
  - intros Hpend. destruct (redo_result s Hok) as (s' & Hs' & H).
    exists s'. split; [done|]. rewrite Hpend in H.
    destruct (canRedo s); [apply H|]. intros _. by subst s'.
Qed.


(** C10.  [setState(p)] publishes a new top-level object: a key of [p]
    holds the value [p] gives it, whole, and any other key holds the value
    it had, untouched.  On a store that is not paused the call commits
    one history entry, the difference between the old and the new
    state.  On the heap, the object [{ ...current, ...p }] holds under a key
    that [p] lacks the very value, hence the same reference, that [current]
    holds there. *)
Theorem setState_shallow_merge s p :
  NoDup (spread p).*1 ->
  let s' := setState diff p s in
  (exists fs, current s' = Obj fs
     /\ forall k, prop_get k fs
                 = match prop_get k (spread p) with
                   | Some v => Some v
                   | None => prop_get k (spread (current s))
                   end)
  /\ (isPaused s = false ->
      history s'
      = take (Z.to_nat (pointer s + 1)) (history s)
          ++ [diff (current s) (current s')]
      /\ pointer s' = pointer s + 1)
  /\ (forall (h : Heap.heap) (cur part : Heap.val) (k : string),
        NoDup (Heap.own_of h part).*1 ->
        let merged := Heap.spread_merge h cur part in
        Heap.read merged.2 merged.1 (KStr k)
        = Some (match prop_get k (Heap.own_of h part) with
                | Some v => v
                | None => default Heap.undefined (prop_get k (Heap.own_of h cur))
                end)).
Proof.
  intros Hnd s'. split_and!.
  - eexists. split.
    + unfold s', setState, didChange. simpl.
      destruct (willChange_ledger s) as (_ & _ & _ & -> & _).
      by destruct (isPaused (willChange s)).
    + intros k. by apply prop_get_merge.
  - intros Hp. unfold s', setState, didChange, willChange. rewrite Hp. simpl.
    by rewrite Hp.
  - intros h cur part k Hpart merged. unfold merged, Heap.spread_merge, Heap.alloc.
    simpl. rewrite lookup_app_r, Nat.sub_diag by lia. simpl.
    rewrite prop_get_merge by done. by destruct (prop_get k (Heap.own_of h part)).
Qed.
End store_claims.

(** * The claims about undoing *)

(** A [mutate] inside a pause leaves the ledger alone; the first one
    records the snapshot it started from in [prev]. *)
Lemma mutate_while_paused diff m s :
  isPaused s = true ->
  let s' := mutate diff m s in
  isPaused s' = true /\ didChangeWhilePaused s' = true
  /\ history s' = history s /\ pointer s' = pointer s
  /\ prev s' = (if didChangeWhilePaused s then prev s else current s).
Proof.
  intros Hp. unfold mutate, didChange, willChange. rewrite Hp.
  destruct (didChangeWhilePaused s) eqn:Hd; simpl; rewrite Hp; simpl; by rewrite ?Hd.
Qed.

Lemma mutations_after_first diff ms s :
  isPaused s = true -> didChangeWhilePaused s = true ->
  let s' := fold_left (fun s m => mutate diff m s) ms s in
  isPaused s' = true /\ didChangeWhilePaused s' = true
  /\ history s' = history s /\ pointer s' = pointer s /\ prev s' = prev s.
Proof.
  revert s. induction ms as [|m ms IH]; intros s Hp Hd; simpl; [done|].
  destruct (mutate_while_paused diff m s Hp) as (H1 & H2 & H3 & H4 & H5).
  rewrite Hd in H5.
  destruct (IH (mutate diff m s) H1 H2) as (K1 & K2 & K3 & K4 & K5).
  split_and!; congruence.
Qed.

(** The states of a pause in which [ms] ran: the store is still paused,
    the ledger is as it was, and [prev] holds the snapshot from before the
    first change. *)
Lemma mutations_while_paused diff ms s :
  isPaused s = true -> didChangeWhilePaused s = false -> ms ≠ [] ->
  let s' := fold_left (fun s m => mutate diff m s) ms s in
  isPaused s' = true /\ didChangeWhilePaused s' = true
  /\ history s' = history s /\ pointer s' = pointer s
  /\ prev s' = current s.
Proof.
  intros Hp Hd Hms. destruct ms as [|m ms]; [done|]. simpl.
  destruct (mutate_while_paused diff m s Hp) as (H1 & H2 & H3 & H4 & H5).
  rewrite Hd in H5.
  destruct (mutations_after_first diff ms (mutate diff m s) H1 H2)
    as (K1 & K2 & K3 & K4 & K5).
  split_and!; congruence.
Qed.

(** [undo] on a store that is not paused, or paused with its pending change
    [diff prev current], reverts the last entry. *)
Lemma undo_last_entry s before :
  plain before = true -> plain (current s) = true ->
  keeps_shape before (current s) = true ->
  (isPaused s = false /\ 0 <= pointer s
   /\ entry_at (history s) (pointer s) = Some (Differ.diff before (current s))
   \/ isPaused s = true /\ didChangeWhilePaused s = true /\ prev s = before) ->
  exists s', undo Differ.diff s = Some s' /\ Node_equiv (current s') before.
Proof.
  intros Hb Hc Hshape [(Hp & Hptr & He)|(Hp & Hd & Hprev)].
  - rewrite (undo_unpaused_step Differ.diff s _ Hp Hptr He).
    eexists. split; [done|]. simpl. rewrite cloneDeep_plain by done.
    by apply undo_diff_restores.
  - unfold undo. rewrite Hp, Hd, canUndo_pointer.
    rewrite bool_decide_eq_true_2
      by (pose proof (fold_pending_pointer_ok Differ.diff s) as H;
          unfold fold_pending in *; simpl in *; rewrite length_app; simpl; lia).
    cbn [negb]. change (history (with_isPaused false (fold_pending Differ.diff s)))
      with (history (fold_pending Differ.diff s)).
    change (pointer (with_isPaused false (fold_pending Differ.diff s)))
      with (pointer (fold_pending Differ.diff s)).
    rewrite fold_pending_entry. eexists. split; [done|]. simpl.
    rewrite cloneDeep_plain by done. rewrite Hprev. by apply undo_diff_restores.
Qed.


(** What holds of [pause(); mutate(m1); ...; mutate(mk); resume()] on a store
    that is not paused: nothing is committed during the pause, [resume]
    commits one entry, the difference between the snapshot from before the
    pause and the state at [resume], and a single [undo] goes back to that
    snapshot when the state at [resume] keeps its shape. *)
Lemma pause_coalesces ms s :
  pointer_ok s -> isPaused s = false -> didChangeWhilePaused s = false ->
  ms ≠ [] ->
  let paused := fold_left (fun s m => mutate Differ.diff m s) ms (pause s) in
  let s' := resume Differ.diff paused in
  history paused = history s
  /\ history s'
     = take (Z.to_nat (pointer s + 1)) (history s)
         ++ [Differ.diff (current s) (current paused)]
  /\ pointer s' = pointer s + 1
  /\ isPaused s' = false
  /\ (plain (current s) = true -> plain (current paused) = true ->
      keeps_shape (current s) (current paused) = true ->
      exists u, undo Differ.diff s' = Some u /\ Node_equiv (current u) (current s)).
Proof.
  intros Hok Hp Hd Hms paused s'.
  destruct (mutations_while_paused Differ.diff ms (pause s)) as (H1 & H2 & H3 & H4 & H5);
    [done|done|done|].
  fold paused in H1, H2, H3, H4, H5. simpl in H3, H4, H5.
  assert (s' = notifySubscribers
                 (with_isPaused false
                    (with_didChangeWhilePaused false
                       (commit (Differ.diff (current s) (current paused))
                          (with_prev (current paused) paused))))) as Hs'.
  { unfold s', resume. by rewrite H2, H5. }
  assert (pointer_ok (with_prev (current paused) paused)) as Hok'.
  { unfold pointer_ok in *. simpl. by rewrite H3, H4. }
  split; [done|]. rewrite Hs'. split_and!.
  - simpl. unfold splice_history. simpl. by rewrite H3, H4.
  - simpl. by rewrite H4.
  - done.
  - intros Hb Ha Hshape. apply undo_last_entry; try done.
    left. split; [done|]. split.
    + simpl. rewrite H4. unfold pointer_ok in Hok. lia.
    + apply (commit_entry _ (with_prev (current paused) paused) Hok').
Qed.

(** * The test suite of [trashly-core], replayed *)

(** "Sets state" *)
Example test_sets_state :
  history <$> run Differ.diff [set_name_age "Kyle" 37] (new steve)
  = Some [[CHANGE [KStr "name"] (str "Kyle") (str "Steve");
           CHANGE [KStr "age"] (num 37) (num 36)]].
Proof. vm_compute. reflexivity. Qed.

(** "Sets undoes", with too many redos and then too many undos *)
Example test_sets_undoes :
  let change := [set_name_age "Kyle" 37; set_name_age "Kyle" 38] in
  current <$> run Differ.diff (change ++ [Undo]) (new steve) = Some (person "Kyle" 37)
  /\ current <$> run Differ.diff (change ++ [Undo; Undo; Redo]) (new steve)
     = Some (person "Kyle" 37)
  /\ current <$> run Differ.diff
                  (change ++ [Undo; Undo; Redo; Undo; Redo; Redo; Redo; Redo])
                  (new steve)
     = Some (person "Kyle" 38)
  /\ current <$> run Differ.diff (change ++ [Undo; Undo; Undo; Undo]) (new steve)
     = Some steve.
Proof. split_and!; vm_compute; reflexivity. Qed.

(** "Ignores patches while paused" *)
Example test_ignores_patches_while_paused :
  let paused := run Differ.diff [set_age 37; Pause; set_age 38] (new steve) in
  prev <$> paused = Some (person "Steve" 37)
  /\ pointer <$> paused = Some 0
  /\ (paused ≫= undo Differ.diff) ≫= Some ∘ current = Some (person "Steve" 37)
  /\ (paused ≫= undo Differ.diff) ≫= Some ∘ pointer = Some 0.
Proof. split_and!; vm_compute; reflexivity. Qed.

(** "Creates a commit after resuming after changing while paused" *)
Example test_commit_after_resume :
  current <$> run Differ.diff [Pause; set_age 37; set_age 38; Resume; Undo] (new steve)
  = Some steve.
Proof. vm_compute. reflexivity. Qed.

(** "Behaves correctly when acting while in undos" *)
Example test_acting_while_in_undos :
  let ops := [set_name_age "Steve" 37; set_name_age "Steve!" 38;
              set_name_age "Steve!!" 39; Undo; Undo] in
  current <$> run Differ.diff ops (new steve) = Some (person "Steve" 37)
  /\ current <$> run Differ.diff (ops ++ [set_name_age "Steve!!" 40; Undo]) (new steve)
     = Some (person "Steve" 37)
  /\ current <$> run Differ.diff (ops ++ [set_name_age "Steve!!" 40; Undo; Redo])
                  (new steve)
     = Some (person "Steve!!" 40).
Proof. split_and!; vm_compute; reflexivity. Qed.

(** * The claims at concrete stores *)



(** C2.  A pause in which an array grows: [resume] commits one entry, but
    the single [undo] leaves a hole where the pushed element was instead of
    the one-element array from before the pause. *)
Theorem undo_after_pause_leaves_hole :
  let paused := mutate Differ.diff push_2 (pause (new one_item)) in
  let s := resume Differ.diff paused in
  history paused = [] /\ pointer paused = -1
  /\ current s = Obj [("a", Arr [Some (num 1); Some (num 2)] [])]
  /\ history s = [[CREATE [KStr "a"; KNum 1] (num 2)]]
  /\ exists s', undo Differ.diff s = Some s'
       /\ current s' = Obj [("a", Arr [Some (num 1); None] [])]
       /\ ~ Node_equiv (current s') one_item.
Proof.
  split_and!; try (vm_compute; reflexivity). eexists.
  split; [vm_compute; reflexivity|]. split; [vm_compute; reflexivity|].
  vm_compute. intros H. inversion H as [| |fs gs Hk]; subst.
  specialize (Hk "a"). vm_compute in Hk. inversion Hk as [x y Hxy|]; subst.
  inversion Hxy as [|xs ys ns ms Hslots|]; subst.
  apply Forall2_length in Hslots. done.
Qed.

(** C3.  Removing the second and the fourth element of a five-element
    array in one patch.  [applyPatch] turns the array into a plain object
    with the keys 0, 2 and 4; on an array at the root its queued deletion
    calls [filter] on the tombstone and raises; [Trashly.applyPatch] leaves
    five slots, two of them holes, and [undo] does not bring the array
    back. *)
Theorem two_removals_do_not_compact :
  (let target := Heap.store (Obj [("arr", five)]) [] in
   exists next h,
     Heap.applyPatch target.2 target.1 remove_b_d_refs = Some (next, h)
     /\ Heap.reify 3 h next
        = Some (Obj [("arr", Obj [("0", str "a"); ("2", str "c"); ("4", str "e")])]))
  /\ (let target := Heap.store five [] in
      Heap.applyPatch target.2 target.1 remove_b_d_root = None)
  /\ (let s := patch remove_b_d (new (Obj [("arr", five)])) in
      current s
      = Obj [("arr", Arr [Some (str "a"); None; Some (str "c"); None;
                          Some (str "e")] [])]
      /\ undo Differ.diff s = Some s).
Proof.
  split_and!.
  - eexists. eexists. split; vm_compute; reflexivity.
  - vm_compute. reflexivity.
  - split; vm_compute; reflexivity.
Qed.

Lemma commit_truncates_redo_future_witness :
  let s := mutate Differ.diff (set_v 1) (new counter) in
  isPaused (new counter) = false /\ -1 <= pointer (new counter)
  /\ history s = [[CHANGE [KStr "v"] (num 1) (num 0)]]
  /\ pointer s = 0 /\ canRedo s = false /\ redo Differ.diff s = Some s.
Proof.
  split; [reflexivity|]. split; [simpl; lia|].
  destruct (proj1 (commit_truncates_redo_future Differ.diff) (new counter) (set_v 1))
    as (H1 & H2 & H3 & H4); [reflexivity|simpl; lia|].
  split; [exact H1|]. split; [exact H2|]. split; [exact H3|exact H4].
Defined.

(** C7, the claim as stated fails: [undo] with nothing to undo and [redo]
    with nothing to redo return before any listener is called. *)
Lemma undo_redo_without_effect_call_no_listener :
  let s := subscribe 0 (new counter) in
  listeners s = [0%nat]
  /\ undo Differ.diff s = Some s /\ ~ notified s s
  /\ redo Differ.diff s = Some s.
Proof.
  split_and!; try (vm_compute; reflexivity). unfold notified. vm_compute. discriminate.
Qed.

Lemma listeners_called_after_publish_witness :
  let s := subscribe 0 (new counter) in
  pointer_ok s
  /\ notified s (mutate Differ.diff (set_v 1) s)
  /\ notified s (pause s)
  /\ isPaused s = false
  /\ (exists s', undo Differ.diff s = Some s' /\ calls s' = calls s)
  /\ pending s = false
  /\ exists s', redo Differ.diff s = Some s' /\ calls s' = calls s.
Proof.
  assert (pointer_ok (subscribe 0 (new counter))) as Hok
    by (unfold pointer_ok; simpl; lia).
  split; [exact Hok|].
  destruct (listeners_called_after_publish Differ.diff _ Hok)
    as (Hm & _ & _ & Hp & _ & (su & Hu & Hcu) & Hr).
  destruct (Hr eq_refl) as (sr & Hr' & Hcr).
  split; [apply Hm|]. split; [exact Hp|]. split; [reflexivity|].
  split; [exists su; split; [exact Hu|exact (Hcu eq_refl)]|].
  split; [reflexivity|]. exists sr. split; [exact Hr'|exact (Hcr eq_refl)].
Defined.



Lemma setState_shallow_merge_witness :
  let p := Obj [("age", num 37)] in
  let s' := setState Differ.diff p (new steve) in
  NoDup (spread p).*1
  /\ current s' = Obj [("name", str "Steve"); ("age", num 37)]
  /\ history s' = [[CHANGE [KStr "age"] (num 37) (num 36)]]
  /\ pointer s' = 0.
Proof.
  assert (NoDup (spread (Obj [("age", num 37)])).*1) as Hnd
    by (simpl; apply NoDup_singleton).
  split; [exact Hnd|].
  destruct (setState_shallow_merge Differ.diff (new steve) _ Hnd) as (_ & Hcommit & _).
  destruct (Hcommit eq_refl) as [Hh Hp].
  split; [vm_compute; reflexivity|]. split; [exact Hh|exact Hp].
Defined.

(** C8, the claim as stated fails for [Trashly.mutate]: the new [current] is
    the mutated deep clone, so below [a.d] it holds a copy (location 7) of
    the object the old [current] holds there (location 1), equal in content
    but not the same reference. *)
Lemma trashly_mutate_copies_sibling :
  exists h' s',
    Heap.TrashlyCore.mutate set_abc nested.2 (Heap.new nested.1) = Some (h', s')
    /\ Heap.readPath nested.2 nested.1 [KStr "a"; KStr "d"] = Some (Heap.Ref 1)
    /\ Heap.readPath h' (Heap.current s') [KStr "a"; KStr "d"] = Some (Heap.Ref 7)
    /\ Heap.Ref 7 ≠ Heap.Ref 1
    /\ Heap.reify 2 h' (Heap.Ref 7) = Heap.reify 2 h' (Heap.Ref 1).
Proof.
  eexists. eexists. split; [vm_compute; reflexivity|].
  split_and!; try (vm_compute; reflexivity). discriminate.
Qed.

Lemma mutate_shares_sibling_witness :
  exists h' s',
    Heap.LiquorStore.mutate set_abc nested.2 (Heap.new nested.1) = Some (h', s')
    /\ Heap.readPath nested.2 nested.1 [KStr "a"; KStr "d"] = Some (Heap.Ref 1)
    /\ Heap.readPath h' (Heap.current s') [KStr "a"; KStr "d"] = Some (Heap.Ref 1).
Proof.
  eexists. eexists. split; [vm_compute; reflexivity|].
  split; [vm_compute; reflexivity|].
  eapply (HeapFacts.mutate_shares_sibling set_abc nested.2 (Heap.new nested.1)
            3%nat _ 2%nat _ (KStr "a") (KStr "b") (KStr "c") (KStr "d")).
  - reflexivity.
  - vm_compute. reflexivity.
  - vm_compute. reflexivity.
  - vm_compute. reflexivity.
  - repeat constructor. by exists [].
  - vm_compute. reflexivity.
  - vm_compute. reflexivity.
  - vm_compute. reflexivity.
  - vm_compute. reflexivity.
  - vm_compute. reflexivity.
  - vm_compute. reflexivity.
  - discriminate.
  - vm_compute. reflexivity.
Defined.

(** * Further properties of the store *)

Section ledger_more.
Variable diff : Node -> Node -> Patch.

(** ** Undo and redo on the ledger *)




(** What an operation does to the history: nothing, or a commit. *)
Lemma step_history o s s' :
  pointer_ok s -> step diff o s = Some s' ->
  (history s' = history s
   \/ exists change,
        history s' = take (Z.to_nat (pointer s + 1)) (history s) ++ [change])
  /\ pointer s - 1 <= pointer s' <= pointer s + 1.
Proof.
  intros Hok Hstep.
  assert (forall t, history t = history s -> pointer t = pointer s ->
            (history (didChange diff t) = history s
             \/ exists change,
                 history (didChange diff t)
                 = take (Z.to_nat (pointer s + 1)) (history s) ++ [change])
            /\ pointer s - 1 <= pointer (didChange diff t) <= pointer s + 1) as Hdid.
  { intros t Hh Hp. unfold didChange. destruct (isPaused t); simpl.
    - rewrite Hh, Hp. split; [by left|lia].
    - unfold splice_history. rewrite Hh, Hp. split; [right; by eexists|lia]. }
  destruct o; simpl in Hstep.
  - injection Hstep as <-. apply Hdid; simpl; apply willChange_ledger.
  - injection Hstep as <-. apply Hdid; simpl; apply willChange_ledger.
  - injection Hstep as <-. apply Hdid; simpl; apply willChange_ledger.
  - injection Hstep as <-. apply Hdid; simpl; apply willChange_ledger.
  - injection Hstep as <-. unfold patch, applyPatch. simpl.
    destruct (willChange_ledger s) as (-> & -> & _). split; [by left|lia].
  - injection Hstep as <-. simpl. split; [by left|lia].
  - injection Hstep as <-. unfold resume.
    destruct (didChangeWhilePaused s); simpl.
    + unfold splice_history. simpl. split; [right; by eexists|lia].
    + split; [by left|lia].
  - pose proof (splice_history_length s Hok) as Hlen.
    unfold undo in Hstep.
    destruct s as [pv cur ptr hist [] [] lis cs]; simpl in *;
      rewrite canUndo_pointer in Hstep; simpl in Hstep;
      case_bool_decide; simpl in Hstep;
      repeat match type of Hstep with
             | context [entry_at ?h ?i] => destruct (entry_at h i)
             end;
      try done; injection Hstep as <-; simpl;
      unfold splice_history in *; simpl in *; rewrite ?length_app; simpl;
      (split; [first [by left | right; by eexists]|lia]).
  - pose proof (splice_history_length s Hok) as Hlen.
    unfold redo in Hstep.
    destruct s as [pv cur ptr hist [] [] lis cs]; simpl in *;
      unfold canRedo in Hstep; simpl in Hstep;
      try case_bool_decide; simpl in Hstep;
      repeat match type of Hstep with
             | context [entry_at ?h ?i] => destruct (entry_at h i)
             end;
      try done; injection Hstep as <-; simpl;
      unfold splice_history in *; simpl in *; rewrite ?length_app; simpl;
      (split; [first [by left | right; by eexists]|lia]).
Qed.

(** X2.  No operation rewrites the past: whatever the call, the history
    entries at and below the pointer are afterwards what they were, and
    the pointer has moved by at most one. *)
Theorem committed_entries_are_kept o s s' i :
  pointer_ok s -> step diff o s = Some s' -> 0 <= i <= pointer s ->
  entry_at (history s') i = entry_at (history s) i
  /\ pointer s - 1 <= pointer s' <= pointer s + 1.
Proof.
  intros Hok Hstep Hi.
  destruct (step_history o s s' Hok Hstep) as [[->|[change ->]] Hp]; [done|].
  split; [|done]. unfold entry_at. rewrite !decide_False by lia.
  unfold pointer_ok in Hok.
  rewrite lookup_app_l by (rewrite length_take; lia).
  apply lookup_take_lt. lia.
Qed.


(** X4.  [replaceState(state)] publishes [state] itself and always sets
    [prev] to the state it replaces.  Outside a pause it commits the
    difference between the two, dropping the entries after the pointer.
    Inside a pause nothing is committed, and since [prev] no longer holds
    the snapshot from the start of the pause, the entry of the following
    [resume] is the difference from the replaced state. *)
Theorem replaceState_overwrites_prev state s :
  let s' := replaceState diff state s in
  current s' = state /\ prev s' = current s
  /\ (isPaused s = false ->
      history s'
      = take (Z.to_nat (pointer s + 1)) (history s) ++ [diff (current s) state]
      /\ pointer s' = pointer s + 1)
  /\ (isPaused s = true ->
      history s' = history s /\ pointer s' = pointer s /\ pending s' = true
      /\ history (resume diff s')
         = take (Z.to_nat (pointer s + 1)) (history s) ++ [diff (current s) state]).
Proof.
  intros s'. unfold s', replaceState, didChange, pending, resume.
  destruct s as [pv cur ptr hist [] [] lis cs]; simpl; split_and!; done.
Qed.

(** ** The two flags *)

Lemma step_flags_ok o s s' : flags_ok s -> step diff o s = Some s' -> flags_ok s'.
Proof.
  unfold flags_ok. intros Hs Hstep.
  destruct s as [pv cur ptr hist [] [] lis cs]; simpl in *;
    try (by specialize (Hs eq_refl));
    destruct o; simpl in Hstep;
    try (injection Hstep as <-; done);
    unfold undo, redo in Hstep; simpl in Hstep;
    repeat match type of Hstep with
           | context [if ?b then _ else _] => destruct b
           | context [entry_at ?h ?i] => destruct (entry_at h i)
           end; try done; injection Hstep as <-; done.
Qed.

Lemma run_flags_ok ops s s' : flags_ok s -> run diff ops s = Some s' -> flags_ok s'.
Proof.
  revert s. induction ops as [|o ops IH]; intros s Hs; simpl.
  - by intros [= <-].
  - destruct (step diff o s) as [s1|] eqn:Hstep; [|done].
    apply IH. by eapply step_flags_ok.
Qed.

Lemma reachable_flags_ok s : reachable diff s -> flags_ok s.
Proof.
  intros (initial & ops & Hrun). by apply (run_flags_ok ops (new initial)).
Qed.

(** X5.  In every state that calls of the public operations can reach
    from a new store, [didChangeWhilePaused] is set only while the store
    is paused. *)
Theorem pending_only_while_paused s :
  reachable diff s -> didChangeWhilePaused s = true -> isPaused s = true.
Proof. apply reachable_flags_ok. Qed.

(** X6.  [undo] resumes the history: in a reachable state it returns
    with the store not paused and no change pending, whether or not there
    was something to undo.  So does [redo], when no change is pending. *)
Theorem undo_resumes s :
  reachable diff s ->
  (exists s', undo diff s = Some s'
              /\ isPaused s' = false /\ didChangeWhilePaused s' = false)
  /\ (pending s = false ->
      exists s', redo diff s = Some s'
                 /\ isPaused s' = false /\ didChangeWhilePaused s' = false).
Proof.
  intros Hreach. pose proof (reachable_pointer_ok diff s Hreach) as Hok.
  pose proof (reachable_flags_ok s Hreach) as Hflags. unfold flags_ok in Hflags.
  split.
  - destruct (undo_pointer_ok diff s Hok) as (s' & Hs' & _).
    exists s'. split; [done|]. unfold undo in Hs'.
    destruct s as [pv cur ptr hist [] [] lis cs]; simpl in *;
      try (by specialize (Hflags eq_refl));
      repeat match type of Hs' with
             | context [if ?b then _ else _] => destruct b
             | context [entry_at ?h ?i] => destruct (entry_at h i)
             end; try done; injection Hs' as <-; done.
  - intros Hpend. destruct (redo_pointer_ok diff s Hok) as (s' & Hs' & _).
    exists s'. split; [done|]. unfold redo in Hs'.
    destruct s as [pv cur ptr hist [] [] lis cs]; simpl in *;
      try (by specialize (Hflags eq_refl)); try done;
      repeat match type of Hs' with
             | context [if ?b then _ else _] => destruct b
             | context [entry_at ?h ?i] => destruct (entry_at h i)
             end; try done; injection Hs' as <-; done.
Qed.


(** ** Listeners *)

Lemma calls_of_app l s cs :
  calls_of l (with_calls (calls s ++ cs) s)
  = calls_of l s ++ (filter (fun c => c.1 = l) cs).*2.
Proof. unfold calls_of. simpl. by rewrite filter_app, fmap_app. Qed.

Lemma filter_notifications l (cur : Node) (ls : list nat) :
  filter (fun c : nat * Node => c.1 = l) (map (fun l' => (l', cur)) ls)
  = map (fun l' => (l', cur)) (filter (fun l' => l' = l) ls).
Proof.
  induction ls as [|l' ls IH]; simpl; [done|].
  destruct (decide (l' = l)) as [->|Hne].
  - rewrite !filter_cons_True by done. simpl. by f_equal.
  - rewrite !filter_cons_False by done. done.
Qed.

Lemma filter_absent (l : nat) (ls : list nat) :
  l ∉ ls -> filter (fun l' => l' = l) ls = [].
Proof.
  induction ls as [|l' ls IH]; simpl; [done|].
  rewrite not_elem_of_cons. intros [Hne Hin].
  rewrite filter_cons_False by done. by apply IH.
Qed.

Lemma filter_present (l : nat) (ls : list nat) :
  NoDup ls -> l ∈ ls -> filter (fun l' => l' = l) ls = [l].
Proof.
  induction ls as [|l' ls IH]; simpl.
  - intros _ H. by apply elem_of_nil in H.
  - rewrite NoDup_cons. intros [Hl' Hnd] Hin.
    destruct (decide (l' = l)) as [->|Hne].
    + rewrite filter_cons_True by done. by rewrite filter_absent.
    + rewrite filter_cons_False by done. apply IH; [done|].
      apply elem_of_cons in Hin as [?|?]; done.
Qed.

(** One notification, seen from one listener. *)
Lemma calls_of_notify l s :
  calls_of l (notifySubscribers s)
  = calls_of l s
    ++ map (fun _ => current s) (filter (fun l' => l' = l) (listeners s)).
Proof.
  unfold notifySubscribers. rewrite calls_of_app, filter_notifications.
  f_equal. induction (filter (fun l' => l' = l) (listeners s)) as [|x xs IH]; [done|].
  simpl. by f_equal.
Qed.

(** An operation keeps the listeners and calls only them. *)
Lemma step_calls o s s' :
  step diff o s = Some s' ->
  listeners s' = listeners s
  /\ (calls s' = calls s \/ notified s s').
Proof.
  intros Hstep.
  assert (forall t, listeners t = listeners s -> calls t = calls s ->
            listeners (didChange diff t) = listeners s
            /\ (calls (didChange diff t) = calls s \/ notified s (didChange diff t)))
    as Hdid.
  { intros t Hl Hc. split.
    - unfold didChange. by destruct (isPaused t).
    - right. pose proof (didChange_notified diff t) as H.
      unfold notified in *. by rewrite <- Hl, <- Hc. }
  destruct o; simpl in Hstep.
  - injection Hstep as <-. apply Hdid; simpl; apply willChange_ledger.
  - injection Hstep as <-. apply Hdid; simpl; apply willChange_ledger.
  - injection Hstep as <-. apply Hdid; simpl; apply willChange_ledger.
  - injection Hstep as <-. apply Hdid; simpl; apply willChange_ledger.
  - injection Hstep as <-. unfold patch, applyPatch, notified. simpl.
    destruct (willChange_ledger s) as (_ & _ & _ & _ & -> & ->). auto.
  - injection Hstep as <-. unfold notified. simpl. auto.
  - injection Hstep as <-. split; [|right; apply resume_notified].
    unfold resume. by destruct (didChangeWhilePaused s).
  - unfold undo, notified in *.
    destruct s as [pv cur ptr hist [] [] lis cs]; simpl in *;
      repeat match type of Hstep with
             | context [if ?b then _ else _] => destruct b
             | context [entry_at ?h ?i] => destruct (entry_at h i)
             end; try done; injection Hstep as <-; simpl; auto.
  - unfold redo, notified in *.
    destruct s as [pv cur ptr hist [] [] lis cs]; simpl in *;
      repeat match type of Hstep with
             | context [if ?b then _ else _] => destruct b
             | context [entry_at ?h ?i] => destruct (entry_at h i)
             end; try done; injection Hstep as <-; simpl; auto.
Qed.

Lemma step_calls_of l o s s' :
  step diff o s = Some s' -> l ∉ listeners s ->
  listeners s' = listeners s /\ calls_of l s' = calls_of l s.
Proof.
  intros Hstep Hl. destruct (step_calls o s s' Hstep) as [Hls [Hc|Hc]].
  - split; [done|]. unfold calls_of. by rewrite Hc.
  - split; [done|]. unfold notified in Hc. unfold calls_of. rewrite Hc.
    rewrite filter_app, filter_notifications, filter_absent by done.
    simpl. by rewrite app_nil_r.
Qed.

(** X8.  After [unsubscribe], whatever operations follow, the listener
    is not registered and is never called again. *)
Theorem unsubscribed_listener_is_not_called l ops s s' :
  run diff ops (unsubscribe l s) = Some s' ->
  (l ∉ listeners s') /\ calls_of l s' = calls_of l s.
Proof.
  assert (l ∉ listeners (unsubscribe l s)) as Hl.
  { unfold unsubscribe. simpl. rewrite list_elem_of_filter. by intros [? _]. }
  change (calls_of l s) with (calls_of l (unsubscribe l s)).
  generalize dependent (unsubscribe l s). clear s.
  induction ops as [|o ops IH]; intros s Hl; simpl.
  - by intros [= <-].
  - destruct (step diff o s) as [s1|] eqn:Hstep; [|done]. intros Hrun.
    destruct (step_calls_of l o s s1 Hstep Hl) as [Hls Hcs].
    rewrite <- Hcs. apply IH; [|done]. by rewrite Hls.
Qed.

(** X9.  The listeners form a set: subscribing a listener that is
    already subscribed changes nothing, so a notification calls it exactly
    once, with the current state; unsubscribing a fresh listener restores
    the set it was added to. *)
Theorem subscribe_registers_once l s :
  NoDup (listeners s) ->
  let s' := subscribe l s in
  subscribe l s' = s'
  /\ NoDup (listeners s')
  /\ calls_of l (notifySubscribers s') = calls_of l s ++ [current s]
  /\ (l ∉ listeners s -> listeners (unsubscribe l s') = listeners s).
Proof.
  intros Hnd s'.
  assert (l ∈ listeners s') as Hin.
  { unfold s', subscribe. case_decide; [done|]. simpl.
    apply elem_of_app. right. apply list_elem_of_singleton. done. }
  assert (NoDup (listeners s')) as Hnd'.
  { unfold s', subscribe. case_decide; [done|]. simpl.
    apply NoDup_app. split_and!; [done| |apply NoDup_singleton].
    intros x Hx Hx'. apply list_elem_of_singleton in Hx' as ->. done. }
  split_and!.
  - unfold subscribe at 1. by rewrite decide_True.
  - done.
  - rewrite calls_of_notify, filter_present by done. simpl.
    unfold s', subscribe. by case_decide.
  - intros Hl. unfold s', subscribe. rewrite decide_False by done.
    unfold unsubscribe. simpl. rewrite filter_app.
    rewrite filter_cons_False by (intros H; by apply H). rewrite filter_nil.
    rewrite app_nil_r. clear -Hl. induction (listeners s) as [|x xs IH]; [done|].
    apply not_elem_of_cons in Hl as [Hne Hl].
    rewrite filter_cons_True by done. f_equal. by apply IH.
Qed.

(** ** Pauses, and what the history holds *)

Lemma change_while_paused o s :
  is_change o = true -> isPaused s = true ->
  exists s', step diff o s = Some s'
    /\ isPaused s' = true /\ didChangeWhilePaused s' = true
    /\ history s' = history s /\ pointer s' = pointer s
    /\ prev s' = (if didChangeWhilePaused s then prev s else current s).
Proof.
  intros Ho Hp. destruct o; try done; simpl; eexists; (split; [done|]);
    unfold mutate, setState, setStateWith, didChange, willChange; rewrite Hp;
    destruct (didChangeWhilePaused s) eqn:Hd; simpl; rewrite Hp; simpl;
    by rewrite ?Hd.
Qed.

Lemma changes_while_paused ops : forall s,
  forallb is_change ops = true -> isPaused s = true ->
  exists s', run diff ops s = Some s'
    /\ isPaused s' = true
    /\ didChangeWhilePaused s'
       = (didChangeWhilePaused s || negb (bool_decide (ops = [])))
    /\ history s' = history s /\ pointer s' = pointer s
    /\ prev s' = (if didChangeWhilePaused s then prev s
                  else if bool_decide (ops = []) then prev s else current s).
Proof.
  induction ops as [|o ops IH]; intros s Hops Hp.
  - exists s. simpl. rewrite orb_false_r. by destruct (didChangeWhilePaused s).
  - simpl in Hops. apply andb_prop in Hops as [Ho Hops].
    destruct (change_while_paused o s Ho Hp) as (s1 & Hs1 & A1 & A2 & A3 & A4 & A5).
    destruct (IH s1 Hops A1) as (s' & Hs' & B1 & B2 & B3 & B4 & B5).
    exists s'. simpl. rewrite Hs1. split; [done|].
    rewrite A2 in B2, B5. simpl in B2.
    rewrite orb_true_r. split_and!; congruence.
Qed.

(** X16.  A pause is one step of the history, whatever the differ.  On
    a store that is not paused, [pause()] followed by one or more calls of
    [mutate] or [setState] commits nothing; [resume()] then appends
    exactly one entry, the difference between the state from before the
    pause and the state at [resume], moves the pointer onto it and leaves
    the store not paused. *)
Theorem pause_commits_one_entry ops s :
  isPaused s = false -> didChangeWhilePaused s = false ->
  forallb is_change ops = true -> ops ≠ [] ->
  exists paused,
    run diff ops (pause s) = Some paused
    /\ history paused = history s /\ pointer paused = pointer s
    /\ let s' := resume diff paused in
       history s'
       = take (Z.to_nat (pointer s + 1)) (history s)
           ++ [diff (current s) (current paused)]
       /\ pointer s' = pointer s + 1
       /\ current s' = current paused
       /\ isPaused s' = false /\ didChangeWhilePaused s' = false.
Proof.
  intros Hp Hd Hops Hne.
  destruct (changes_while_paused ops (pause s) Hops eq_refl)
    as (paused & Hrun & A1 & A2 & A3 & A4 & A5).
  change (didChangeWhilePaused (pause s)) with (didChangeWhilePaused s) in A2, A5.
  change (history (pause s)) with (history s) in A3.
  change (pointer (pause s)) with (pointer s) in A4.
  change (current (pause s)) with (current s) in A5.
  rewrite Hd in A2, A5. rewrite bool_decide_eq_false_2 in A2, A5 by done.
  simpl in A2. exists paused. split; [done|]. split; [done|]. split; [done|].
  unfold resume. rewrite A2. simpl. unfold splice_history. simpl.
  rewrite A3, A4, A5. done.
Qed.

(** Every entry of the history is a result of the differ. *)
Lemma step_differ_entries o s s' :
  Forall (fun p => exists a b, p = diff a b) (history s) ->
  step diff o s = Some s' ->
  Forall (fun p => exists a b, p = diff a b) (history s').
Proof.
  intros Hs Hstep.
  assert (forall n change,
            (exists a b, change = diff a b) ->
            Forall (fun p => exists a b, p = diff a b) (take n (history s) ++ [change]))
    as Hcommit.
  { intros n change Hc. apply Forall_app. split; [by apply Forall_take|].
    by apply Forall_singleton. }
  assert (forall t, history t = history s ->
            Forall (fun p => exists a b, p = diff a b) (history (didChange diff t)))
    as Hdid.
  { intros t Ht. unfold didChange. destruct (isPaused t); simpl; [by rewrite Ht|].
    unfold splice_history. rewrite Ht. apply Hcommit. eauto. }
  destruct o; simpl in Hstep.
  - injection Hstep as <-. apply Hdid. simpl. apply willChange_ledger.
  - injection Hstep as <-. apply Hdid. simpl. apply willChange_ledger.
  - injection Hstep as <-. apply Hdid. simpl. apply willChange_ledger.
  - injection Hstep as <-. apply Hdid. simpl. apply willChange_ledger.
  - injection Hstep as <-. unfold patch, applyPatch. simpl.
    by destruct (willChange_ledger s) as (_ & -> & _).
  - by injection Hstep as <-.
  - injection Hstep as <-. unfold resume.
    destruct (didChangeWhilePaused s); simpl; [|done].
    unfold splice_history. simpl. apply Hcommit. eauto.
  - unfold undo in Hstep.
    destruct s as [pv cur ptr hist [] [] lis cs]; simpl in *;
      repeat match type of Hstep with
             | context [if ?b then _ else _] => destruct b
             | context [entry_at ?h ?i] => destruct (entry_at h i)
             end; try done; injection Hstep as <-; simpl; try done;
      unfold splice_history; simpl; apply Hcommit; eauto.
  - unfold redo in Hstep.
    destruct s as [pv cur ptr hist [] [] lis cs]; simpl in *;
      repeat match type of Hstep with
             | context [if ?b then _ else _] => destruct b
             | context [entry_at ?h ?i] => destruct (entry_at h i)
             end; try done; injection Hstep as <-; simpl; try done;
      unfold splice_history; simpl; apply Hcommit; eauto.
Qed.

(** X17.  The history holds results of the differ only: in every state
    that the public operations can reach, each entry is [diff a b] for
    some states [a] and [b]. *)
Theorem history_holds_differ_results s :
  reachable diff s -> Forall (fun p => exists a b, p = diff a b) (history s).
Proof.
  intros (initial & ops & Hrun).
  assert (Forall (fun p => exists a b, p = diff a b) (history (new initial))) as Hnew
    by apply Forall_nil_2.
  revert Hrun Hnew. generalize (new initial). clear initial.
  induction ops as [|o ops IH]; intros s0 Hrun Hs0; simpl in Hrun.
  - by injection Hrun as <-.
  - destruct (step diff o s0) as [s1|] eqn:Hstep; [|done].
    apply (IH s1 Hrun). by eapply step_differ_entries.
Qed.
End ledger_more.

(** ** One difference, forwards and backwards *)

Lemma set_cons n k rest c v :
  rest ≠ [] -> get n k = Some c -> isObject c = true ->
  Lodash.set n (k :: rest) v = assign n k (Lodash.set c rest v).
Proof. intros Hr Hg Hc. destruct rest; [done|]. simpl. by rewrite Hg, Hc. Qed.

Lemma unset_cons n k rest c :
  rest ≠ [] -> get n k = Some c ->
  Lodash.unset n (k :: rest) = assign n k (Lodash.unset c rest).
Proof. intros Hr Hg. destruct rest; [done|]. simpl. by rewrite Hg. Qed.

Lemma get_Some_isObject n k c : get n k = Some c -> isObject n = true.
Proof. by destruct n. Qed.

Lemma getPath_isObject n path v :
  path ≠ [] -> getPath n path = Some v -> isObject n = true.
Proof.
  destruct path as [|k rest]; [done|]. simpl. intros _.
  destruct (get n k) eqn:Hg; [|done]. intros _. by eapply get_Some_isObject.
Qed.

Lemma get_deleteProp_eq n k : get (deleteProp n k) k = None.
Proof.
  destruct n as [v|xs named|fs]; simpl; [done| |apply prop_get_delete_eq].
  destruct (asIndex k) as [i|] eqn:Hi; simpl; rewrite Hi.
  - unfold slot_get, slot_delete.
    destruct (decide (i < length xs)%nat).
    + by rewrite list_lookup_insert_eq.
    + by rewrite lookup_ge_None_2 by (rewrite length_insert; lia).
  - apply prop_get_delete_eq.
Qed.

(** Reading a path that has just been written. *)
Lemma getPath_set n path v old :
  path ≠ [] -> getPath n path = Some old ->
  getPath (Lodash.set n path v) path = Some v.
Proof.
  revert n. induction path as [|k rest IH]; intros n Hp Hg; [done|].
  simpl in Hg. destruct (get n k) as [c|] eqn:Hk; [|done].
  pose proof (get_Some_isObject n k c Hk) as Hn.
  destruct (decide (rest = [])) as [->|Hrest].
  - simpl. by rewrite get_assign_eq.
  - pose proof (getPath_isObject c rest old Hrest Hg) as Hc.
    rewrite (set_cons n k rest c) by done.
    cbn [getPath]. rewrite get_assign_eq by done. by apply IH.
Qed.

Lemma set_set_back n path v old :
  path ≠ [] -> getPath n path = Some old ->
  Lodash.set (Lodash.set n path v) path old = n.
Proof.
  revert n. induction path as [|k rest IH]; intros n Hp Hg; [done|].
  simpl in Hg. destruct (get n k) as [c|] eqn:Hk; [|done].
  pose proof (get_Some_isObject n k c Hk) as Hn.
  destruct (decide (rest = [])) as [->|Hrest].
  - simpl in *. injection Hg as ->. rewrite assign_assign. by apply assign_same.
  - pose proof (getPath_isObject c rest old Hrest Hg) as Hc.
    rewrite (set_cons n k rest c) by done.
    rewrite (set_cons _ k rest (Lodash.set c rest v));
      [|done|by apply get_assign_eq|by rewrite set_isObject].
    rewrite assign_assign, IH by done. by apply assign_same.
Qed.

Lemma getPath_unset n path old :
  path ≠ [] -> getPath n path = Some old ->
  getPath (Lodash.unset n path) path = None.
Proof.
  revert n. induction path as [|k rest IH]; intros n Hp Hg; [done|].
  simpl in Hg. destruct (get n k) as [c|] eqn:Hk; [|done].
  pose proof (get_Some_isObject n k c Hk) as Hn.
  destruct (decide (rest = [])) as [->|Hrest].
  - simpl. by rewrite get_deleteProp_eq.
  - rewrite (unset_cons n k rest c) by done.
    cbn [getPath]. rewrite get_assign_eq by done. by apply IH.
Qed.

Lemma equiv_assign n k r c :
  get n k = Some c -> Node_equiv r c -> Node_equiv (assign n k r) n.
Proof.
  intros Hg Hr. destruct n as [v|xs named|fs]; simpl in *; [done| |].
  - destruct (asIndex k) as [i|] eqn:Hi.
    + assert (xs !! i = Some (Some c)) as Hx.
      { unfold slot_get in Hg. by destruct (xs !! i) as [[x|]|]; simplify_eq/=. }
      unfold slot_set. rewrite decide_True by (by eapply lookup_lt_Some).
      apply equiv_arr;
        [|intros k'; destruct (prop_get k' named); constructor; apply Node_equiv_refl].
      rewrite <- (list_insert_id xs i (Some c)) at 2 by done.
      apply Forall2_insert; [|by constructor].
      apply Forall_Forall2_diag, Forall_forall. intros x _.
      destruct x; constructor. apply Node_equiv_refl.
    + apply equiv_arr.
      * apply Forall_Forall2_diag, Forall_forall. intros x _.
        destruct x; constructor. apply Node_equiv_refl.
      * intros k'. rewrite prop_get_set. case_decide as Hk; [subst k'|].
        -- rewrite Hg. by constructor.
        -- destruct (prop_get k' named); constructor. apply Node_equiv_refl.
  - apply equiv_obj. intros k'. rewrite prop_get_set. case_decide as Hk; [subst k'|].
    + rewrite Hg. by constructor.
    + destruct (prop_get k' fs); constructor. apply Node_equiv_refl.
Qed.

Lemma assign_delete_equiv n k old :
  get n k = Some old -> Node_equiv (assign (deleteProp n k) k old) n.
Proof.
  intros Hg.
  assert (forall (ps : list (string * Node)) key k',
            prop_get key ps = Some old ->
            option_Forall2 Node_equiv
              (prop_get k' (prop_set key old (prop_delete key ps)))
              (prop_get k' ps)) as Hprops.
  { intros ps key k' Hps. rewrite prop_get_set. case_decide as Hk; [subst k'|].
    - rewrite Hps. constructor. apply Node_equiv_refl.
    - rewrite prop_get_delete_ne by done.
      destruct (prop_get k' ps); constructor. apply Node_equiv_refl. }
  assert (forall xs : list (option Node),
            Forall2 (option_Forall2 Node_equiv) xs xs) as Hrefl.
  { intros xs. apply Forall_Forall2_diag, Forall_forall. intros x _.
    destruct x; constructor. apply Node_equiv_refl. }
  destruct n as [v|xs named|fs]; simpl in *; [done| |].
  - destruct (asIndex k) as [i|] eqn:Hi; simpl; rewrite Hi.
    + assert (xs !! i = Some (Some old)) as Hx.
      { unfold slot_get in Hg. by destruct (xs !! i) as [[x|]|]; simplify_eq/=. }
      unfold slot_set, slot_delete.
      rewrite decide_True by (rewrite length_insert; by eapply lookup_lt_Some).
      rewrite list_insert_insert_eq, list_insert_id by done.
      apply equiv_arr; [apply Hrefl|].
      intros k'. destruct (prop_get k' named); constructor. apply Node_equiv_refl.
    + apply equiv_arr; [apply Hrefl|]. intros k'. by apply Hprops.
  - apply equiv_obj. intros k'. by apply Hprops.
Qed.

Lemma unset_set_back n path old :
  path ≠ [] -> getPath n path = Some old ->
  Node_equiv (Lodash.set (Lodash.unset n path) path old) n.
Proof.
  revert n. induction path as [|k rest IH]; intros n Hp Hg; [done|].
  simpl in Hg. destruct (get n k) as [c|] eqn:Hk; [|done].
  pose proof (get_Some_isObject n k c Hk) as Hn.
  destruct (decide (rest = [])) as [->|Hrest].
  - simpl in *. injection Hg as ->. by apply assign_delete_equiv.
  - pose proof (getPath_isObject c rest old Hrest Hg) as Hc.
    rewrite (unset_cons n k rest c) by done.
    rewrite (set_cons _ k rest (Lodash.unset c rest));
      [|done|by apply get_assign_eq|by rewrite unset_isObject].
    rewrite assign_assign. apply (equiv_assign n k _ c); [done|]. by apply IH.
Qed.

Lemma prop_delete_set_absent {A} k (v : A) (ps : props A) :
  prop_get k ps = None -> prop_delete k (prop_set k v ps) = ps.
Proof.
  induction ps as [|[k' v'] tl IH]; simpl.
  - by rewrite decide_True.
  - destruct (decide (k = k')) as [->|Hne]; [done|]. intros H. simpl.
    rewrite decide_False by done. f_equal. by apply IH.
Qed.

Lemma set_created n parent key fs v :
  getPath n parent = Some (Obj fs) -> prop_get (toKey key) fs = None ->
  getPath (Lodash.set n (parent ++ [key]) v) (parent ++ [key]) = Some v
  /\ Lodash.unset (Lodash.set n (parent ++ [key]) v) (parent ++ [key]) = n.
Proof.
  revert n. induction parent as [|k rest IH]; intros n Hg Hk.
  - simpl in *. injection Hg as ->. simpl. rewrite prop_get_set_eq.
    by rewrite prop_delete_set_absent.
  - simpl in Hg. destruct (get n k) as [c|] eqn:Hc; [|done].
    pose proof (get_Some_isObject n k c Hc) as Hn.
    assert (isObject c = true) as Hobj.
    { destruct rest; simpl in Hg; [by injection Hg as ->|].
      destruct (get c k0) eqn:?; [|done]. by eapply get_Some_isObject. }
    assert (rest ++ [key] ≠ []) as Hne by (by destruct rest).
    destruct (IH c Hg Hk) as [IH1 IH2].
    change ((k :: rest) ++ [key]) with (k :: (rest ++ [key])).
    rewrite (set_cons n k _ c) by done. split.
    + cbn [getPath]. by rewrite get_assign_eq.
    + rewrite (unset_cons _ k _ (Lodash.set c (rest ++ [key]) v));
        [|done|by apply get_assign_eq].
      rewrite assign_assign, IH2. by apply assign_same.
Qed.

(** X10.  One difference, applied as in the loop of [applyPatch] and then
    reverted as in the loop of [undo], gives back the snapshot it was
    applied to, provided it describes that snapshot: a CHANGE or REMOVE whose path holds
    its old value, or a CREATE of a key that a plain object lacks.  (After
    a REMOVE the key is back with its value, possibly later in the
    enumeration order.)  In between, the path holds the new value, or
    nothing after a REMOVE. *)
Theorem applied_difference_is_undone n d :
  plain n = true -> describes n d ->
  Node_equiv (undoItem (applyItem n d) d) n
  /\ getPath (applyItem n d) (path_of d)
     = match d with
       | CREATE _ value | CHANGE _ value _ => Some value
       | REMOVE _ _ => None
       end.
Proof.
  intros _. destruct d as [path value|path value oldValue|path oldValue]; simpl.
  - intros (parent & key & fs & -> & Hg & Hk).
    destruct (set_created n parent key fs value Hg Hk) as [H1 H2].
    rewrite H2. split; [apply Node_equiv_refl|done].
  - intros [Hp Hg]. rewrite set_set_back by done.
    split; [apply Node_equiv_refl|]. by eapply getPath_set.
  - intros [Hp Hg]. split; [by apply unset_set_back|]. by eapply getPath_unset.
Qed.

(** ** The pointer gestures of the example application *)

Lemma cloneDeep_isObject n : isObject (Lodash.cloneDeep n) = isObject n.
Proof. by destruct n. Qed.

Section gestures.
Variable diff : Node -> Node -> Patch.

Lemma mutate_current m s : current (mutate diff m s) = m (Lodash.cloneDeep (current s)).
Proof.
  unfold mutate, didChange. simpl. by destruct (isPaused (willChange s)).
Qed.

(** What holds during a drag. *)
Lemma drag_paused moves s :
  isPaused s = true -> didChangeWhilePaused s = true ->
  isObject (current s) = true ->
  Forall (fun mv => keeps_object mv.1.1 /\ keeps_object mv.1.2) moves ->
  let s' := CustomStore.drag diff moves s in
  isPaused s' = true /\ didChangeWhilePaused s' = true
  /\ history s' = history s /\ pointer s' = pointer s /\ prev s' = prev s
  /\ isObject (current s') = true.
Proof.
  revert s. induction moves as [|[[moveAll moveOne] shiftKey] moves IH];
    intros s Hp Hd Hobj Hms; simpl; [done|].
  apply Forall_cons in Hms as [[Hall Hone] Hms]. simpl in Hall, Hone.
  set (s1 := CustomStore.movePointingNode diff moveAll moveOne shiftKey s).
  assert (isPaused s1 = true /\ didChangeWhilePaused s1 = true
          /\ history s1 = history s /\ pointer s1 = pointer s /\ prev s1 = prev s
          /\ isObject (current s1) = true) as (H1 & H2 & H3 & H4 & H5 & H6).
  { unfold s1, CustomStore.movePointingNode.
    destruct (_ && _); [|done].
    destruct shiftKey.
    - destruct (mutate_while_paused diff moveAll s Hp) as (K1 & K2 & K3 & K4 & K5).
      rewrite Hd in K5. rewrite mutate_current.
      split_and!; try done. apply Hall. by rewrite cloneDeep_isObject.
    - destruct (mutate_while_paused diff moveOne s Hp) as (K1 & K2 & K3 & K4 & K5).
      rewrite Hd in K5. rewrite mutate_current.
      split_and!; try done. apply Hone. by rewrite cloneDeep_isObject. }
  destruct (IH s1 H1 H2 H6 Hms) as (K1 & K2 & K3 & K4 & K5 & K6).
  split_and!; congruence.
Qed.

(** X11.  A pointer gesture of the example application is one step of
    the history.  [startPointingNode], any number of [movePointingNode]
    calls and [stopPointingNode], on a store that was not paused: nothing is
    committed during the drag; at the end one entry has been added, the
    difference between the state before the gesture and the final state;
    the store is not paused, its status is "idle" and nothing is selected,
    so that further [movePointingNode] calls do nothing. *)
Theorem pointing_gesture_commits_once id moves s :
  isPaused s = false -> didChangeWhilePaused s = false ->
  isObject (current s) = true ->
  Forall (fun mv => keeps_object mv.1.1 /\ keeps_object mv.1.2) moves ->
  let dragged := CustomStore.drag diff moves (CustomStore.startPointingNode diff id s) in
  let s' := CustomStore.stopPointingNode diff dragged in
  (isPaused dragged = true /\ history dragged = history s
   /\ pointer dragged = pointer s)
  /\ history s'
     = take (Z.to_nat (pointer s + 1)) (history s)
         ++ [diff (current s) (current s')]
  /\ pointer s' = pointer s + 1
  /\ isPaused s' = false /\ didChangeWhilePaused s' = false
  /\ get (current s') (KStr "status") = Some (str "idle")
  /\ get (current s') (KStr "selectedId") = Some (Scalar SNull)
  /\ (forall moveAll moveOne shiftKey,
        CustomStore.movePointingNode diff moveAll moveOne shiftKey s' = s').
Proof.
  intros Hp Hd Hobj Hms dragged s'.
  set (s0 := CustomStore.startPointingNode diff id s).
  assert (isPaused s0 = true /\ didChangeWhilePaused s0 = true
          /\ history s0 = history s /\ pointer s0 = pointer s
          /\ prev s0 = current s) as (A1 & A2 & A3 & A4 & A5).
  { destruct (mutate_while_paused diff (CustomStore.select id) (pause s) eq_refl)
      as (K1 & K2 & K3 & K4 & K5).
    change (didChangeWhilePaused (pause s)) with (didChangeWhilePaused s) in K5.
    rewrite Hd in K5. done. }
  assert (isObject (current s0) = true) as A6.
  { unfold s0, CustomStore.startPointingNode. rewrite mutate_current.
    unfold CustomStore.select. by rewrite !assign_isObject, cloneDeep_isObject. }
  destruct (drag_paused moves s0 A1 A2 A6 Hms) as (B1 & B2 & B3 & B4 & B5 & B6).
  change (CustomStore.drag diff moves s0) with dragged in B1, B2, B3, B4, B5, B6.
  set (s2 := mutate diff CustomStore.deselect dragged).
  destruct (mutate_while_paused diff CustomStore.deselect dragged B1)
    as (C1 & C2 & C3 & C4 & C5).
  fold s2 in C1, C2, C3, C4, C5. rewrite B2 in C5.
  assert (current s2 = CustomStore.deselect (Lodash.cloneDeep (current dragged))) as C6.
  { unfold s2. by rewrite mutate_current. }
  assert (current s' = current s2 /\ isPaused s' = false
          /\ didChangeWhilePaused s' = false
          /\ pointer s' = pointer s2 + 1
          /\ history s'
             = take (Z.to_nat (pointer s2 + 1)) (history s2)
                 ++ [diff (prev s2) (current s2)]) as (D1 & D2 & D3 & D4 & D5).
  { unfold s', CustomStore.stopPointingNode. fold s2. unfold resume. rewrite C2.
    simpl. done. }
  assert (isObject (Lodash.cloneDeep (current dragged)) = true) as Hclone
    by (by rewrite cloneDeep_isObject).
  assert (get (current s') (KStr "status") = Some (str "idle")) as Hstatus.
  { rewrite D1, C6. unfold CustomStore.deselect.
    rewrite get_assign_ne by done. by rewrite get_assign_eq. }
  split_and!.
  - done.
  - congruence.
  - congruence.
  - rewrite D5, D1. congruence.
  - congruence.
  - done.
  - done.
  - done.
  - rewrite D1, C6. unfold CustomStore.deselect.
    by rewrite get_assign_eq by (by rewrite assign_isObject).
  - intros moveAll moveOne shiftKey. unfold CustomStore.movePointingNode.
    by rewrite Hstatus.
Qed.
End gestures.


Section canvas.
Variable diff : Node -> Node -> Patch.

End canvas.

(** * [applyPatch] below one parent *)

Module CopiesFacts.
Import Heap Copies.

Lemma own_of_below h v w :
  closed h = true -> w ∈ (own_of h v).*2 -> ref_below (length h) w = true.
Proof.
  intros Hc Hw. destruct w as [p|x|]; try done. simpl.
  apply bool_decide_eq_true_2.
  destruct v as [p|l|]; simpl in Hw; try by apply elem_of_nil in Hw.
  { destruct p; try by apply elem_of_nil in Hw.
    by apply HeapFacts.units_prim in Hw as [? [=]]. }
  destruct (h !! l) as [o|] eqn:Hl; [|by apply elem_of_nil in Hw].
  apply HeapFacts.own_values in Hw. by eapply HeapFacts.closed_values.
Qed.

Lemma child_below h v k : closed h = true -> ref_below (length h) (child h v k) = true.
Proof.
  intros Hc. unfold child. destruct (prop_get (toKey k) (own_of h v)) as [w|] eqn:Hg.
  - simpl. apply (own_of_below h v); [done|]. by eapply HeapFacts.prop_get_values.
  - done.
Qed.

Lemma own_of_app h tl v :
  ref_below (length h) v = true -> own_of (h ++ tl) v = own_of h v.
Proof.
  destruct v as [|x|]; simpl; try done. intros Hx.
  apply bool_decide_eq_true_1 in Hx. by rewrite lookup_app_l.
Qed.

Lemma chain_length h v ks base : length (chain h v ks base) = length ks.
Proof. revert v base. induction ks as [|k ks IH]; intros v base; simpl; [done|]. by rewrite IH. Qed.

(** The first walk along [ks]: every step is copied. *)
Lemma walk_first h ks : forall pre v refs,
  closed h = true ->
  NoDup ks -> (forall k, k ∈ ks -> k ∉ refs) ->
  let b := (length h + length pre)%nat in
  walk (h ++ pre ++ [OObj (own_of h v)]) refs (Ref b) ks
  = Some (h ++ pre ++ chain h v ks b ++ [OObj (own_of h (deep h v ks))],
          reverse ks ++ refs, Ref (b + length ks)).
Proof.
  induction ks as [|k ks IH]; intros pre v refs Hc Hnd Hrefs b.
  - simpl. by rewrite Nat.add_0_r.
  - apply NoDup_cons in Hnd as [Hk Hnd].
    assert (k ∉ refs) as Hkr by (apply Hrefs; left).
    cbn [walk]. rewrite decide_False by done.
    assert ((h ++ pre ++ [OObj (own_of h v)]) !! b = Some (OObj (own_of h v))) as Hb.
    { rewrite app_assoc. rewrite lookup_app_r by (rewrite length_app; lia).
      rewrite length_app. by replace (b - (length h + length pre))%nat with 0%nat by lia. }
    assert (read (h ++ pre ++ [OObj (own_of h v)]) (Ref b) k = Some (child h v k)) as Hread.
    { simpl. by rewrite Hb. }
    rewrite Hread. cbn [mbind option_bind].
    assert (own_of (h ++ pre ++ [OObj (own_of h v)]) (child h v k)
            = own_of h (child h v k)) as Hown.
    { apply own_of_app. by apply child_below. }
    unfold assign_to_empty, alloc. rewrite Hown.
    replace (length (h ++ pre ++ [OObj (own_of h v)])) with (S b)
      by (rewrite !length_app; simpl; lia).
    set (c0 := OObj (prop_set (toKey k) (Ref (S b)) (own_of h v))).
    assert (write ((h ++ pre ++ [OObj (own_of h v)]) ++ [OObj (own_of h (child h v k))])
              (Ref b) k (Ref (S b))
            = Some (h ++ (pre ++ [c0]) ++ [OObj (own_of h (child h v k))])) as Hwrite.
    { simpl. rewrite lookup_app_l by (apply lookup_lt_Some in Hb; done).
      rewrite Hb. simpl. f_equal.
      rewrite insert_app_l by (apply lookup_lt_Some in Hb; done).
      rewrite app_assoc.
      rewrite insert_app_r_alt by (rewrite length_app; lia).
      rewrite length_app.
      replace (b - (length h + length pre))%nat with 0%nat by lia. simpl.
      by rewrite <- !app_assoc. }
    rewrite Hwrite. cbn [mbind option_bind].
    assert (read (h ++ (pre ++ [c0]) ++ [OObj (own_of h (child h v k))]) (Ref b) k
            = Some (Ref (S b))) as Hread2.
    { simpl. rewrite <- app_assoc, app_assoc.
      rewrite lookup_app_r by (rewrite length_app; lia).
      rewrite length_app.
      replace (b - (length h + length pre))%nat with 0%nat by lia. simpl.
      by rewrite prop_get_set_eq. }
    rewrite Hread2. cbn [mbind option_bind].
    replace (S b) with (length h + length (pre ++ [c0]))%nat
      by (rewrite length_app; simpl; lia).
    rewrite IH; [| done | done |].
    + f_equal. f_equal; [f_equal|].
      * rewrite <- !app_assoc. simpl. do 3 f_equal.
        rewrite length_app. simpl.
        by replace (length h + (length pre + 1))%nat with (S b) by lia.
      * rewrite reverse_cons, <- app_assoc. done.
      * f_equal. rewrite length_app. simpl. lia.
    + intros k' Hk'. rewrite not_elem_of_cons. split; [by intros ->|].
      apply Hrefs. by right.
Qed.

(** A later walk along [ks]: every step is in [refs] and leads to its copy. *)
Lemma walk_again h ks : forall pre v (refs : list Key) last,
  (forall k, k ∈ ks -> k ∈ refs) ->
  let b := (length h + length pre)%nat in
  let heap' := h ++ pre ++ chain h v ks b ++ [last] in
  walk heap' refs (Ref b) ks = Some (heap', refs, Ref (b + length ks)).
Proof.
  induction ks as [|k ks IH]; intros pre v refs last Hrefs b heap'.
  - simpl. by rewrite Nat.add_0_r.
  - cbn [walk]. rewrite decide_True by (apply Hrefs; left).
    cbn [mbind option_bind].
    set (c0 := OObj (prop_set (toKey k) (Ref (S b)) (own_of h v))).
    assert (heap' = h ++ (pre ++ [c0]) ++ chain h (child h v k) ks (S b) ++ [last])
      as Hheap by (unfold heap'; simpl; by rewrite <- !app_assoc).
    assert (read heap' (Ref b) k = Some (Ref (S b))) as Hread.
    { unfold heap'. simpl. rewrite app_assoc.
      rewrite lookup_app_r by (rewrite length_app; lia).
      rewrite length_app.
      replace (b - (length h + length pre))%nat with 0%nat by lia. simpl.
      by rewrite prop_get_set_eq. }
    rewrite Hread. cbn [mbind option_bind].
    rewrite Hheap.
    replace (S b) with (length h + length (pre ++ [c0]))%nat
      by (rewrite length_app; simpl; lia).
    rewrite IH by (intros k' Hk'; apply Hrefs; by right).
    do 3 f_equal. rewrite length_app. simpl. lia.
Qed.

(** The object a walk ends at, and what writing to it gives. *)
Lemma last_lookup (h pre mid : heap) (o : object) :
  (h ++ pre ++ mid ++ [o]) !! (length h + length pre + length mid)%nat = Some o.
Proof.
  rewrite !app_assoc. rewrite lookup_app_r by (rewrite !length_app; lia).
  rewrite !length_app.
  by replace (length h + length pre + length mid
              - (length h + length pre + length mid))%nat with 0%nat by lia.
Qed.

Lemma last_insert (h pre mid : heap) (o o' : object) :
  <[(length h + length pre + length mid)%nat := o']> (h ++ pre ++ mid ++ [o])
  = h ++ pre ++ mid ++ [o'].
Proof.
  rewrite !app_assoc. rewrite insert_app_r_alt by (rewrite !length_app; lia).
  rewrite !length_app.
  by replace (length h + length pre + length mid
              - (length h + length pre + length mid))%nat with 0%nat by lia.
Qed.

Lemma lastKey_snoc ks (k : Key) : lastKey (ks ++ [k]) = k.
Proof. unfold lastKey. by rewrite last_snoc. Qed.

(** The last step of [applyItem] on the plain object a walk ends at. *)
Lemma finish_item (h mid heap0 : heap) fs item (refs0 refs : list Key) ks k :
  path_of item = ks ++ [k] ->
  walk heap0 refs0 (Ref (length h)) ks
  = Some (h ++ mid ++ [OObj fs], refs, Ref (length h + length mid)) ->
  applyItem (Ref (length h)) (heap0, refs0, []) item
  = Some (h ++ mid ++ [OObj (apply_last fs item)], refs, []).
Proof.
  intros Hpath Hwalk. unfold applyItem. rewrite Hpath, removelast_last, Hwalk.
  cbn [mbind option_bind].
  pose proof (last_lookup h [] mid (OObj fs)) as Hl.
  pose proof (last_insert h [] mid (OObj fs)) as Hi.
  simpl in Hl, Hi. rewrite Nat.add_0_r in Hl, Hi.
  destruct item as [path value|path value old|path old]; simpl in Hpath; subst path;
    simpl; rewrite ?lastKey_snoc, Hl; simpl; by rewrite Hi.
Qed.

Lemma fold_again h target ks (refs : list Key) patch : forall fs,
  (forall k, k ∈ ks -> k ∈ refs) ->
  Forall (fun d => exists k, path_of d = ks ++ [k]) patch ->
  foldM (applyItem (Ref (length h)))
    (h ++ chain h target ks (length h) ++ [OObj fs], refs, []) patch
  = Some (h ++ chain h target ks (length h) ++ [OObj (fold_left apply_last patch fs)],
          refs, []).
Proof.
  induction patch as [|item patch IH]; intros fs Hrefs Hpatch; [done|].
  apply Forall_cons in Hpatch as [[k Hpath] Hpatch].
  cbn [foldM].
  pose proof (walk_again h ks [] target refs (OObj fs) Hrefs) as Hwalk.
  simpl in Hwalk. rewrite Nat.add_0_r in Hwalk.
  rewrite (finish_item h (chain h target ks (length h)) _ fs item refs refs ks k Hpath);
    [|by rewrite chain_length].
  cbn [mbind option_bind]. by apply IH.
Qed.

(** X12.  [applyPatch] on a patch whose differences all lie directly under
    one path [ks] of pairwise distinct steps, for a target that is not an
    array, in a heap without dangling references.  The call does not
    raise and returns a new reference.  Every object that existed keeps
    its properties.  One plain object is allocated per step: a copy of the
    value the step starts from (the code units of a string, nothing of
    another primitive), in which the step leads to the next copy.
    The last copy holds the properties of the original at [ks] with the
    differences applied at their last keys, in order: a set for CREATE and
    CHANGE, a delete for REMOVE. *)
Theorem applyPatch_below_one_parent h target ks patch :
  closed h = true -> isArray h target = false -> NoDup ks ->
  Forall (fun d => exists k, path_of d = ks ++ [k]) patch ->
  (patch = [] -> ks = []) ->
  applyPatch h target patch
  = Some (Ref (length h),
          h ++ chain h target ks (length h)
            ++ [OObj (fold_left apply_last patch (own_of h (deep h target ks)))]).
Proof.
  intros Hc Harr Hnd Hpatch Hempty. unfold applyPatch. rewrite Harr.
  unfold assign_to_empty, alloc.
  destruct patch as [|item patch].
  - rewrite (Hempty eq_refl). done.
  - apply Forall_cons in Hpatch as [[k Hpath] Hpatch]. cbn [foldM].
    pose proof (walk_first h ks [] target [] Hc Hnd) as Hwalk.
    simpl in Hwalk. rewrite Nat.add_0_r, app_nil_r in Hwalk.
    rewrite (finish_item h (chain h target ks (length h)) _
               (own_of h (deep h target ks)) item [] (reverse ks) ks k Hpath);
      [|rewrite chain_length; apply Hwalk; intros ? _; apply not_elem_of_nil].
    cbn [mbind option_bind].
    rewrite (fold_again h target ks (reverse ks) patch); [done| |done].
    intros k' Hk'. by apply elem_of_reverse.
Qed.
End CopiesFacts.

(** * [applyPatch] at the root and along repeated steps *)

Module RootFacts.
Import Heap Copies.

(** Reading step by step. *)
Ltac read_with tac :=
  cbn [readPath read mbind option_bind obj_get default from_option id]; tac.

(** X13.  [applyPatch] on a target that is an array.  A CREATE or CHANGE
    at a top-level index is applied to a copy of the slots ([target.slice()],
    which leaves the named properties behind), and the target keeps its
    own.  A REMOVE at a top-level index raises: the slot is marked with
    [REMOVE_SYMBOL], and the queued closure then calls [filter] on the
    marked slot itself. *)
Theorem applyPatch_on_array h l xs named i value old :
  h !! l = Some (OArr xs named) ->
  applyPatch h (Ref l) [CREATE [KNum i] value]
  = Some (Ref (length h), h ++ [OArr (slot_set i value xs) []])
  /\ applyPatch h (Ref l) [CHANGE [KNum i] value old]
     = Some (Ref (length h), h ++ [OArr (slot_set i value xs) []])
  /\ applyPatch h (Ref l) [REMOVE [KNum i] old] = None.
Proof.
  intros Hl.
  assert ((h ++ [OArr xs []]) !! length h = Some (OArr xs [])) as Hnext.
  { rewrite lookup_app_r, Nat.sub_diag by lia. done. }
  assert (forall o, <[length h := o]> (h ++ [OArr xs []]) = h ++ [o]) as Hins.
  { intros o. rewrite insert_app_r_alt, Nat.sub_diag by lia. done. }
  unfold applyPatch. simpl. rewrite Hl. simpl. rewrite !Hnext. simpl.
  rewrite !Hins. simpl. split_and!; try done.
  unfold runDeletion. cbn [fst snd read].
  rewrite lookup_app_r, Nat.sub_diag by lia.
  cbn [lookup list_lookup mbind option_bind obj_get asIndex].
  by rewrite slot_get_set_eq.
Qed.

(** X14.  The set [refs] of [applyPatch] holds step names, not paths.
    When a path takes the same step twice, the second object on the way
    is not copied: the difference is written into the object of the target
    itself, and the target shows the new value afterwards. *)
Theorem applyPatch_repeated_step_writes_into_target h l0 l1 l2 f0 f1 f2 k j v old :
  h !! l0 = Some (OObj f0) -> prop_get (toKey k) f0 = Some (Ref l1) ->
  h !! l1 = Some (OObj f1) -> prop_get (toKey k) f1 = Some (Ref l2) ->
  h !! l2 = Some (OObj f2) -> l2 ≠ l0 -> l2 ≠ l1 ->
  exists h',
    applyPatch h (Ref l0) [CHANGE [k; k; j] v old] = Some (Ref (length h), h')
    /\ h' !! l2 = Some (OObj (prop_set (toKey j) v f2))
    /\ readPath h (Ref l0) [k; k; j] = Some (default undefined (prop_get (toKey j) f2))
    /\ readPath h' (Ref l0) [k; k; j] = Some v.
Proof.
  intros H0 Hk0 H1 Hk1 H2 Hne0 Hne1.
  pose proof (lookup_lt_Some _ _ _ H0) as Hb0.
  pose proof (lookup_lt_Some _ _ _ H1) as Hb1.
  pose proof (lookup_lt_Some _ _ _ H2) as Hb2.
  set (b := length h).
  set (c0 := OObj (prop_set (toKey k) (Ref (S b)) f0)).
  set (heap2 := h ++ [c0; OObj f1]).
  assert (heap2 !! l2 = Some (OObj f2)) as Hl2 by (unfold heap2; by rewrite lookup_app_l).
  set (h' := <[l2 := OObj (prop_set (toKey j) v f2)]> heap2).
  assert (h' !! l2 = Some (OObj (prop_set (toKey j) v f2))) as Hh2.
  { unfold h'. rewrite list_lookup_insert_eq; [done|]. by eapply lookup_lt_Some. }
  assert (h' !! l0 = Some (OObj f0)) as Hh0.
  { unfold h', heap2. rewrite list_lookup_insert_ne by done. by rewrite lookup_app_l. }
  assert (h' !! l1 = Some (OObj f1)) as Hh1.
  { unfold h', heap2. rewrite list_lookup_insert_ne by done. by rewrite lookup_app_l. }
  exists h'.
  assert (walk (h ++ [OObj f0]) [] (Ref b) [k; k] = Some (heap2, [k], Ref l2)) as Hwalk.
  { cbn [walk]. rewrite decide_False by apply not_elem_of_nil.
    assert (read (h ++ [OObj f0]) (Ref b) k = Some (Ref l1)) as ->.
    { simpl. unfold b. rewrite lookup_app_r, Nat.sub_diag by lia. simpl. by rewrite Hk0. }
    cbn [mbind option_bind]. unfold assign_to_empty, alloc. simpl own_of.
    rewrite lookup_app_l, H1 by done.
    replace (length (h ++ [OObj f0])) with (S b) by (rewrite length_app; simpl; lia).
    change (own (OObj f1)) with f1.
    assert (write ((h ++ [OObj f0]) ++ [OObj f1]) (Ref b) k (Ref (S b)) = Some heap2) as ->.
    { simpl. unfold b. rewrite <- app_assoc. rewrite lookup_app_r, Nat.sub_diag by lia.
      simpl. by rewrite insert_app_r_alt, Nat.sub_diag by lia. }
    cbn [mbind option_bind].
    assert (read heap2 (Ref b) k = Some (Ref (S b))) as ->.
    { simpl. unfold heap2, b. rewrite lookup_app_r, Nat.sub_diag by lia. simpl.
      by rewrite prop_get_set_eq. }
    cbn [mbind option_bind]. rewrite decide_True by (apply list_elem_of_here).
    cbn [mbind option_bind].
    assert (read heap2 (Ref (S b)) k = Some (Ref l2)) as ->.
    { simpl. unfold heap2, b. rewrite lookup_app_r by lia.
      replace (S (length h) - length h)%nat with 1%nat by lia. simpl. by rewrite Hk1. }
    done. }
  split_and!.
  - unfold applyPatch. simpl isArray. rewrite H0.
    unfold assign_to_empty, alloc. simpl own_of. rewrite H0. fold b.
    cbn [foldM]. unfold applyItem. cbn [path_of removelast].
    change (own (OObj f0)) with f0. rewrite Hwalk. cbn [mbind option_bind]. simpl. rewrite Hl2. simpl. done.
  - done.
  - by do 5 read_with ltac:(first [rewrite H0|rewrite Hk0|rewrite H1|rewrite Hk1|rewrite H2]).
  - do 5 read_with ltac:(first [rewrite Hh0|rewrite Hk0|rewrite Hh1|rewrite Hk1|rewrite Hh2]).
    read_with ltac:(rewrite prop_get_set_eq). done.
Qed.
End RootFacts.

(** * [runCommand] *)

Module LiquorFacts.
Import Heap.

Section commands.
Variable diff : heap -> val -> val -> list (Difference val).

Lemma willChange_current s : current (Liquor.willChange s) = current s.
Proof. unfold Liquor.willChange. by repeat case_match. Qed.

Lemma didChange_current h s : current (Liquor.didChange diff h s) = current s.
Proof. unfold Liquor.didChange. by destruct (isPaused s). Qed.

Lemma didChange_prev h s : prev (Liquor.didChange diff h s) = prev s.
Proof. unfold Liquor.didChange. by destruct (isPaused s). Qed.

Lemma willChange_prev s : isPaused s = false -> prev (Liquor.willChange s) = current s.
Proof. intros Hp. unfold Liquor.willChange. by rewrite Hp. Qed.

(** X15.  [runCommand] hands its function a copy of the top level only,
    as its documentation says.  A function that writes through the
    reference it finds under [a] changes the object that the state from
    before the call holds there: that state shows the new value too.  A
    function that first puts a fresh copy under [a] leaves every object of
    the earlier heap as it was. *)
Theorem runCommand_copies_the_top_level_only h s l0 f0 la fa a x v :
  current s = Ref l0 ->
  h !! l0 = Some (OObj f0) -> prop_get (toKey a) f0 = Some (Ref la) ->
  h !! la = Some (OObj fa) -> la ≠ l0 ->
  (exists h' s',
      Liquor.runCommand diff (Liquor.writeThrough a x v) h s = Some (h', s')
      /\ current s' = Ref (length h)
      /\ (isPaused s = false -> prev s' = Ref l0)
      /\ h' !! l0 = Some (OObj f0)
      /\ h' !! la = Some (OObj (prop_set (toKey x) v fa))
      /\ read h' (current s') a = Some (Ref la)
      /\ readPath h' (Ref l0) [a; x] = Some v)
  /\ (exists h' s',
         Liquor.runCommand diff (Liquor.writeFresh a x v) h s = Some (h', s')
         /\ current s' = Ref (length h)
         /\ (isPaused s = false -> prev s' = Ref l0)
         /\ take (length h) h' = h
         /\ readPath h' (current s') [a; x] = Some v
         /\ readPath h' (Ref l0) [a; x] = readPath h (Ref l0) [a; x]).
Proof.
  intros Hcur H0 Ha Hla Hne.
  pose proof (lookup_lt_Some _ _ _ H0) as Hb0.
  pose proof (lookup_lt_Some _ _ _ Hla) as Hba.
  set (b := length h).
  assert ((h ++ [OObj f0]) !! b = Some (OObj f0)) as Hb
    by (unfold b; by rewrite lookup_app_r, Nat.sub_diag by lia).
  split.
  - set (h' := <[la := OObj (prop_set (toKey x) v fa)]> (h ++ [OObj f0])).
    assert (h' !! la = Some (OObj (prop_set (toKey x) v fa))) as Hha.
    { unfold h'. rewrite list_lookup_insert_eq; [done|]. rewrite length_app. lia. }
    assert (h' !! l0 = Some (OObj f0)) as Hh0.
    { unfold h'. rewrite list_lookup_insert_ne by done. by rewrite lookup_app_l. }
    assert (h' !! b = Some (OObj f0)) as Hhb.
    { unfold h'. rewrite list_lookup_insert_ne by (unfold b; lia). done. }
    exists h'. eexists. split.
    { unfold Liquor.runCommand. rewrite willChange_current, Hcur.
      unfold assign_to_empty, alloc. simpl own_of. rewrite H0.
      change (own (OObj f0)) with f0. fold b.
      unfold Liquor.writeThrough.
      RootFacts.read_with ltac:(rewrite Hb).
      RootFacts.read_with ltac:(rewrite Ha).
      RootFacts.read_with idtac. cbn [write].
      rewrite lookup_app_l, Hla by done. cbn [mbind option_bind obj_set].
      fold h'. done. }
    rewrite didChange_current, didChange_prev. cbn [current prev].
    split_and!; try done.
    + intros Hp. by rewrite willChange_prev, Hcur.
    + RootFacts.read_with ltac:(rewrite Hhb). RootFacts.read_with ltac:(rewrite Ha). done.
    + RootFacts.read_with ltac:(rewrite Hh0). RootFacts.read_with ltac:(rewrite Ha).
      RootFacts.read_with ltac:(rewrite Hha).
      RootFacts.read_with ltac:(rewrite prop_get_set_eq). done.
  - exists (h ++ [OObj (prop_set (toKey a) (Ref (S b)) f0);
                  OObj (prop_set (toKey x) v fa)]).
    eexists. split.
    { unfold Liquor.runCommand. rewrite willChange_current, Hcur.
      unfold assign_to_empty at 1. unfold alloc. simpl own_of. rewrite H0.
      change (own (OObj f0)) with f0. fold b.
      unfold Liquor.writeFresh.
      RootFacts.read_with ltac:(rewrite Hb).
      RootFacts.read_with ltac:(rewrite Ha).
      RootFacts.read_with idtac.
      unfold assign_to_empty, alloc. simpl own_of.
      rewrite lookup_app_l, Hla by done.
      change (own (OObj fa)) with fa.
      replace (length (h ++ [OObj f0])) with (S b) by (rewrite length_app; simpl; lia).
      cbn [write].
      assert (((h ++ [OObj f0]) ++ [OObj fa]) !! b = Some (OObj f0)) as ->.
      { rewrite <- app_assoc. unfold b. by rewrite lookup_app_r, Nat.sub_diag by lia. }
      cbn [mbind option_bind obj_set].
      assert (forall o, <[b := o]> ((h ++ [OObj f0]) ++ [OObj fa]) = h ++ [o; OObj fa])
        as ->.
      { intros o. rewrite <- app_assoc. unfold b.
        by rewrite insert_app_r_alt, Nat.sub_diag by lia. }
      assert (forall o o', (h ++ [o; o']) !! b = Some o) as Hfst.
      { intros o o'. unfold b. by rewrite lookup_app_r, Nat.sub_diag by lia. }
      assert (forall o o', (h ++ [o; o']) !! S b = Some o') as Hsnd.
      { intros o o'. unfold b. rewrite lookup_app_r by lia.
        by replace (S (length h) - length h)%nat with 1%nat by lia. }
      rewrite Hfst. cbn [mbind option_bind obj_get].
      rewrite prop_get_set_eq. cbn [default from_option id mbind option_bind write].
      rewrite Hsnd. cbn [mbind option_bind obj_set].
      assert (forall o o' o'', <[S b := o'']> (h ++ [o; o']) = h ++ [o; o'']) as ->.
      { intros o o' o''. unfold b. rewrite insert_app_r_alt by lia.
        by replace (S (length h) - length h)%nat with 1%nat by lia. }
      done. }
    rewrite didChange_current, didChange_prev. cbn [current prev].
    assert (forall o o', (h ++ [o; o']) !! b = Some o) as Hfst.
    { intros o o'. unfold b. by rewrite lookup_app_r, Nat.sub_diag by lia. }
    assert (forall o o', (h ++ [o; o']) !! S b = Some o') as Hsnd.
    { intros o o'. unfold b. rewrite lookup_app_r by lia.
      by replace (S (length h) - length h)%nat with 1%nat by lia. }
    split_and!.
    + done.
    + intros Hp. by rewrite willChange_prev, Hcur.
    + unfold b. by rewrite take_app_length.
    + RootFacts.read_with ltac:(rewrite Hfst).
      RootFacts.read_with ltac:(rewrite prop_get_set_eq).
      RootFacts.read_with ltac:(rewrite Hsnd).
      RootFacts.read_with ltac:(rewrite prop_get_set_eq). done.
    + RootFacts.read_with ltac:(rewrite lookup_app_l by done).
      RootFacts.read_with ltac:(rewrite H0).
      RootFacts.read_with ltac:(rewrite Ha).
      RootFacts.read_with ltac:(rewrite lookup_app_l by done). done.
Qed.
End commands.
End LiquorFacts.

(** * [CustomStore.undo], in place *)

Module InPlaceFacts.
Import Heap Copies.

Lemma snoc_match {A B} (ks : list A) (k : A) (a b : B) :
  match ks ++ [k] with [] => a | _ :: _ => b end = b.
Proof. by destruct ks. Qed.

Lemma finish_undo (h mid heap0 : heap) fs item (refs0 refs : list Key) ks k :
  path_of item = ks ++ [k] ->
  walk heap0 refs0 (Ref (length h)) ks
  = Some (h ++ mid ++ [OObj fs], refs, Ref (length h + length mid)) ->
  InPlace.undoItem (Ref (length h)) (heap0, refs0) item
  = Some (h ++ mid ++ [OObj (undo_last fs item)], refs).
Proof.
  intros Hpath Hwalk. unfold InPlace.undoItem. rewrite Hpath, snoc_match.
  rewrite removelast_last, Hwalk. cbn [mbind option_bind].
  pose proof (CopiesFacts.last_lookup h [] mid (OObj fs)) as Hl.
  pose proof (CopiesFacts.last_insert h [] mid (OObj fs)) as Hi.
  simpl in Hl, Hi. rewrite Nat.add_0_r in Hl, Hi.
  destruct item as [path value|path value old|path old]; simpl in Hpath; subst path;
    simpl; rewrite ?CopiesFacts.lastKey_snoc, Hl; simpl; by rewrite Hi.
Qed.

Lemma fold_undo_again h target ks (refs : list Key) patch : forall fs,
  (forall k, k ∈ ks -> k ∈ refs) ->
  Forall (fun d => exists k, path_of d = ks ++ [k]) patch ->
  foldM (InPlace.undoItem (Ref (length h)))
    (h ++ chain h target ks (length h) ++ [OObj fs], refs) patch
  = Some (h ++ chain h target ks (length h) ++ [OObj (fold_left undo_last patch fs)],
          refs).
Proof.
  induction patch as [|item patch IH]; intros fs Hrefs Hpatch; [done|].
  apply Forall_cons in Hpatch as [[k Hpath] Hpatch].
  cbn [foldM].
  pose proof (CopiesFacts.walk_again h ks [] target refs (OObj fs) Hrefs) as Hwalk.
  simpl in Hwalk. rewrite Nat.add_0_r in Hwalk.
  rewrite (finish_undo h (chain h target ks (length h)) _ fs item refs refs ks k Hpath);
    [|by rewrite CopiesFacts.chain_length].
  cbn [mbind option_bind]. by apply IH.
Qed.

Lemma fold_undo h target ks patch :
  closed h = true -> NoDup ks ->
  Forall (fun d => exists k, path_of d = ks ++ [k]) patch ->
  (patch = [] -> ks = []) ->
  exists refs,
    foldM (InPlace.undoItem (Ref (length h))) (h ++ [OObj (own_of h target)], []) patch
    = Some (h ++ chain h target ks (length h)
              ++ [OObj (fold_left undo_last patch (own_of h (deep h target ks)))],
            refs).
Proof.
  intros Hc Hnd Hpatch Hempty. destruct patch as [|item patch].
  - rewrite (Hempty eq_refl). by exists [].
  - apply Forall_cons in Hpatch as [[k Hpath] Hpatch]. cbn [foldM].
    pose proof (CopiesFacts.walk_first h ks [] target [] Hc Hnd) as Hwalk.
    simpl in Hwalk. rewrite Nat.add_0_r, app_nil_r in Hwalk.
    rewrite (finish_undo h (chain h target ks (length h)) _
               (own_of h (deep h target ks)) item [] (reverse ks) ks k Hpath);
      [|rewrite CopiesFacts.chain_length; apply Hwalk; intros ? _; apply not_elem_of_nil].
    cbn [mbind option_bind]. exists (reverse ks).
    apply (fold_undo_again h target ks (reverse ks) patch); [|done].
    intros k' Hk'. by apply elem_of_reverse.
Qed.

Section methods.
Variable diff : heap -> val -> val -> list (Difference val).

(** X18.  The [undo] that the example store defines in place of the one
    of [Trashly], on an entry whose differences all lie directly under one
    path of pairwise distinct steps, the store having no change pending.
    The call does not raise.  It reverts the entry in copies: every object
    that existed keeps its properties, one plain object is allocated per
    step (a spread of the value the step holds, a string giving its code
    units), and the last copy holds the properties of the original with each
    difference reverted at its last key, a delete for CREATE and a set of
    the old value for CHANGE and REMOVE.  The pointer steps back, the
    history is untouched, and a store that is paused stays paused. *)
Theorem undo_in_place_below_one_parent h s ks patch :
  closed h = true -> didChangeWhilePaused s = false -> 0 <= pointer s ->
  history s !! Z.to_nat (pointer s) = Some patch ->
  NoDup ks ->
  Forall (fun d => exists k, path_of d = ks ++ [k]) patch ->
  (patch = [] -> ks = []) ->
  exists s',
    InPlace.undo diff h s
    = Some (h ++ chain h (current s) ks (length h)
              ++ [OObj (fold_left undo_last patch
                          (own_of h (deep h (current s) ks)))], s')
    /\ current s' = Ref (length h) /\ prev s' = current s
    /\ pointer s' = pointer s - 1 /\ history s' = history s
    /\ isPaused s' = isPaused s.
Proof.
  intros Hc Hd Hptr Hentry Hnd Hpatch Hempty.
  destruct (fold_undo h (current s) ks patch Hc Hnd Hpatch Hempty) as [refs Hfold].
  unfold InPlace.undo. rewrite Hd, andb_false_r.
  unfold InPlace.canUndo. rewrite (bool_decide_eq_true_2 (pointer s >= 0)) by lia.
  cbn [orb negb]. rewrite decide_False by lia. rewrite Hentry.
  unfold assign_to_empty, alloc. rewrite Hfold. cbn [mbind option_bind].
  eexists. split; [done|]. done.
Qed.
End methods.
End InPlaceFacts.

(** * [CustomStore.applyPatch] and back *)

Module InPlaceTrip.
Import Heap Copies.

Lemma readPath_app h t p q :
  readPath h t (p ++ q) = readPath h t p ≫= fun v => readPath h v q.
Proof.
  revert t. induction p as [|k p IH]; intros t; simpl; [done|].
  destruct (read h t k) as [v|]; simpl; [apply IH|done].
Qed.

Lemma chain_head_lookup (h pre : heap) o tl :
  (h ++ pre ++ o :: tl) !! (length h + length pre)%nat = Some o.
Proof.
  rewrite app_assoc. rewrite lookup_app_r by (rewrite length_app; lia).
  rewrite length_app.
  by replace (length h + length pre - (length h + length pre))%nat with 0%nat by lia.
Qed.

(** Following the copies. *)
Lemma readPath_chain h ks : forall pre v last,
  let b := (length h + length pre)%nat in
  readPath (h ++ pre ++ chain h v ks b ++ [last]) (Ref b) ks
  = Some (Ref (b + length ks)).
Proof.
  induction ks as [|k ks IH]; intros pre v last b.
  - simpl. by rewrite Nat.add_0_r.
  - cbn [readPath chain]. cbn [app read]. unfold b. rewrite chain_head_lookup.
    cbn [mbind option_bind obj_get]. rewrite prop_get_set_eq.
    cbn [default from_option id].
    set (c0 := OObj (prop_set (toKey k) (Ref (S (length h + length pre))) (own_of h v))).
    replace (h ++ pre ++ c0 :: chain h (child h v k) ks (S (length h + length pre)) ++ [last])
      with (h ++ (pre ++ [c0]) ++ chain h (child h v k) ks (S (length h + length pre)) ++ [last])
      by (by rewrite <- !app_assoc).
    replace (S (length h + length pre)) with (length h + length (pre ++ [c0]))%nat
      by (rewrite length_app; simpl; lia).
    rewrite IH. f_equal. f_equal. rewrite length_app. simpl. lia.
Qed.

Lemma child_head (h pre : heap) fs tl k :
  child (h ++ pre ++ OObj fs :: tl) (Ref (length h + length pre)) k
  = default undefined (prop_get (toKey k) fs).
Proof. unfold child. cbn [own_of]. by rewrite chain_head_lookup. Qed.

Lemma deep_chain h ks : forall pre v last,
  let b := (length h + length pre)%nat in
  deep (h ++ pre ++ chain h v ks b ++ [last]) (Ref b) ks = Ref (b + length ks).
Proof.
  induction ks as [|k ks IH]; intros pre v last b.
  - simpl. by rewrite Nat.add_0_r.
  - cbn [deep chain]. cbn [app]. unfold b.
    rewrite child_head, prop_get_set_eq. cbn [default from_option id].
    set (c0 := OObj (prop_set (toKey k) (Ref (S (length h + length pre))) (own_of h v))).
    replace (h ++ pre ++ c0 :: chain h (child h v k) ks (S (length h + length pre)) ++ [last])
      with (h ++ (pre ++ [c0]) ++ chain h (child h v k) ks (S (length h + length pre)) ++ [last])
      by (by rewrite <- !app_assoc).
    replace (S (length h + length pre)) with (length h + length (pre ++ [c0]))%nat
      by (rewrite length_app; simpl; lia).
    rewrite IH. f_equal. rewrite length_app. simpl. lia.
Qed.

(** The references the copies hold. *)
Lemma chain_values h ks : forall v base o x,
  closed h = true ->
  o ∈ chain h v ks base -> Ref x ∈ values o ->
  (x < length h)%nat \/ (base < x <= base + length ks)%nat.
Proof.
  induction ks as [|k ks IH]; intros v base o x Hc Ho Hx; simpl in Ho.
  - by apply elem_of_nil in Ho.
  - apply elem_of_cons in Ho as [->|Ho].
    + simpl in Hx. apply HeapFacts.prop_set_values in Hx as [[= ->]|Hx].
      * right. simpl. lia.
      * left. pose proof (CopiesFacts.own_of_below h v (Ref x) Hc Hx) as H.
        by apply bool_decide_eq_true_1 in H.
    + destruct (IH _ _ _ _ Hc Ho Hx) as [?|?]; [by left|right; simpl; lia].
Qed.

Lemma closed_intro (h : heap) :
  (forall l o x, h !! l = Some o -> Ref x ∈ values o -> (x < length h)%nat) ->
  closed h = true.
Proof.
  intros H. unfold closed. apply forallb_forall. intros o Ho.
  apply list_elem_of_In, list_elem_of_lookup in Ho as [l Hl].
  apply forallb_forall. intros w Hw. apply list_elem_of_In in Hw.
  destruct w as [|x|]; try done. simpl. apply bool_decide_eq_true_2. by eapply H.
Qed.

Lemma closed_copies h v ks fs :
  closed h = true ->
  (forall x, Ref x ∈ fs.*2 -> (x < length h)%nat) ->
  closed (h ++ chain h v ks (length h) ++ [OObj fs]) = true.
Proof.
  intros Hc Hfs. apply closed_intro. intros l o x Hl Hx.
  rewrite !length_app, CopiesFacts.chain_length. simpl.
  apply lookup_app_Some in Hl as [Hl|[_ Hl]].
  - pose proof (HeapFacts.closed_values h l o x Hc Hl Hx). lia.
  - apply lookup_app_Some in Hl as [Hl|[_ Hl]].
    + apply list_elem_of_lookup_2 in Hl.
      destruct (chain_values h ks v (length h) o x Hc Hl Hx); lia.
    + apply list_lookup_singleton_Some in Hl as [_ <-]. simpl in Hx.
      specialize (Hfs x Hx). lia.
Qed.

Lemma finish_apply (h mid heap0 : heap) fs item (refs0 refs : list Key) ks k :
  path_of item = ks ++ [k] ->
  walk heap0 refs0 (Ref (length h)) ks
  = Some (h ++ mid ++ [OObj fs], refs, Ref (length h + length mid)) ->
  InPlace.applyItem (Ref (length h)) (heap0, refs0) item
  = Some (h ++ mid ++ [OObj (apply_last fs item)], refs).
Proof.
  intros Hpath Hwalk. unfold InPlace.applyItem.
  rewrite Hpath, removelast_last, Hwalk. cbn [mbind option_bind].
  pose proof (CopiesFacts.last_lookup h [] mid (OObj fs)) as Hl.
  pose proof (CopiesFacts.last_insert h [] mid (OObj fs)) as Hi.
  simpl in Hl, Hi. rewrite Nat.add_0_r in Hl, Hi.
  destruct item as [path value|path value old|path old]; simpl in Hpath; subst path;
    simpl; rewrite ?CopiesFacts.lastKey_snoc, Hl; simpl; by rewrite Hi.
Qed.

Section trip.
Variable diff : heap -> val -> val -> list (Difference val).

(** X19.  In the example store, the [applyPatch] that [redo] calls and
    then [undo], both in place, on an entry with one CHANGE whose path
    takes pairwise distinct steps and whose old value is the one the state
    holds.  After [applyPatch] the path holds the new value.  After [undo]
    it holds the old value again, and the object at the parent path has
    exactly the properties it had at first.  The pointer has stepped back,
    and no object of the original heap has been written to. *)
Theorem change_then_undo_in_place h s ks k v old :
  closed h = true -> ref_below (length h) v = true -> NoDup ks ->
  prop_get (toKey k) (own_of h (deep h (current s) ks)) = Some old ->
  didChangeWhilePaused s = false -> 0 <= pointer s ->
  history s !! Z.to_nat (pointer s) = Some [CHANGE (ks ++ [k]) v old] ->
  exists h1 s1 h2 s2,
    InPlace.applyPatch [CHANGE (ks ++ [k]) v old] h s = Some (h1, s1)
    /\ readPath h1 (current s1) (ks ++ [k]) = Some v
    /\ InPlace.undo diff h1 s1 = Some (h2, s2)
    /\ readPath h2 (current s2) (ks ++ [k]) = Some old
    /\ (exists l, readPath h2 (current s2) ks = Some (Ref l)
                  /\ h2 !! l = Some (OObj (own_of h (deep h (current s) ks))))
    /\ take (length h) h2 = h
    /\ prev s2 = current s1 /\ pointer s2 = pointer s - 1.
Proof.
  intros Hc Hv Hnd Hold Hd Hptr Hentry.
  set (item := CHANGE (ks ++ [k]) v old).
  set (fs := own_of h (deep h (current s) ks)) in *.
  set (b := length h).
  set (h1 := h ++ chain h (current s) ks b ++ [OObj (prop_set (toKey k) v fs)]).
  assert (length h1 = S (b + length ks)) as Hlen1.
  { unfold h1. rewrite !length_app, CopiesFacts.chain_length. simpl. unfold b. lia. }
  assert (foldM (InPlace.applyItem (Ref b)) (h ++ [OObj (own_of h (current s))], []) [item]
          = Some (h1, reverse ks)) as Hfwd.
  { cbn [foldM].
    pose proof (CopiesFacts.walk_first h ks [] (current s) [] Hc Hnd) as Hwalk.
    simpl in Hwalk. rewrite Nat.add_0_r, app_nil_r in Hwalk.
    rewrite (finish_apply h (chain h (current s) ks b) _ fs item [] (reverse ks) ks k).
    - cbn [mbind option_bind]. unfold item. cbn [apply_last path_of].
      by rewrite CopiesFacts.lastKey_snoc.
    - done.
    - rewrite CopiesFacts.chain_length. apply Hwalk. intros ? _. apply not_elem_of_nil. }
  set (s1 := notifySubscribers
               (mkStore (current s) (Ref b) (pointer s) (history s) (isPaused s)
                  (didChangeWhilePaused s) (listeners s) (calls s))).
  assert (InPlace.applyPatch [item] h s = Some (h1, s1)) as Happly.
  { unfold InPlace.applyPatch, assign_to_empty, alloc. fold b. by rewrite Hfwd. }
  assert (closed h1 = true) as Hc1.
  { apply closed_copies; [done|]. intros x Hx.
    apply HeapFacts.prop_set_values in Hx as [<-|Hx].
    - by apply bool_decide_eq_true_1 in Hv.
    - pose proof (CopiesFacts.own_of_below h _ (Ref x) Hc Hx) as H.
      by apply bool_decide_eq_true_1 in H. }
  pose proof (readPath_chain h ks [] (current s) (OObj (prop_set (toKey k) v fs)))
    as Hread1.
  pose proof (deep_chain h ks [] (current s) (OObj (prop_set (toKey k) v fs)))
    as Hdeep1.
  pose proof (CopiesFacts.last_lookup h [] (chain h (current s) ks b)
                (OObj (prop_set (toKey k) v fs))) as Hlast1.
  simpl in Hread1, Hdeep1, Hlast1.
  rewrite Nat.add_0_r in Hread1, Hdeep1, Hlast1.
  rewrite CopiesFacts.chain_length in Hlast1.
  fold b in Hread1, Hdeep1, Hlast1. fold h1 in Hread1, Hdeep1, Hlast1.
  assert (own_of h1 (deep h1 (Ref b) ks) = prop_set (toKey k) v fs) as Hown1.
  { rewrite Hdeep1. cbn [own_of]. by rewrite Hlast1. }
  destruct (InPlaceFacts.fold_undo h1 (Ref b) ks [item] Hc1 Hnd) as [refs Hbwd].
  { repeat constructor. by exists k. }
  { done. }
  rewrite Hown1 in Hbwd. cbn [fold_left undo_last item] in Hbwd.
  rewrite CopiesFacts.lastKey_snoc, prop_set_set in Hbwd.
  rewrite (prop_set_same (toKey k) old fs Hold) in Hbwd.
  set (b1 := length h1) in *.
  set (h2 := h1 ++ chain h1 (Ref b) ks b1 ++ [OObj fs]) in *.
  pose proof (readPath_chain h1 ks [] (Ref b) (OObj fs)) as Hread2.
  pose proof (CopiesFacts.last_lookup h1 [] (chain h1 (Ref b) ks b1) (OObj fs))
    as Hlast2.
  simpl in Hread2, Hlast2. rewrite Nat.add_0_r in Hread2, Hlast2.
  rewrite CopiesFacts.chain_length in Hlast2.
  fold b1 in Hread2, Hlast2. fold h2 in Hread2, Hlast2.
  exists h1, s1, h2. eexists. split; [exact Happly|]. split.
  { unfold s1. cbn [current notifySubscribers]. rewrite readPath_app, Hread1.
    cbn [mbind option_bind readPath read]. rewrite Hlast1.
    cbn [mbind option_bind obj_get]. by rewrite prop_get_set_eq. }
  split.
  { unfold InPlace.undo. unfold s1. cbn [isPaused didChangeWhilePaused notifySubscribers
      current prev pointer history listeners calls]. rewrite Hd, andb_false_r.
    unfold InPlace.canUndo.
    cbn [isPaused didChangeWhilePaused notifySubscribers current prev pointer
         history listeners calls].
    rewrite (bool_decide_eq_true_2 (pointer s >= 0)) by lia.
    cbn [orb negb]. rewrite decide_False by lia. rewrite Hentry.
    unfold assign_to_empty, alloc. cbn [own_of]. fold b1.
    assert (own_of h1 (Ref b) = match h1 !! b with Some o => own o | None => [] end)
      as Hroot by done.
    rewrite <- Hroot. fold item. rewrite Hbwd. cbn [mbind option_bind]. done. }
  cbn [current prev pointer notifySubscribers].
  split_and!; try done.
  - rewrite readPath_app, Hread2. cbn [mbind option_bind readPath read].
    rewrite Hlast2. cbn [mbind option_bind obj_get]. by rewrite Hold.
  - exists (b1 + length ks)%nat. by split.
  - unfold h2, h1. rewrite <- !app_assoc. unfold b. by rewrite take_app_length.
Qed.
End trip.
End InPlaceTrip.

(** * The further properties at concrete stores *)


Lemma committed_entries_are_kept_witness :
  let s := mutate Differ.diff (set_v 1) (new counter) in
  exists s', undo Differ.diff s = Some s'
    /\ entry_at (history s') 0 = entry_at (history s) 0.
Proof.
  eexists. split; [reflexivity|].
  refine (proj1 (committed_entries_are_kept Differ.diff Undo
                   (mutate Differ.diff (set_v 1) (new counter)) _ 0 _ eq_refl _)).
  - unfold pointer_ok. simpl. lia.
  - simpl. lia.
Defined.


Lemma replaceState_overwrites_prev_witness :
  let s := mutate Differ.diff (set_v 1) (pause (new counter)) in
  let s' := replaceState Differ.diff (Obj [("v", num 2)]) s in
  isPaused s = true /\ prev s = counter
  /\ prev s' = Obj [("v", num 1)] /\ history s' = history s.
Proof.
  destruct (replaceState_overwrites_prev Differ.diff (Obj [("v", num 2)])
              (mutate Differ.diff (set_v 1) (pause (new counter))))
    as (_ & H1 & _ & H2).
  split; [reflexivity|]. split; [reflexivity|]. split; [exact H1|].
  exact (proj1 (H2 eq_refl)).
Defined.

Lemma pending_only_while_paused_witness :
  let s := mutate Differ.diff (set_v 1) (pause (new counter)) in
  reachable Differ.diff s /\ didChangeWhilePaused s = true /\ isPaused s = true.
Proof.
  assert (reachable Differ.diff (mutate Differ.diff (set_v 1) (pause (new counter))))
    as Hreach by (exists counter, [Pause; Mutate (set_v 1)]; reflexivity).
  split; [exact Hreach|]. split; [reflexivity|].
  exact (pending_only_while_paused Differ.diff _ Hreach eq_refl).
Defined.

Lemma undo_resumes_witness :
  let s := pause (mutate Differ.diff (set_v 1) (new counter)) in
  reachable Differ.diff s /\ isPaused s = true /\ pending s = false
  /\ (exists s', undo Differ.diff s = Some s' /\ isPaused s' = false)
  /\ (exists s', redo Differ.diff s = Some s' /\ isPaused s' = false).
Proof.
  assert (reachable Differ.diff (pause (mutate Differ.diff (set_v 1) (new counter))))
    as Hreach by (exists counter, [Mutate (set_v 1); Pause]; reflexivity).
  split; [exact Hreach|]. split; [reflexivity|]. split; [reflexivity|].
  destruct (undo_resumes Differ.diff _ Hreach) as [(s1 & H1 & H2 & _) H].
  destruct (H eq_refl) as (s2 & H3 & H4 & _).
  split; [exists s1|exists s2]; split; assumption.
Defined.


Lemma unsubscribed_listener_is_not_called_witness :
  let s := pause (subscribe 0 (new counter)) in
  calls_of 0 s = [counter]
  /\ exists s', run Differ.diff [Mutate (set_v 1); Resume] (unsubscribe 0 s) = Some s'
       /\ calls_of 0 s' = calls_of 0 s.
Proof.
  split; [reflexivity|]. eexists. split; [reflexivity|].
  exact (proj2 (unsubscribed_listener_is_not_called Differ.diff 0
                  [Mutate (set_v 1); Resume] (pause (subscribe 0 (new counter))) _
                  eq_refl)).
Defined.

Lemma subscribe_registers_once_witness :
  let s := subscribe 0 (new counter) in
  NoDup (listeners s) /\ subscribe 0 (subscribe 0 s) = subscribe 0 s.
Proof.
  assert (NoDup (listeners (subscribe 0 (new counter)))) as Hnd
    by (apply NoDup_singleton).
  split; [exact Hnd|].
  exact (proj1 (subscribe_registers_once 0 (subscribe 0 (new counter)) Hnd)).
Defined.

Lemma applied_difference_is_undone_witness :
  let d := REMOVE [KStr "name"] (str "Steve") in
  describes steve d
  /\ Node_equiv (undoItem (applyItem steve d) d) steve
  /\ getPath (applyItem steve d) [KStr "name"] = None.
Proof.
  assert (describes steve (REMOVE [KStr "name"] (str "Steve"))) as Hd
    by (split; [discriminate|reflexivity]).
  split; [exact Hd|]. exact (applied_difference_is_undone steve _ eq_refl Hd).
Defined.

Lemma pointing_gesture_commits_once_witness :
  let s := new INITIAL_STATE in
  let move := (fun n : Node => n, fun n : Node => n, false) in
  let dragged :=
    CustomStore.drag Differ.diff [move; move]
      (CustomStore.startPointingNode Differ.diff "n1" s) in
  let s' := CustomStore.stopPointingNode Differ.diff dragged in
  isObject (current s) = true
  /\ history dragged = [] /\ pointer s' = 0 /\ isPaused s' = false
  /\ get (current s') (KStr "status") = Some (str "idle").
Proof.
  assert (keeps_object (fun n : Node => n)) as Hid by (intros n H; exact H).
  destruct (pointing_gesture_commits_once Differ.diff "n1"
              [(fun n : Node => n, fun n : Node => n, false);
               (fun n : Node => n, fun n : Node => n, false)]
              (new INITIAL_STATE) eq_refl eq_refl eq_refl)
    as ((_ & H1 & _) & _ & H2 & H3 & _ & H4 & _).
  { repeat constructor; exact Hid. }
  split; [reflexivity|].
  split; [exact H1|]. split; [exact H2|]. split; [exact H3|exact H4].
Defined.

Lemma pause_commits_one_entry_witness :
  let s := new counter in
  let ops := [Mutate (set_v 1); SetState (Obj [("v", num 2)])] in
  isPaused s = false
  /\ exists paused,
       run Differ.diff ops (pause s) = Some paused
       /\ history paused = []
       /\ history (resume Differ.diff paused)
          = [Differ.diff counter (current paused)]
       /\ pointer (resume Differ.diff paused) = 0.
Proof.
  split; [reflexivity|].
  destruct (pause_commits_one_entry Differ.diff
              [Mutate (set_v 1); SetState (Obj [("v", num 2)])] (new counter)
              eq_refl eq_refl eq_refl)
    as (paused & H1 & H2 & _ & H3 & H4 & _).
  { discriminate. }
  exists paused. repeat split; assumption.
Defined.

Lemma history_holds_differ_results_witness :
  let s := mutate Differ.diff (set_v 1) (new counter) in
  reachable Differ.diff s
  /\ Forall (fun p => exists a b, p = Differ.diff a b) (history s).
Proof.
  assert (reachable Differ.diff (mutate Differ.diff (set_v 1) (new counter)))
    as Hreach by (exists counter, [Mutate (set_v 1)]; reflexivity).
  split; [exact Hreach|]. exact (history_holds_differ_results Differ.diff _ Hreach).
Defined.

Lemma applyPatch_below_one_parent_witness :
  let ks := [KStr "a"; KStr "b"] in
  let patch := [CHANGE (ks ++ [KStr "c"]) (Heap.Prim (SNum 5)) (Heap.Prim (SNum 1));
                CREATE (ks ++ [KStr "f"]) (Heap.Prim (SNum 6))] in
  Heap.closed nested.2 = true /\ Heap.isArray nested.2 nested.1 = false
  /\ NoDup ks
  /\ exists h', Heap.applyPatch nested.2 nested.1 patch = Some (Heap.Ref 4, h')
        /\ take 4 h' = nested.2
        /\ Heap.readPath h' (Heap.Ref 4) (ks ++ [KStr "f"]) = Some (Heap.Prim (SNum 6)).
Proof.
  assert (NoDup [KStr "a"; KStr "b"]) as Hnd.
  { apply NoDup_cons. split.
    - intros H. apply list_elem_of_singleton in H. discriminate.
    - apply NoDup_singleton. }
  split; [reflexivity|]. split; [reflexivity|]. split; [exact Hnd|].
  eexists. split.
  - refine (CopiesFacts.applyPatch_below_one_parent nested.2 nested.1
              [KStr "a"; KStr "b"] _ eq_refl eq_refl Hnd _ _).
    + repeat constructor; eexists; reflexivity.
    + discriminate.
  - split; reflexivity.
Defined.

Lemma applyPatch_on_array_witness :
  let h := [Heap.OArr [Some (Heap.Prim (SNum 1)); Some (Heap.Prim (SNum 2))] []] in
  h !! 0%nat = Some (Heap.OArr [Some (Heap.Prim (SNum 1)); Some (Heap.Prim (SNum 2))] [])
  /\ Heap.applyPatch h (Heap.Ref 0) [REMOVE [KNum 0] (Heap.Prim (SNum 1))] = None.
Proof.
  split; [reflexivity|].
  exact (proj2 (proj2 (RootFacts.applyPatch_on_array
                         [Heap.OArr [Some (Heap.Prim (SNum 1));
                                     Some (Heap.Prim (SNum 2))] []]
                         0 [Some (Heap.Prim (SNum 1)); Some (Heap.Prim (SNum 2))] []
                         0 (Heap.Prim (SNum 1)) (Heap.Prim (SNum 1))
                         eq_refl))).
Defined.

Lemma applyPatch_repeated_step_writes_into_target_witness :
  let h := twice.2 in
  twice.1 = Heap.Ref 2
  /\ Heap.readPath h (Heap.Ref 2) [KStr "k"; KStr "k"; KStr "j"]
     = Some (Heap.Prim (SNum 0))
  /\ exists h',
       Heap.applyPatch h (Heap.Ref 2)
         [CHANGE [KStr "k"; KStr "k"; KStr "j"] (Heap.Prim (SNum 1)) (Heap.Prim (SNum 0))]
       = Some (Heap.Ref 3, h')
       /\ Heap.readPath h' (Heap.Ref 2) [KStr "k"; KStr "k"; KStr "j"]
          = Some (Heap.Prim (SNum 1)).
Proof.
  split; [reflexivity|]. split; [reflexivity|].
  destruct (RootFacts.applyPatch_repeated_step_writes_into_target twice.2 2 1 0
              _ _ _ (KStr "k") (KStr "j") (Heap.Prim (SNum 1)) (Heap.Prim (SNum 0))
              eq_refl eq_refl eq_refl eq_refl eq_refl)
    as (h' & H1 & _ & _ & H2); [lia|lia|].
  exists h'. split; assumption.
Defined.

Lemma runCommand_copies_the_top_level_only_witness :
  let diff := fun (_ : Heap.heap) (_ _ : Heap.val) => @nil (Difference Heap.val) in
  let s := Heap.new nested.1 in
  let v := Heap.Prim (SNum 7) in
  (exists h' s',
      Liquor.runCommand diff (Liquor.writeThrough (KStr "a") (KStr "z") v) nested.2 s
      = Some (h', s')
      /\ Heap.prev s' = Heap.Ref 3
      /\ Heap.readPath h' (Heap.Ref 3) [KStr "a"; KStr "z"] = Some v)
  /\ (exists h' s',
         Liquor.runCommand diff (Liquor.writeFresh (KStr "a") (KStr "z") v) nested.2 s
         = Some (h', s')
         /\ take 4 h' = nested.2
         /\ Heap.readPath h' (Heap.current s') [KStr "a"; KStr "z"] = Some v).
Proof.
  destruct (LiquorFacts.runCommand_copies_the_top_level_only
              (fun _ _ _ => []) nested.2 (Heap.new nested.1) 3 _ 2 _
              (KStr "a") (KStr "z") (Heap.Prim (SNum 7))
              eq_refl eq_refl eq_refl eq_refl)
    as [(h1 & s1 & A1 & _ & A2 & _ & _ & _ & A3)
        (h2 & s2 & B1 & _ & _ & B2 & B3 & _)]; [lia|].
  split.
  - exists h1, s1. split; [exact A1|]. split; [exact (A2 eq_refl)|exact A3].
  - exists h2, s2. split; [exact B1|]. split; [exact B2|exact B3].
Defined.

Lemma undo_in_place_below_one_parent_witness :
  let diff := fun (_ : Heap.heap) (_ _ : Heap.val) => @nil (Difference Heap.val) in
  let entry := [CHANGE [KStr "a"; KStr "b"; KStr "c"] (Heap.Prim (SNum 1))
                  (Heap.Prim (SNum 0))] in
  let s := Heap.mkStore nested.1 nested.1 0 [entry] true false [] [] in
  Heap.closed nested.2 = true
  /\ exists h' s',
       InPlace.undo diff nested.2 s = Some (h', s')
       /\ Heap.pointer s' = -1 /\ Heap.isPaused s' = true
       /\ Heap.readPath h' (Heap.current s') [KStr "a"; KStr "b"; KStr "c"]
          = Some (Heap.Prim (SNum 0)).
Proof.
  assert (NoDup [KStr "a"; KStr "b"]) as Hnd.
  { apply NoDup_cons. split.
    - intros H. apply list_elem_of_singleton in H. discriminate.
    - apply NoDup_singleton. }
  split; [reflexivity|].
  destruct (InPlaceFacts.undo_in_place_below_one_parent (fun _ _ _ => []) nested.2
              (Heap.mkStore nested.1 nested.1 0
                 [[CHANGE [KStr "a"; KStr "b"; KStr "c"] (Heap.Prim (SNum 1))
                     (Heap.Prim (SNum 0))]] true false [] [])
              [KStr "a"; KStr "b"]
              [CHANGE [KStr "a"; KStr "b"; KStr "c"] (Heap.Prim (SNum 1))
                 (Heap.Prim (SNum 0))] eq_refl eq_refl)
    as (s' & H1 & H2 & _ & H3 & _ & H4).
  - simpl. lia.
  - reflexivity.
  - exact Hnd.
  - repeat constructor. exists (KStr "c"). reflexivity.
  - discriminate.
  - eexists. exists s'. split; [exact H1|]. split; [exact H3|]. split; [exact H4|].
    rewrite H2. reflexivity.
Defined.

Lemma change_then_undo_in_place_witness :
  let diff := fun (_ : Heap.heap) (_ _ : Heap.val) => @nil (Difference Heap.val) in
  let path := [KStr "a"; KStr "b"; KStr "c"] in
  let entry := [CHANGE path (Heap.Prim (SNum 5)) (Heap.Prim (SNum 1))] in
  let s := Heap.mkStore nested.1 nested.1 0 [entry] false false [] [] in
  Heap.closed nested.2 = true
  /\ Heap.readPath nested.2 (Heap.current s) path = Some (Heap.Prim (SNum 1))
  /\ exists h1 s1 h2 s2,
       InPlace.applyPatch entry nested.2 s = Some (h1, s1)
       /\ Heap.readPath h1 (Heap.current s1) path = Some (Heap.Prim (SNum 5))
       /\ InPlace.undo diff h1 s1 = Some (h2, s2)
       /\ Heap.readPath h2 (Heap.current s2) path = Some (Heap.Prim (SNum 1))
       /\ take 4 h2 = nested.2.
Proof.
  assert (NoDup [KStr "a"; KStr "b"]) as Hnd.
  { apply NoDup_cons. split.
    - intros H. apply list_elem_of_singleton in H. discriminate.
    - apply NoDup_singleton. }
  split; [reflexivity|]. split; [reflexivity|].
  destruct (InPlaceTrip.change_then_undo_in_place (fun _ _ _ => []) nested.2
              (Heap.mkStore nested.1 nested.1 0
                 [[CHANGE [KStr "a"; KStr "b"; KStr "c"] (Heap.Prim (SNum 5))
                     (Heap.Prim (SNum 1))]] false false [] [])
              [KStr "a"; KStr "b"] (KStr "c") (Heap.Prim (SNum 5)) (Heap.Prim (SNum 1))
              eq_refl eq_refl Hnd eq_refl eq_refl)
    as (h1 & s1 & h2 & s2 & H1 & H2 & H3 & H4 & _ & H5 & _).
  - simpl. lia.
  - reflexivity.
  - exists h1, s1, h2, s2. repeat split; assumption.
Defined.

